(** * Music Assistant bridge: WebSocket client and state reconciler

    A shallow embedding of [server/ma/client.ts] (the correlated
    request/response client) and of the reconciler functions of
    [server/index.ts] (controlling-player resolution, volume targeting,
    poll coalescing), with the properties the specification states about
    them.

    Conventions of the embedding:
    - a JavaScript value of type [unknown] coming from [JSON.parse] is a
      [JSON] tree; [undefined] (an absent property) is [None];
    - JavaScript numbers are modelled as exact rationals [Q] (so every
      number is finite and arithmetic does not round);
    - JavaScript strings are [string]s, and [String.prototype.trim]
      strips the ASCII white space characters;
    - asynchronous code is cut at its suspension points: the synchronous
      part of a handler is a function on the state, the rest is a
      continuation stored in the state and run when its promise settles. *)

From Stdlib Require Import QArith Qround Lqa.
From stdpp Require Import base option list gmap sets strings.

Local Open Scope string_scope.
Local Open Scope list_scope.

(** ** JavaScript primitives *)

Module JS.

(** [s.trim()] *)
Fixpoint trimStart (s : string) : string :=
  match s with
  | String a s' => if Ascii.is_space a then trimStart s' else s
  | EmptyString => EmptyString
  end.

Definition trimEnd (s : string) : string :=
  String.rev (trimStart (String.rev s)).

Definition trim (s : string) : string := trimEnd (trimStart s).

(** Truthiness of a string: the empty string is falsy. *)
Definition truthy (s : string) : bool :=
  match s with EmptyString => false | _ => true end.

(** Truthiness of a [string | null | undefined]. *)
Definition truthy_opt (s : option string) : bool :=
  match s with Some s => truthy s | None => false end.

(** [Array.from(new Set(xs))]: a [Set] keeps its elements in insertion
    order and [add] of a present element changes nothing. *)
Definition Set_add (seen : list string) (x : string) : list string :=
  if decide (x ∈ seen) then seen else seen ++ [x].

Definition Set_from (xs : list string) : list string :=
  foldl Set_add [] xs.

(** A [Map<string, V>]: entries in insertion order, keys unique. [set]
    on a present key replaces the value in place. *)
Section Map.
Context {V : Type}.

Fixpoint Map_get (k : string) (m : list (string * V)) : option V :=
  match m with
  | [] => None
  | (k', v) :: m' => if decide (k' = k) then Some v else Map_get k m'
  end.

Fixpoint Map_set (k : string) (v : V) (m : list (string * V))
  : list (string * V) :=
  match m with
  | [] => [(k, v)]
  | (k', v') :: m' =>
      if decide (k' = k) then (k, v) :: m' else (k', v') :: Map_set k v m'
  end.

Fixpoint Map_delete (k : string) (m : list (string * V))
  : list (string * V) :=
  match m with
  | [] => []
  | (k', v') :: m' =>
      if decide (k' = k) then m' else (k', v') :: Map_delete k m'
  end.
End Map.

(** [Number.isFinite(x)]: the numbers of the model are rationals, so
    each of them is finite. *)
Definition Number_isFinite (x : Q) : bool := true.

(** [Math.round(x)]: the nearest integer, ties towards +infinity. *)
Definition Math_round (x : Q) : Q := inject_Z (Qfloor (x + (1 # 2))).

Definition Math_max (a b : Q) : Q := if Qle_bool a b then b else a.
Definition Math_min (a b : Q) : Q := if Qle_bool a b then a else b.

End JS.

(** ** JSON values *)

#[warnings="-register-all"]
Inductive JSON : Type :=
  | JNull
  | JBool (b : bool)
  | JNum (n : Q)
  | JStr (s : string)
  | JArr (items : list JSON)
  | JObj (fields : list (string * JSON)).

(** [Array.isArray(v)] for a possibly undefined value: the items if so. *)
Definition asArray (v : option JSON) : option (list JSON) :=
  match v with
  | Some (JArr items) => Some items
  | _ => None
  end.

Definition isArray (v : option JSON) : bool :=
  match asArray v with Some _ => true | None => false end.

(** Own property lookup on a parsed object. *)
Definition assoc (key : string) (fields : list (string * JSON)) : option JSON :=
  JS.Map_get key fields.

(** [asRecord]: [typeof value === 'object' && value !== null]. Arrays are
    objects too, so the record type keeps both shapes. *)
Inductive Record_ : Type :=
  | RObj (fields : list (string * JSON))
  | RArr (items : list JSON).

Definition asRecord (value : JSON) : option Record_ :=
  match value with
  | JObj fields => Some (RObj fields)
  | JArr items => Some (RArr items)
  | _ => None
  end.

(** [record.key] for one of the protocol's property names. None of them is
    an index or [length], so an array has none of them. *)
Definition prop (r : Record_) (key : string) : option JSON :=
  match r with
  | RObj fields => assoc key fields
  | RArr _ => None
  end.

(** ** The wire messages ([server/ma/types.ts]) *)

Record MAServerInfoMessage : Type := {
  server_id : string;
  server_version : string;
  schema_version : Q;
  min_supported_schema_version : option Q
}.

Record MAEventMessage : Type := {
  event : string;
  object_id : option string;
  data : option JSON
}.

(** [MAResultSuccessMessage | MAResultErrorMessage]; the error shape is the
    one that has the key [error_code]. *)
Inductive MAResultMessage : Type :=
  | MAResultSuccessMessage (message_id : string) (result : option JSON)
      (partial : bool)
  | MAResultErrorMessage (message_id : string) (error_code : string)
      (details : option string).

Definition message_id_of (m : MAResultMessage) : string :=
  match m with
  | MAResultSuccessMessage id _ _ => id
  | MAResultErrorMessage id _ _ => id
  end.

(** ** The wire codec ([server/ma/client.ts], the parse functions) *)

Definition parseServerInfo (message : Record_) : option MAServerInfoMessage :=
  match prop message "server_id", prop message "server_version",
        prop message "schema_version" with
  | Some (JStr serverId), Some (JStr serverVersion), Some (JNum schemaVersion) =>
      let minSupported := prop message "min_supported_schema_version" in
      Some {| server_id := serverId;
              server_version := serverVersion;
              schema_version := schemaVersion;
              min_supported_schema_version :=
                match minSupported with Some (JNum n) => Some n | _ => None end |}
  | _, _, _ => None
  end.

Definition parseEventMessage (message : Record_) : option MAEventMessage :=
  match prop message "event" with
  | Some (JStr ev) =>
      let objectId := prop message "object_id" in
      Some {| event := ev;
              object_id :=
                match objectId with Some (JStr s) => Some s | _ => None end;
              data := prop message "data" |}
  | _ => None
  end.

Definition parseResultMessage (message : Record_) : option MAResultMessage :=
  match prop message "message_id" with
  | Some (JStr messageId) =>
      match prop message "error_code" with
      | Some (JStr errorCode) =>
          Some (MAResultErrorMessage messageId errorCode
                  match prop message "details" with
                  | Some (JStr d) => Some d
                  | _ => None
                  end)
      | _ =>
          Some (MAResultSuccessMessage messageId (prop message "result")
                  match prop message "partial" with
                  | Some (JBool true) => true
                  | _ => false
                  end)
      end
  | _ => None
  end.

(** ** The client ([MusicAssistantClient], [server/ma/client.ts]) *)

Module Client.

Inductive MAConnectionState : Type :=
  | Disconnected
  | Connecting
  | Connected
  | Authenticating
  | Authenticated
  | Error.

Module MAStatusSnapshot.
Record t : Type := {
  state : MAConnectionState;
  message : string;
  connected : bool;
  authenticated : bool;
  authRequired : bool;
  serverInfo : option MAServerInfoMessage
}.
End MAStatusSnapshot.

(** [WebSocket.readyState] *)
Inductive ReadyState : Type := CONNECTING | OPEN | CLOSING | CLOSED.

#[global] Instance ReadyState_eq_dec : EqDecision ReadyState.
Proof. solve_decision. Defined.

(** A socket object: its identity (the n-th [new WebSocket]) and its
    ready state. *)
Record WebSocket : Type := { sock : nat; readyState : ReadyState }.

(** Who awaits the promise that [sendCommand] returns: a caller outside
    the class, or [authenticateWithToken], itself called from outside or
    from [handleServerInfo]. The token is the trimmed one the
    continuation stores. *)
Inductive AuthOrigin : Type := FromCaller | FromServerInfo.

Inductive Waiter : Type :=
  | Caller
  | Auth (origin : AuthOrigin) (token : string).

(** The [resolve]/[reject] pair of one promise. *)
Record Promise : Type := { p_id : nat; p_waiter : Waiter }.

Inductive Outcome : Type :=
  | Fulfilled (value : option JSON)
  | Rejected (reason : string).

Record PendingRequest : Type := {
  settle : Promise;
  timeout : nat;
  partialResults : list JSON
}.

(** The closure of the [setTimeout] callback of [sendCommand]. *)
Record Timer : Type := {
  t_messageId : string;
  t_command : string;
  t_reject : Promise
}.

Definition COMMAND_TIMEOUT_MS : Z := 12000.

(** What the client does to the outside, in order. *)
Inductive Effect : Type :=
  | NewWebSocket (s : nat)
  | SocketTerminate (s : nat)
  | SocketClose (s : nat)
  | SocketSend (s : nat) (payload : JSON)
  | SetTimeout (h : nat) (ms : Z)
  | ClearTimeout (h : nat)
  | Resolve (p : nat) (value : option JSON)
  | Reject (p : nat) (reason : string)
  | StatusChange (snapshot : MAStatusSnapshot.t)
  | EventDelivered (ev : MAEventMessage).

(** The fields of the class, then the runtime state it relies on: the
    armed timers, the settled promises, the queue of promise reactions,
    the counters of allocated handles and the trace of effects. *)
Record t : Type := {
  ws : option WebSocket;
  baseUrl : string;
  authToken : string;
  state : MAConnectionState;
  message : string;
  authenticated : bool;
  serverInfo : option MAServerInfoMessage;
  pending : list (string * PendingRequest);
  connectPromise : bool;
  timers : gmap nat Timer;
  settled : gset nat;
  microtasks : list (Promise * Outcome);
  next_handle : nat;
  next_socket : nat;
  trace : list Effect
}.

Definition set_ws v c :=
  {| ws := v; baseUrl := baseUrl c; authToken := authToken c;
     state := state c; message := message c;
     authenticated := authenticated c; serverInfo := serverInfo c;
     pending := pending c; connectPromise := connectPromise c;
     timers := timers c; settled := settled c;
     microtasks := microtasks c; next_handle := next_handle c;
     next_socket := next_socket c; trace := trace c |}.
Definition set_authToken v c :=
  {| ws := ws c; baseUrl := baseUrl c; authToken := v;
     state := state c; message := message c;
     authenticated := authenticated c; serverInfo := serverInfo c;
     pending := pending c; connectPromise := connectPromise c;
     timers := timers c; settled := settled c;
     microtasks := microtasks c; next_handle := next_handle c;
     next_socket := next_socket c; trace := trace c |}.
Definition set_status st msg c :=
  {| ws := ws c; baseUrl := baseUrl c; authToken := authToken c;
     state := st; message := msg;
     authenticated := authenticated c; serverInfo := serverInfo c;
     pending := pending c; connectPromise := connectPromise c;
     timers := timers c; settled := settled c;
     microtasks := microtasks c; next_handle := next_handle c;
     next_socket := next_socket c; trace := trace c |}.
Definition set_authenticated v c :=
  {| ws := ws c; baseUrl := baseUrl c; authToken := authToken c;
     state := state c; message := message c;
     authenticated := v; serverInfo := serverInfo c;
     pending := pending c; connectPromise := connectPromise c;
     timers := timers c; settled := settled c;
     microtasks := microtasks c; next_handle := next_handle c;
     next_socket := next_socket c; trace := trace c |}.
Definition set_serverInfo v c :=
  {| ws := ws c; baseUrl := baseUrl c; authToken := authToken c;
     state := state c; message := message c;
     authenticated := authenticated c; serverInfo := v;
     pending := pending c; connectPromise := connectPromise c;
     timers := timers c; settled := settled c;
     microtasks := microtasks c; next_handle := next_handle c;
     next_socket := next_socket c; trace := trace c |}.
Definition set_pending v c :=
  {| ws := ws c; baseUrl := baseUrl c; authToken := authToken c;
     state := state c; message := message c;
     authenticated := authenticated c; serverInfo := serverInfo c;
     pending := v; connectPromise := connectPromise c;
     timers := timers c; settled := settled c;
     microtasks := microtasks c; next_handle := next_handle c;
     next_socket := next_socket c; trace := trace c |}.
Definition set_connectPromise v c :=
  {| ws := ws c; baseUrl := baseUrl c; authToken := authToken c;
     state := state c; message := message c;
     authenticated := authenticated c; serverInfo := serverInfo c;
     pending := pending c; connectPromise := v;
     timers := timers c; settled := settled c;
     microtasks := microtasks c; next_handle := next_handle c;
     next_socket := next_socket c; trace := trace c |}.
Definition set_timers v c :=
  {| ws := ws c; baseUrl := baseUrl c; authToken := authToken c;
     state := state c; message := message c;
     authenticated := authenticated c; serverInfo := serverInfo c;
     pending := pending c; connectPromise := connectPromise c;
     timers := v; settled := settled c;
     microtasks := microtasks c; next_handle := next_handle c;
     next_socket := next_socket c; trace := trace c |}.
Definition set_settled v c :=
  {| ws := ws c; baseUrl := baseUrl c; authToken := authToken c;
     state := state c; message := message c;
     authenticated := authenticated c; serverInfo := serverInfo c;
     pending := pending c; connectPromise := connectPromise c;
     timers := timers c; settled := v;
     microtasks := microtasks c; next_handle := next_handle c;
     next_socket := next_socket c; trace := trace c |}.
Definition set_microtasks v c :=
  {| ws := ws c; baseUrl := baseUrl c; authToken := authToken c;
     state := state c; message := message c;
     authenticated := authenticated c; serverInfo := serverInfo c;
     pending := pending c; connectPromise := connectPromise c;
     timers := timers c; settled := settled c;
     microtasks := v; next_handle := next_handle c;
     next_socket := next_socket c; trace := trace c |}.
Definition set_next_handle v c :=
  {| ws := ws c; baseUrl := baseUrl c; authToken := authToken c;
     state := state c; message := message c;
     authenticated := authenticated c; serverInfo := serverInfo c;
     pending := pending c; connectPromise := connectPromise c;
     timers := timers c; settled := settled c;
     microtasks := microtasks c; next_handle := v;
     next_socket := next_socket c; trace := trace c |}.
Definition set_next_socket v c :=
  {| ws := ws c; baseUrl := baseUrl c; authToken := authToken c;
     state := state c; message := message c;
     authenticated := authenticated c; serverInfo := serverInfo c;
     pending := pending c; connectPromise := connectPromise c;
     timers := timers c; settled := settled c;
     microtasks := microtasks c; next_handle := next_handle c;
     next_socket := v; trace := trace c |}.
Definition set_trace v c :=
  {| ws := ws c; baseUrl := baseUrl c; authToken := authToken c;
     state := state c; message := message c;
     authenticated := authenticated c; serverInfo := serverInfo c;
     pending := pending c; connectPromise := connectPromise c;
     timers := timers c; settled := settled c;
     microtasks := microtasks c; next_handle := next_handle c;
     next_socket := next_socket c; trace := v |}.

(** A client as the class initialises it, with the credentials that
    [setCredentials] stored (already normalised). *)
Definition new (url token : string) : t :=
  {| ws := None; baseUrl := url; authToken := token;
     state := Disconnected; message := "Not connected.";
     authenticated := false; serverInfo := None;
     pending := []; connectPromise := false;
     timers := ∅; settled := ∅; microtasks := [];
     next_handle := 0; next_socket := 0; trace := [] |}.

Definition emit (e : Effect) (c : t) : t := set_trace (trace c ++ [e]) c.

(** *** Status *)

Definition isConnected (c : t) : bool :=
  match ws c with
  | Some socket => bool_decide (readyState socket = OPEN)
  | None => false
  end.

Definition isAuthenticated (c : t) : bool := authenticated c.

Definition getStatus (c : t) : MAStatusSnapshot.t :=
  let authRequired :=
    match serverInfo c with
    | Some info => Qle_bool 28 (schema_version info) && negb (authenticated c)
    | None => false
    end in
  {| MAStatusSnapshot.state := state c;
     MAStatusSnapshot.message := message c;
     MAStatusSnapshot.connected := isConnected c;
     MAStatusSnapshot.authenticated := authenticated c;
     MAStatusSnapshot.authRequired := authRequired;
     MAStatusSnapshot.serverInfo := serverInfo c |}.

Definition updateStatus (st : MAConnectionState) (msg : string)
    (auth : option bool) (c : t) : t :=
  let c := set_status st msg c in
  let c := match auth with Some b => set_authenticated b c | None => c end in
  emit (StatusChange (getStatus c)) c.

Definition setAuthToken (token : string) (c : t) : t :=
  set_authToken (JS.trim token) c.

(** *** Promises and timers *)

(** A call of the [resolve] or [reject] function of a promise. Only the
    first call settles the promise and queues the awaiting continuation. *)
Definition settle_promise (p : Promise) (o : Outcome) (c : t) : t :=
  let c :=
    emit match o with
         | Fulfilled v => Resolve (p_id p) v
         | Rejected r => Reject (p_id p) r
         end c in
  if decide (p_id p ∈ settled c) then c
  else set_microtasks (microtasks c ++ [(p, o)])
         (set_settled ({[p_id p]} ∪ settled c) c).

Definition clearTimeout (h : nat) (c : t) : t :=
  emit (ClearTimeout h) (set_timers (delete h (timers c)) c).

(** What a function of the class returns to its caller: normally, or by
    throwing (for an [async] function, a rejected promise). *)
Inductive Completion : Type :=
  | Normal (c : t)
  | Throw (error : string) (c : t).

(** *** Commands *)

(** [uuid] is what [randomUUID()] returns in this call; [w] is who awaits
    the returned promise. *)
Definition sendCommand (uuid : string) (w : Waiter) (command : string)
    (args : option (list (string * JSON))) (c : t) : Completion :=
  match ws c with
  | Some socket =>
      if decide (readyState socket = OPEN) then
        let messageId := uuid in
        let payload :=
          JObj ([("command", JStr command); ("message_id", JStr messageId)]
                ++ match args with
                   | Some ((_ :: _) as args) => [("args", JObj args)]
                   | _ => []
                   end) in
        let h := next_handle c in
        let p := {| p_id := h; p_waiter := w |} in
        let c := set_next_handle (S h) c in
        let c :=
          set_timers (<[h := {| t_messageId := messageId;
                                t_command := command;
                                t_reject := p |}]> (timers c)) c in
        let c := emit (SetTimeout h COMMAND_TIMEOUT_MS) c in
        let c :=
          set_pending (JS.Map_set messageId
                         {| settle := p; timeout := h; partialResults := [] |}
                         (pending c)) c in
        let c := emit (SocketSend (sock socket) payload) c in
        Normal c
      else Throw "Not connected to Music Assistant." c
  | None => Throw "Not connected to Music Assistant." c
  end.

(** The callback of the timer of [sendCommand]. *)
Definition onCommandTimeout (tm : Timer) (c : t) : t :=
  let c := set_pending (JS.Map_delete (t_messageId tm) (pending c)) c in
  settle_promise (t_reject tm)
    (Rejected ("Music Assistant command timeout: " ++ t_command tm)) c.

Definition authenticateWithToken (token : string) (uuid : string)
    (origin : AuthOrigin) (c : t) : Completion :=
  if negb (JS.truthy (JS.trim token)) then Throw "Token is empty." c
  else if negb (isConnected c) then
    Throw "Not connected to Music Assistant." c
  else
    let c :=
      updateStatus Authenticating "Authenticating with Music Assistant…"
        (Some false) c in
    sendCommand uuid (Auth origin (JS.trim token)) "auth"
      (Some [("token", JStr (JS.trim token))]) c.

(** The code after an [await] of the promise of [sendCommand]. *)
Definition continue_ (p : Promise) (o : Outcome) (c : t) : t :=
  match p_waiter p, o with
  | Caller, _ => c
  | Auth _ token, Fulfilled _ =>
      let c := set_authToken token c in
      updateStatus Authenticated "Connected and authenticated." (Some true) c
  | Auth FromCaller _, Rejected _ => c
  | Auth FromServerInfo _, Rejected reason =>
      updateStatus Error ("Authentication failed: " ++ reason) (Some false) c
  end.

Fixpoint run_reactions (jobs : list (Promise * Outcome)) (c : t) : t :=
  match jobs with
  | [] => c
  | (p, o) :: jobs => run_reactions jobs (continue_ p o c)
  end.

(** Run the queued promise reactions once the synchronous code is done.
    No continuation of this class settles a promise, so one pass empties
    the queue. *)
Definition drain (c : t) : t :=
  run_reactions (microtasks c) (set_microtasks [] c).

Fixpoint rejectPendingRequests_loop (entries : list (string * PendingRequest))
    (msg : string) (c : t) : t :=
  match entries with
  | [] => c
  | (messageId, pending_) :: entries =>
      let c := clearTimeout (timeout pending_) c in
      let c := settle_promise (settle pending_) (Rejected msg) c in
      let c := set_pending (JS.Map_delete messageId (pending c)) c in
      rejectPendingRequests_loop entries msg c
  end.

Definition rejectPendingRequests (msg : string) (c : t) : t :=
  rejectPendingRequests_loop (pending c) msg c.

Definition disconnect (reason : string) (c : t) : t :=
  let socket := ws c in
  let c := set_ws None c in
  let c :=
    match socket with
    | Some s =>
        match readyState s with
        | CONNECTING => emit (SocketTerminate (sock s)) c
        | OPEN => emit (SocketClose (sock s)) c
        | _ => c
        end
    | None => c
    end in
  let c := rejectPendingRequests reason c in
  let c := set_authenticated false c in
  let c := set_serverInfo None c in
  updateStatus Disconnected reason (Some false) c.

(** *** Incoming frames *)

Definition handleServerInfo (info : MAServerInfoMessage) (uuid : string)
    (c : t) : t :=
  let c := set_serverInfo (Some info) c in
  if Qle_bool 28 (schema_version info) then
    if negb (JS.truthy (authToken c)) then
      updateStatus Connected
        "Authentication required. Use provider login or set a token."
        (Some false) c
    else
      match authenticateWithToken (authToken c) uuid FromServerInfo c with
      | Normal c => c
      | Throw error c =>
          updateStatus Error ("Authentication failed: " ++ error)
            (Some false) c
      end
  else updateStatus Authenticated "Connected." (Some true) c.

Definition handleResultMessage (msg : MAResultMessage) (c : t) : t :=
  match JS.Map_get (message_id_of msg) (pending c) with
  | None => c
  | Some pending_ =>
      match msg with
      | MAResultErrorMessage message_id error_code details =>
          let c := clearTimeout (timeout pending_) c in
          let c := set_pending (JS.Map_delete message_id (pending c)) c in
          settle_promise (settle pending_)
            (Rejected (if JS.truthy_opt details
                       then default "" details else error_code)) c
      | MAResultSuccessMessage message_id result partial =>
          if partial then
            match asArray result with
            | Some items =>
                set_pending
                  (JS.Map_set message_id
                     {| settle := settle pending_;
                        timeout := timeout pending_;
                        partialResults := partialResults pending_ ++ items |}
                     (pending c)) c
            | None => c
            end
          else
            let c := clearTimeout (timeout pending_) c in
            let c := set_pending (JS.Map_delete message_id (pending c)) c in
            match partialResults pending_, asArray result with
            | _ :: _, Some items =>
                settle_promise (settle pending_)
                  (Fulfilled (Some (JArr (partialResults pending_ ++ items)))) c
            | _, _ => settle_promise (settle pending_) (Fulfilled result) c
            end
      end
  end.

Definition deliver (ev : MAEventMessage) (c : t) : t :=
  emit (EventDelivered ev) c.

Section WithParser.

(** [JSON.parse]: [None] when it throws. *)
Variable JSON_parse : string -> option JSON.

Definition handleMessage (rawText : string) (uuid : string) (c : t) : t :=
  match JSON_parse rawText with
  | None => c
  | Some message_ =>
      match asRecord message_ with
      | None => c
      | Some parsed =>
          match parseServerInfo parsed with
          | Some serverInfo_ => handleServerInfo serverInfo_ uuid c
          | None =>
              match parseEventMessage parsed with
              | Some ev => deliver ev c
              | None =>
                  match parseResultMessage parsed with
                  | Some result => handleResultMessage result c
                  | None => c
                  end
              end
          end
      end
  end.

(** *** Connection *)

(** The synchronous part of [connect], up to the wait for the socket to
    open. The URL of the socket plays no part and is left out: the
    constructor [new WebSocket(wsUrl)] is taken to accept it, and its
    throw on an address that is not a URL is not modelled. *)
Definition connect (c : t) : Completion :=
  if connectPromise c then Normal c
  else if negb (JS.truthy (baseUrl c)) then
    Throw "Music Assistant URL is not configured." c
  else
    let c := disconnect "Reconnecting…" c in
    let c := set_serverInfo None c in
    let c := set_authenticated false c in
    let c := updateStatus Connecting "Connecting to Music Assistant…"
               (Some false) c in
    let s := next_socket c in
    let c := set_next_socket (S s) c in
    let c := emit (NewWebSocket s) c in
    let c := set_ws (Some {| sock := s; readyState := CONNECTING |}) c in
    Normal (set_connectPromise true c).

(** The socket of the running attempt opens: the ['open'] listener, then
    the registration of the listeners, then [finally]. The last two run
    in the promise reactions of the task that delivers ['open']; the
    socket is taken to deliver no other event within that task. *)
Definition onOpen (c : t) : t :=
  let c :=
    match ws c with
    | Some s => set_ws (Some {| sock := sock s; readyState := OPEN |}) c
    | None => c
    end in
  let c := updateStatus Connected "Connected. Waiting for server info…"
             (Some false) c in
  set_connectPromise false c.

(** The running attempt fails (socket error, or the 8 s timer): the
    [catch] of [connect], then [finally]. *)
Definition onConnectError (error : string) (c : t) : t :=
  let c := updateStatus Error ("Connection failed: " ++ error)
             (Some false) c in
  let c := disconnect "Disconnected after connection error." c in
  set_connectPromise false c.

(** [connect] registers the ['message'], ['close'] and ['error']
    listeners once the socket has opened, and each of them returns at
    once unless that socket is still [this.ws]. *)
Definition is_current (s : nat) (c : t) : bool :=
  match ws c with
  | Some socket =>
      bool_decide (sock socket = s)
      && negb (bool_decide (readyState socket = CONNECTING))
  | None => false
  end.

(** The ['close'] listener. The socket has its [readyState] set to
    [CLOSED] before it emits ['close'], so the status published here
    says that the client is not connected. *)
Definition socket_closed (c : t) : t :=
  match ws c with
  | Some s => set_ws (Some {| sock := sock s; readyState := CLOSED |}) c
  | None => c
  end.

Definition onClose (c : t) : t :=
  let c := socket_closed c in
  let c := updateStatus Disconnected "Disconnected from Music Assistant."
             (Some false) c in
  let c := rejectPendingRequests "Socket closed." c in
  set_ws None c.

Definition onError (error : string) (c : t) : t :=
  updateStatus Error ("Socket error: " ++ error) (Some false) c.

(** *** The event loop *)

Inductive Event : Type :=
  | CallConnect
  | SocketOpened
  | ConnectFailed (error : string)
  | SocketClosing (s : nat)
  | SocketMessage (s : nat) (rawText : string) (uuid : string)
  | SocketClosed (s : nat)
  | SocketError (s : nat) (error : string)
  | CallDisconnect (reason : string)
  | CallSendCommand (uuid : string) (command : string)
      (args : option (list (string * JSON)))
  | CallAuthenticateWithToken (token : string) (uuid : string)
  | CallSetAuthToken (token : string)
  | TimerFired (h : nat).

Definition completed (r : Completion) : t :=
  match r with Normal c => c | Throw _ c => c end.

(** One task of the event loop, without the promise reactions. An event
    that cannot happen in the state (a timer that is not armed, a
    socket event of a socket that has no listener) changes nothing. *)
Definition handle (ev : Event) (c : t) : t :=
  match ev with
  | CallConnect => completed (connect c)
  | SocketOpened =>
      match connectPromise c, ws c with
      | true, Some {| sock := _; readyState := CONNECTING |} => onOpen c
      | _, _ => c
      end
  | ConnectFailed error =>
      if connectPromise c then onConnectError error c else c
  | SocketClosing s =>
      if is_current s c
      then set_ws (Some {| sock := s; readyState := CLOSING |}) c
      else c
  | SocketMessage s rawText uuid =>
      if is_current s c then handleMessage rawText uuid c else c
  | SocketClosed s => if is_current s c then onClose c else c
  | SocketError s error => if is_current s c then onError error c else c
  | CallDisconnect reason => disconnect reason c
  | CallSendCommand uuid command args =>
      completed (sendCommand uuid Caller command args c)
  | CallAuthenticateWithToken token uuid =>
      completed (authenticateWithToken token uuid FromCaller c)
  | CallSetAuthToken token => setAuthToken token c
  | TimerFired h =>
      match timers c !! h with
      | Some tm => onCommandTimeout tm (set_timers (delete h (timers c)) c)
      | None => c
      end
  end.

Definition step (c : t) (ev : Event) : t := drain (handle ev c).

Definition run (c : t) (evs : list Event) : t := foldl step c evs.

End WithParser.

End Client.

(** ** The state reconciler ([server/index.ts]) *)

Module Reconciler.

Record MAPlayer : Type := {
  player_id : string;
  display_name : option string;
  available : option bool;
  powered : option bool;
  state : option string;
  active_source : option string;
  volume_level : option Q;
  volume_muted : option bool;
  group_members : option (list string);
  synced_to : option string;
  active_group : option string
}.

Record MAQueue : Type := {
  queue_id : string;
  queue_player_id : option string;
  queue_state : option string;
  shuffle_enabled : option bool;
  repeat_mode : option string;
  elapsed_time : option Q;
  current_item : option JSON
}.

Inductive VolumeControlScope : Type := selected | group.

(** What the reconciler needs from its collaborators when it runs: the
    client's [isConnected()] and [isAuthenticated()], and the configured
    default player of [getMusicAssistantSettings()]. *)
Record Env : Type := {
  isConnected : bool;
  isAuthenticated : bool;
  defaultPlayerId : string
}.

(** A command handed to [maClient.sendCommand]. *)
Record Command : Type := { command : string; args : list (string * JSON) }.

Inductive Effect : Type :=
  | Send (cmd : Command)
  | EmitStatus
  | EmitError (request : string) (message : string)
  | EmitPlayersAndState
  | SetTimeout (delayMs : Q)
  | ClearTimeout.

(** Where the running [pollState] is suspended. *)
Inductive PollPhase : Type :=
  | Idle
  | AwaitingLists (settings_defaultPlayerId : string)
  | AwaitingItems.

(** The module variables, then the position of the poll in flight, two
    counters that are not in the source (how often the [try] block of
    [pollState] was entered and how often its [finally] block ran) and
    the trace of effects. *)
Record t : Type := {
  pollInFlight : bool;
  pollAgain : bool;
  scheduledPoll : bool;
  selectedPlayerId : option string;
  playersCache : list MAPlayer;
  queuesCache : list MAQueue;
  queueItemsCache : list JSON;
  phase : PollPhase;
  cycles_started : nat;
  cycles_finished : nat;
  trace : list Effect
}.

Definition set_pollInFlight v s :=
  {| pollInFlight := v; pollAgain := pollAgain s;
     scheduledPoll := scheduledPoll s;
     selectedPlayerId := selectedPlayerId s; playersCache := playersCache s;
     queuesCache := queuesCache s; queueItemsCache := queueItemsCache s;
     phase := phase s; cycles_started := cycles_started s;
     cycles_finished := cycles_finished s; trace := trace s |}.
Definition set_pollAgain v s :=
  {| pollInFlight := pollInFlight s; pollAgain := v;
     scheduledPoll := scheduledPoll s;
     selectedPlayerId := selectedPlayerId s; playersCache := playersCache s;
     queuesCache := queuesCache s; queueItemsCache := queueItemsCache s;
     phase := phase s; cycles_started := cycles_started s;
     cycles_finished := cycles_finished s; trace := trace s |}.
Definition set_scheduledPoll v s :=
  {| pollInFlight := pollInFlight s; pollAgain := pollAgain s;
     scheduledPoll := v;
     selectedPlayerId := selectedPlayerId s; playersCache := playersCache s;
     queuesCache := queuesCache s; queueItemsCache := queueItemsCache s;
     phase := phase s; cycles_started := cycles_started s;
     cycles_finished := cycles_finished s; trace := trace s |}.
Definition set_caches sel players queues s :=
  {| pollInFlight := pollInFlight s; pollAgain := pollAgain s;
     scheduledPoll := scheduledPoll s;
     selectedPlayerId := sel; playersCache := players;
     queuesCache := queues; queueItemsCache := queueItemsCache s;
     phase := phase s; cycles_started := cycles_started s;
     cycles_finished := cycles_finished s; trace := trace s |}.
Definition set_queueItemsCache v s :=
  {| pollInFlight := pollInFlight s; pollAgain := pollAgain s;
     scheduledPoll := scheduledPoll s;
     selectedPlayerId := selectedPlayerId s; playersCache := playersCache s;
     queuesCache := queuesCache s; queueItemsCache := v;
     phase := phase s; cycles_started := cycles_started s;
     cycles_finished := cycles_finished s; trace := trace s |}.
Definition set_phase v s :=
  {| pollInFlight := pollInFlight s; pollAgain := pollAgain s;
     scheduledPoll := scheduledPoll s;
     selectedPlayerId := selectedPlayerId s; playersCache := playersCache s;
     queuesCache := queuesCache s; queueItemsCache := queueItemsCache s;
     phase := v; cycles_started := cycles_started s;
     cycles_finished := cycles_finished s; trace := trace s |}.
Definition count_started s :=
  {| pollInFlight := pollInFlight s; pollAgain := pollAgain s;
     scheduledPoll := scheduledPoll s;
     selectedPlayerId := selectedPlayerId s; playersCache := playersCache s;
     queuesCache := queuesCache s; queueItemsCache := queueItemsCache s;
     phase := phase s; cycles_started := S (cycles_started s);
     cycles_finished := cycles_finished s; trace := trace s |}.
Definition count_finished s :=
  {| pollInFlight := pollInFlight s; pollAgain := pollAgain s;
     scheduledPoll := scheduledPoll s;
     selectedPlayerId := selectedPlayerId s; playersCache := playersCache s;
     queuesCache := queuesCache s; queueItemsCache := queueItemsCache s;
     phase := phase s; cycles_started := cycles_started s;
     cycles_finished := S (cycles_finished s); trace := trace s |}.
Definition emit (e : Effect) s :=
  {| pollInFlight := pollInFlight s; pollAgain := pollAgain s;
     scheduledPoll := scheduledPoll s;
     selectedPlayerId := selectedPlayerId s; playersCache := playersCache s;
     queuesCache := queuesCache s; queueItemsCache := queueItemsCache s;
     phase := phase s; cycles_started := cycles_started s;
     cycles_finished := cycles_finished s; trace := trace s ++ [e] |}.

(** The module as it is loaded. *)
Definition init : t :=
  {| pollInFlight := false; pollAgain := false; scheduledPoll := false;
     selectedPlayerId := None; playersCache := []; queuesCache := [];
     queueItemsCache := []; phase := Idle; cycles_started := 0;
     cycles_finished := 0; trace := [] |}.

(** *** Players and queues *)

Definition findPlayerById (players : list MAPlayer) (playerId : option string)
    : option MAPlayer :=
  match playerId with
  | Some playerId =>
      if JS.truthy playerId
      then List.find (fun player => bool_decide (player_id player = playerId))
             players
      else None
  | None => None
  end.

Definition normalizePlayerIdList (values : option (list string)) : list string :=
  match values with
  | Some values =>
      List.map JS.trim
        (List.filter (fun value => (0 <? String.length (JS.trim value))%nat)
           values)
  | None => []
  end.

(** [(typeof current.synced_to === 'string' && current.synced_to.trim())
     || (typeof current.active_group === 'string' && ...trim()) || null] *)
Definition parentId_of (current : MAPlayer) : option string :=
  let trimmed (field : option string) : option string :=
    match field with
    | Some s => if JS.truthy (JS.trim s) then Some (JS.trim s) else None
    | None => None
    end in
  match trimmed (synced_to current) with
  | Some parentId => Some parentId
  | None => trimmed (active_group current)
  end.

(** The [while] loop of [resolveControllingPlayer]; one unit of fuel per
    test of the loop condition. [None] is "out of fuel". *)
Fixpoint resolve_loop (fuel : nat) (players : list MAPlayer)
    (current : option MAPlayer) (visited : gset string)
    : option (option MAPlayer) :=
  match fuel with
  | O => None
  | S fuel =>
      match current with
      | None => Some None
      | Some cur =>
          if decide (player_id cur ∈ visited) then Some (Some cur)
          else
            let visited := {[player_id cur]} ∪ visited in
            match parentId_of cur with
            | None => Some (Some cur)
            | Some parentId =>
                if decide (parentId = player_id cur) then Some (Some cur)
                else
                  match findPlayerById players (Some parentId) with
                  | None => Some (Some cur)
                  | Some parent =>
                      resolve_loop fuel players (Some parent) visited
                  end
            end
      end
  end.

(** The loop tests its condition at most once per cached player and once
    more, so this fuel is enough: the loop never runs out of it. *)
Definition resolve_fuel (players : list MAPlayer) : nat := S (length players).

Definition resolveControllingPlayer (players : list MAPlayer)
    (playerId : option string) : option MAPlayer :=
  default None
    (resolve_loop (resolve_fuel players) players
       (findPlayerById players playerId) ∅).

Definition pickSelectedPlayerId (players : list MAPlayer)
    (preferredPlayerId : option string) (defaultPlayerId_ : string)
    : option string :=
  let has (id : string) : bool :=
    bool_decide (id ∈ List.map player_id players) in
  if JS.truthy_opt preferredPlayerId && has (default "" preferredPlayerId)
  then preferredPlayerId
  else if JS.truthy defaultPlayerId_ && has defaultPlayerId_
  then Some defaultPlayerId_
  else match players with
       | first :: _ => Some (player_id first)
       | [] => None
       end.

Definition resolveQueueForPlayer (queues : list MAQueue)
    (player : option MAPlayer) : option MAQueue :=
  match player with
  | None => None
  | Some player =>
      match List.find
              (fun queue =>
                 bool_decide (queue_player_id queue = Some (player_id player))
                 || bool_decide (queue_id queue = player_id player))
              queues with
      | Some byPlayerId => Some byPlayerId
      | None =>
          if JS.truthy_opt (active_source player) then
            List.find
              (fun queue =>
                 bool_decide (Some (queue_id queue) = active_source player))
              queues
          else None
      end
  end.

(** *** Volume targeting *)

Inductive Completion (A : Type) : Type :=
  | Normal (a : A)
  | Throw (error : string).
Arguments Normal {A} a.
Arguments Throw {A} error.

Definition getVolumeTargetPlayerIds (scope : VolumeControlScope)
    (explicitPlayerIds : list string) (s : t) : Completion (list string) :=
  let explicit := normalizePlayerIdList (Some explicitPlayerIds) in
  if (0 <? length explicit)%nat then Normal (JS.Set_from explicit)
  else
    match findPlayerById (playersCache s) (selectedPlayerId s) with
    | None => Throw "No player selected."
    | Some selected_ =>
        match scope with
        | selected => Normal [player_id selected_]
        | group =>
            let controller :=
              default selected_
                (resolveControllingPlayer (playersCache s)
                   (Some (player_id selected_))) in
            let groupMembers :=
              normalizePlayerIdList (group_members controller) in
            let ids :=
              if (1 <? length groupMembers)%nat then groupMembers
              else normalizePlayerIdList (group_members selected_) in
            if (0 <? length ids)%nat then Normal (JS.Set_from ids)
            else Normal [player_id selected_]
        end
    end.

Definition clamp (value : Q) : Q := JS.Math_min 100%Q (JS.Math_max 0%Q value).

Definition volume_set (playerId : string) (volumeLevel : Q) : Command :=
  {| command := "players/cmd/volume_set";
     args := [("player_id", JStr playerId); ("volume_level", JNum volumeLevel)] |}.

Definition players_get (playerId : string) : Command :=
  {| command := "players/get";
     args := [("player_id", JStr playerId); ("raise_unavailable", JBool true)] |}.

(** [getCurrentVolume]: the cached level, or a fetch and what to make of
    the fetched player. *)
Inductive Volume : Type :=
  | Cached (level : Q)
  | Fetch (cmd : Command) (level_of : MAPlayer -> Q).

Definition getCurrentVolume (playerId : string) (s : t) : Volume :=
  let fromCache :=
    match findPlayerById (playersCache s) (Some playerId) with
    | Some player => volume_level player
    | None => None
    end in
  let fetch :=
    Fetch (players_get playerId)
      (fun fresh => match volume_level fresh with
                    | Some level =>
                        if JS.Number_isFinite level then level else 0%Q
                    | None => 0%Q
                    end) in
  match fromCache with
  | Some level => if JS.Number_isFinite level then Cached level else fetch
  | None => fetch
  end.

(** One of the concurrent bodies of [adjustVolume]: either it sends its
    [volume_set] at once, or it first sends a fetch and sends the
    [volume_set] when the fetched player arrives. *)
Inductive VolumeTask : Type :=
  | SetNow (cmd : Command)
  | FetchThenSet (fetch : Command) (next : MAPlayer -> Command).

Definition adjust_one (volumeDelta : Q) (s : t) (playerId : string)
    : VolumeTask :=
  match getCurrentVolume playerId s with
  | Cached currentVolume =>
      SetNow (volume_set playerId (clamp (currentVolume + volumeDelta)))
  | Fetch cmd level_of =>
      FetchThenSet cmd
        (fun fresh => volume_set playerId (clamp (level_of fresh + volumeDelta)))
  end.

(** [adjustVolume] up to its [await Promise.all(...)]: the tasks it has
    started, one per target, none waiting for another. *)
Definition adjustVolume (delta : Q) (scope : VolumeControlScope)
    (explicitPlayerIds : list string) (s : t) : Completion (list VolumeTask) :=
  match getVolumeTargetPlayerIds scope explicitPlayerIds s with
  | Throw error => Throw error
  | Normal targetPlayerIds =>
      let uniqueIds := JS.Set_from targetPlayerIds in
      let volumeDelta := JS.Math_round delta in
      Normal (List.map (adjust_one volumeDelta s) uniqueIds)
  end.

(** The commands the tasks send before any reply arrives. *)
Definition first_command (task : VolumeTask) : Command :=
  match task with
  | SetNow cmd => cmd
  | FetchThenSet fetch _ => fetch
  end.

(** *** The poll cycle *)

Definition emitStatus (s : t) : t := emit EmitStatus s.
Definition emitError (request message : string) (s : t) : t :=
  emit (EmitError request message) s.
Definition emitPlayersAndState (s : t) : t := emit EmitPlayersAndState s.
Definition sendCommand (name : string) (arguments : list (string * JSON))
    (s : t) : t :=
  emit (Send {| command := name; args := arguments |}) s.

(** How an awaited promise settled. *)
Inductive Settled (A : Type) : Type :=
  | Fulfilled (value : A)
  | Rejected (reason : string).
Arguments Fulfilled {A} value.
Arguments Rejected {A} reason.

(** [pollState] up to its first [await]. *)
Definition pollState (env : Env) (s : t) : t :=
  if pollInFlight s then set_pollAgain true s
  else if negb (isConnected env) then emitStatus s
  else if negb (isAuthenticated env) then emitStatus s
  else
    let s := set_pollInFlight true s in
    let s := count_started s in
    let s := sendCommand "players/all" [] s in
    let s := sendCommand "player_queues/all" [] s in
    set_phase (AwaitingLists (defaultPlayerId env)) s.

(** The [finally] block. The call [void pollState()] runs [pollState] up
    to its first [await] before the block ends. *)
Definition poll_finally (env : Env) (s : t) : t :=
  let s := set_phase Idle s in
  let s := count_finished s in
  let s := set_pollInFlight false s in
  if pollAgain s then
    let s := set_pollAgain false s in
    pollState env s
  else s.

(** The end of the [try] block. *)
Definition poll_publish (env : Env) (s : t) : t :=
  let s := emitPlayersAndState s in
  let s := emitStatus s in
  poll_finally env s.

(** [Promise.all] of the two lists settles. A result that is not an array
    is [None]. *)
Definition onListsSettled (env : Env)
    (r : Settled (option (list MAPlayer) * option (list MAQueue)))
    (s : t) : t :=
  match phase s with
  | AwaitingLists settings_defaultPlayerId =>
      match r with
      | Rejected reason =>
          let s := emitError "ma:poll" reason s in
          let s := emitStatus s in
          poll_finally env s
      | Fulfilled (players, queues) =>
          let players := default [] players in
          let queues := default [] queues in
          let s :=
            set_caches
              (pickSelectedPlayerId players (selectedPlayerId s)
                 settings_defaultPlayerId)
              players queues s in
          let selectedPlayer :=
            findPlayerById (playersCache s) (selectedPlayerId s) in
          let selectedQueue :=
            resolveQueueForPlayer (queuesCache s) selectedPlayer in
          match selectedQueue with
          | Some queue =>
              if JS.truthy (queue_id queue) then
                let s :=
                  sendCommand "player_queues/items"
                    [("queue_id", JStr (queue_id queue));
                     ("limit", JNum 25); ("offset", JNum 0)] s in
                set_phase AwaitingItems s
              else poll_publish env (set_queueItemsCache [] s)
          | None => poll_publish env (set_queueItemsCache [] s)
          end
      end
  | _ => s
  end.

(** The queue items arrive, or their fetch fails. *)
Definition onItemsSettled (env : Env) (r : Settled (option (list JSON)))
    (s : t) : t :=
  match phase s with
  | AwaitingItems =>
      let items :=
        match r with
        | Fulfilled (Some items) => items
        | _ => []
        end in
      poll_publish env (set_queueItemsCache items s)
  | _ => s
  end.

Definition schedulePollSoon (delayMs : Q) (s : t) : t :=
  let s := if scheduledPoll s then emit ClearTimeout s else s in
  emit (SetTimeout delayMs) (set_scheduledPoll true s).

(** The callback of the timer of [schedulePollSoon]. *)
Definition onScheduledPoll (env : Env) (s : t) : t :=
  if scheduledPoll s then pollState env (set_scheduledPoll false s) else s.

Inductive Event : Type :=
  | Trigger (env : Env)
  | ScheduledPollFired (env : Env)
  | SchedulePollSoon (delayMs : Q)
  | ListsSettled (env : Env)
      (r : Settled (option (list MAPlayer) * option (list MAQueue)))
  | ItemsSettled (env : Env) (r : Settled (option (list JSON))).

Definition step (s : t) (ev : Event) : t :=
  match ev with
  | Trigger env => pollState env s
  | ScheduledPollFired env => onScheduledPoll env s
  | SchedulePollSoon delayMs => schedulePollSoon delayMs s
  | ListsSettled env r => onListsSettled env r s
  | ItemsSettled env r => onItemsSettled env r s
  end.

Definition run (s : t) (evs : list Event) : t := foldl step s evs.

(** The replies that complete the cycle in flight: the two lists, then
    the queue items if the cycle asks for them. *)
Definition settle_cycle (env : Env)
    (lists : Settled (option (list MAPlayer) * option (list MAQueue)))
    (items : Settled (option (list JSON))) (s : t) : t :=
  run s [ListsSettled env lists; ItemsSettled env items].

End Reconciler.

(** * More JavaScript string primitives *)

Module Text.

(** [s.toLowerCase()], on the letters A to Z. *)
Definition toLowerCase_ascii (a : Ascii.ascii) : Ascii.ascii :=
  let n := Ascii.nat_of_ascii a in
  if (65 <=? n)%nat && (n <=? 90)%nat then Ascii.ascii_of_nat (n + 32) else a.

Fixpoint toLowerCase (s : string) : string :=
  match s with
  | EmptyString => EmptyString
  | String a s' => String (toLowerCase_ascii a) (toLowerCase s')
  end.

(** [s.startsWith(prefix)] and [s.endsWith(suffix)] *)
Definition startsWith (prefix s : string) : bool := String.prefix prefix s.

Definition endsWith (suffix s : string) : bool :=
  String.prefix (String.rev suffix) (String.rev s).

(** [s.slice(n)] *)
Fixpoint slice (n : nat) (s : string) : string :=
  match n, s with
  | S n, String _ s' => slice n s'
  | _, _ => s
  end.

(** [s.replace(pattern, replacement)] for a pattern that is a string:
    the first occurrence is replaced. *)
Fixpoint replace (pattern replacement s : string) {struct s} : string :=
  if String.prefix pattern s
  then replacement +:+ slice (String.length pattern) s
  else match s with
       | String a s' => String a (replace pattern replacement s')
       | EmptyString => EmptyString
       end.

(** What a regular expression of the form [/^c+/] or [/c+$/] removes:
    the characters of a class at the start, or at the end. *)
Fixpoint dropStart (class : Ascii.ascii -> bool) (s : string) : string :=
  match s with
  | String a s' => if class a then dropStart class s' else s
  | EmptyString => EmptyString
  end.

Definition dropEnd (class : Ascii.ascii -> bool) (s : string) : string :=
  String.rev (dropStart class (String.rev s)).

Definition is_slash (a : Ascii.ascii) : bool :=
  bool_decide (String a EmptyString = "/").

(** [/^(p1|p2|...)/i.test(s)] for prefixes in lower case. *)
Definition test_prefix_i (prefixes : list string) (s : string) : bool :=
  existsb (fun prefix => startsWith prefix (toLowerCase s)) prefixes.

End Text.

(** * The address of the server ([server/ma/client.ts]) *)

Module Url.
Import Text.

Definition normalizeBaseUrl (input : string) : string :=
  let trimmed := dropEnd is_slash (JS.trim input) in
  if negb (JS.truthy trimmed) then ""
  else if test_prefix_i ["http://"; "https://"] trimmed
          || test_prefix_i ["ws://"; "wss://"] trimmed
  then trimmed
  else "http://" +:+ trimmed.

Definition toWebSocketUrl (baseUrl : string) : string :=
  let wsUrl := baseUrl in
  let wsUrl :=
    if startsWith "https://" wsUrl then replace "https://" "wss://" wsUrl
    else wsUrl in
  let wsUrl :=
    if startsWith "http://" wsUrl then replace "http://" "ws://" wsUrl
    else wsUrl in
  let wsUrl := if negb (endsWith "/ws" wsUrl) then wsUrl +:+ "/ws" else wsUrl in
  replace "//ws" "/ws" wsUrl.

(** [setCredentials] of the client. *)
Definition setCredentials (baseUrl_ token : string) (c : Client.t) : Client.t :=
  let c :=
    {| Client.ws := Client.ws c;
       Client.baseUrl := normalizeBaseUrl baseUrl_;
       Client.authToken := Client.authToken c;
       Client.state := Client.state c;
       Client.message := Client.message c;
       Client.authenticated := Client.authenticated c;
       Client.serverInfo := Client.serverInfo c;
       Client.pending := Client.pending c;
       Client.connectPromise := Client.connectPromise c;
       Client.timers := Client.timers c;
       Client.settled := Client.settled c;
       Client.microtasks := Client.microtasks c;
       Client.next_handle := Client.next_handle c;
       Client.next_socket := Client.next_socket c;
       Client.trace := Client.trace c |} in
  Client.set_authToken (JS.trim token) c.

End Url.


(** * The request handlers of [server/index.ts]

    The functions of the module that serve the requests of the front end:
    reading a payload, choosing the player and the queue a request is
    about, the queue cache, and the [case]s of [handleSet] that send
    commands to the players. *)

Module Requests.
Import Reconciler.

(** ** Reading a payload *)

(** [asRecord(value)] for a value that may be [undefined]. *)
Definition asRecord (value : option JSON) : option Record_ :=
  match value with
  | Some value => asRecord value
  | None => None
  end.

Definition readString (record : option Record_) (key : string) : option string :=
  match record with
  | None => None
  | Some record =>
      match prop record key with
      | Some (JStr value) => if JS.truthy (JS.trim value) then Some value else None
      | _ => None
      end
  end.

Definition readNumber (record : option Record_) (key : string) : option Q :=
  match record with
  | None => None
  | Some record =>
      match prop record key with
      | Some (JNum value) =>
          if JS.Number_isFinite value then Some value else None
      | _ => None
      end
  end.

(** [normalizePlayerIdList(values)] for a value of type [unknown]. *)
Definition normalizePlayerIdList (values : option JSON) : list string :=
  match values with
  | Some (JArr values) =>
      List.map (fun value => match value with JStr s => JS.trim s | _ => "" end)
        (List.filter
           (fun value =>
              match value with
              | JStr s => (0 <? String.length (JS.trim s))%nat
              | _ => false
              end)
           values)
  | _ => []
  end.

(** [allowed.includes(value)] *)
Definition includes (allowed : list string) (value : string) : bool :=
  bool_decide (value ∈ allowed).


Definition parseTransportCommand (payload : option JSON) : option string :=
  let record := asRecord payload in
  let command := readString record "command" in
  let allowed := ["play"; "pause"; "play_pause"; "next"; "previous"; "stop"] in
  match command with
  | Some command => if includes allowed command then Some command else None
  | None => None
  end.

Definition parsePlayerId (payload : option JSON) : option string :=
  let record := asRecord payload in
  readString record "playerId".

Definition parseTargetPlayerId (payload : option JSON) : option string :=
  let record := asRecord payload in
  match readString record "targetPlayerId" with
  | Some id => Some id
  | None => readString record "playerId"
  end.

Definition parseDelta (payload : option JSON) : option Q :=
  let record := asRecord payload in
  readNumber record "delta".

Definition parseVolume (payload : option JSON) : option Q :=
  let record := asRecord payload in
  readNumber record "volume".

Definition parseVolumeScope (payload : option JSON) : VolumeControlScope :=
  let record := asRecord payload in
  let scope := readString record "scope" in
  if decide (scope = Some "group") then group else selected.

Definition parseVolumePlayerIds (payload : option JSON) : list string :=
  match asRecord payload with
  | None => []
  | Some record =>
      let single := readString (Some record) "playerId" in
      let multiple := normalizePlayerIdList (prop record "playerIds") in
      if (0 <? length multiple)%nat then multiple
      else match single with Some single => [single] | None => [] end
  end.

Definition parseMediaUri (payload : option JSON) : option string :=
  let record := asRecord payload in
  readString record "uri".

Definition parseShuffleEnabled (payload : option JSON) : option bool :=
  match asRecord payload with
  | None => None
  | Some record =>
      match prop record "shuffleEnabled" with
      | Some (JBool value) => Some value
      | _ => None
      end
  end.

Definition parseRepeatMode (payload : option JSON) : option string :=
  let record := asRecord payload in
  let value := Text.toLowerCase <$> readString record "repeatMode" in
  let allowed := ["off"; "one"; "all"] in
  match value with
  | Some value => if includes allowed value then Some value else None
  | None => None
  end.

(** ** The player and the queue of a request *)

(** [resolveControllingPlayer(selectedPlayerId) || findPlayerById(selectedPlayerId)] *)
Definition selectedController (s : t) : option MAPlayer :=
  match resolveControllingPlayer (playersCache s) (selectedPlayerId s) with
  | Some player => Some player
  | None => findPlayerById (playersCache s) (selectedPlayerId s)
  end.

Definition getTargetPlayerId (s : t) : Completion string :=
  let targetPlayer := selectedController s in
  match targetPlayer with
  | Some player =>
      if JS.truthy (player_id player) then Normal (player_id player)
      else Throw "No player selected."
  | None => Throw "No player selected."
  end.

Definition getTargetQueueId (s : t) : Completion string :=
  let selectedPlayer := selectedController s in
  let selectedQueue := resolveQueueForPlayer (queuesCache s) selectedPlayer in
  if JS.truthy_opt (queue_id <$> selectedQueue)
  then Normal (default "" (queue_id <$> selectedQueue))
  else if JS.truthy_opt (player_id <$> selectedPlayer)
  then Normal (default "" (player_id <$> selectedPlayer))
  else Throw "No queue available for selected player.".

Definition getSelectedQueue (s : t) : Completion MAQueue :=
  let selectedPlayer := selectedController s in
  let selectedQueue := resolveQueueForPlayer (queuesCache s) selectedPlayer in
  match selectedQueue with
  | None => Throw "No queue available for selected player."
  | Some queue => Normal queue
  end.

(** ** The queue cache *)

(** [{...old, ...queue}]. The spread copies the properties [queue] has
    of its own, whatever their value: [has key] tells whether [queue]
    has the property [key], also with the value [null] or [undefined],
    which the record shows as [None]. Such a property wins over the one
    of [old]; a property [queue] does not have is kept. [queue_id] is
    not optional: every queue has it. *)
Definition spread {A : Type} (present : bool) (old new : option A) : option A :=
  if present then new else old.

Definition merge (has : string -> bool) (old queue : MAQueue) : MAQueue :=
  {| queue_id := queue_id queue;
     queue_player_id :=
       spread (has "player_id") (queue_player_id old) (queue_player_id queue);
     queue_state :=
       spread (has "state") (queue_state old) (queue_state queue);
     shuffle_enabled :=
       spread (has "shuffle_enabled") (shuffle_enabled old)
         (shuffle_enabled queue);
     repeat_mode :=
       spread (has "repeat_mode") (repeat_mode old) (repeat_mode queue);
     elapsed_time :=
       spread (has "elapsed_time") (elapsed_time old) (elapsed_time queue);
     current_item :=
       spread (has "current_item") (current_item old) (current_item queue) |}.

(** The test of the [findIndex] of [upsertQueue]. *)
Definition same_queue (queue item : MAQueue) : bool :=
  if decide (queue_id item = queue_id queue) then true
  else if JS.truthy_opt (queue_player_id queue)
          && bool_decide (queue_player_id item = queue_player_id queue)
  then true
  else false.

(** [queuesCache.findIndex(test)] *)
Fixpoint findIndex {A : Type} (test : A -> bool) (items : list A) : option nat :=
  match items with
  | [] => None
  | item :: items =>
      if test item then Some 0%nat else S <$> findIndex test items
  end.

(** [upsertQueue] on the cache; [has] tells the properties the queue has
    of its own. *)
Definition upsert (has : string -> bool) (queue : MAQueue)
    (queues : list MAQueue) : list MAQueue :=
  match findIndex (same_queue queue) queues with
  | Some index =>
      match queues !! index with
      | Some old => <[index := merge has old queue]> queues
      | None => queues
      end
  | None => queues ++ [queue]
  end.

Definition upsertQueue (has : string -> bool) (queue : MAQueue) (s : t) : t :=
  set_caches (selectedPlayerId s) (playersCache s)
    (upsert has queue (queuesCache s)) s.

(** A player that is only known by its id: [{ player_id: playerId }]. *)
Definition bare_player (playerId : string) : MAPlayer :=
  {| player_id := playerId; display_name := None; available := None;
     powered := None; state := None; active_source := None;
     volume_level := None; volume_muted := None; group_members := None;
     synced_to := None; active_group := None |}.

(** [resolveQueueIdForPlayer] up to its [await]: the id of the cached
    queue, or the command that asks for the active queue. *)
Inductive QueueLookup : Type :=
  | Known (queueId : string)
  | Ask (cmd : Command).

Definition resolveQueueIdForPlayer (playerId : string) (s : t) : QueueLookup :=
  let cachedPlayer :=
    default (bare_player playerId)
      (findPlayerById (playersCache s) (Some playerId)) in
  let cachedQueue := resolveQueueForPlayer (queuesCache s) (Some cachedPlayer) in
  if JS.truthy_opt (queue_id <$> cachedQueue)
  then Known (default "" (queue_id <$> cachedQueue))
  else Ask {| command := "player_queues/get_active_queue";
              args := [("player_id", JStr playerId)] |}.

(** [resolveQueueIdForPlayer] after its [await]: the reply is the queue,
    or nothing; [has] tells the properties the reply has of its own. The
    object handed to [upsertQueue] has them all, and [player_id]. *)
Definition resolveQueueIdForPlayer_reply (playerId : string)
    (queue : option MAQueue) (has : string -> bool) (s : t)
    : Completion (string * t) :=
  match queue with
  | Some queue =>
      if negb (JS.truthy (JS.trim (queue_id queue)))
      then Throw ("No queue available for player: " ++ playerId)
      else
        let s :=
          upsertQueue
            (fun key => bool_decide (key = "player_id") || has key)
            {| queue_id := queue_id queue;
               queue_player_id :=
                 Some (if JS.truthy_opt (queue_player_id queue)
                       then default "" (queue_player_id queue)
                       else playerId);
               queue_state := queue_state queue;
               shuffle_enabled := shuffle_enabled queue;
               repeat_mode := repeat_mode queue;
               elapsed_time := elapsed_time queue;
               current_item := current_item queue |} s in
        Normal (queue_id queue, s)
  | None => Throw ("No queue available for player: " ++ playerId)
  end.

(** ** What is playing *)

(** Truthiness of a value of type [unknown]. *)
Definition truthy_value (value : option JSON) : bool :=
  match value with
  | None | Some JNull => false
  | Some (JBool b) => b
  | Some (JNum n) => negb (Qeq_bool n 0)
  | Some (JStr s) => JS.truthy s
  | Some (JArr _) | Some (JObj _) => true
  end.

(** [value?.key], and [value.key] for a value that is not null: a value
    that is not an object has none of the properties read here. *)
Definition member (value : option JSON) (key : string) : option JSON :=
  match value with
  | Some (JObj fields) => assoc key fields
  | _ => None
  end.

Fixpoint firstNonEmpty (values : list (option JSON)) : string :=
  match values with
  | [] => ""
  | value :: values =>
      match value with
      | Some (JStr s) =>
          if JS.truthy (JS.trim s) then s else firstNonEmpty values
      | _ => firstNonEmpty values
      end
  end.

(** [null] is [None]. *)
Definition extractImage (item : option JSON) : option JSON :=
  if negb (truthy_value item) then None
  else
    let itemImage := member item "image" in
    if truthy_value (member itemImage "url")
       || truthy_value (member itemImage "path")
    then itemImage
    else
      let mediaImage := member (member item "media_item") "image" in
      if truthy_value (member mediaImage "url")
         || truthy_value (member mediaImage "path")
      then mediaImage
      else None.

Definition extractImageUrl (item : option JSON) : option JSON :=
  let image := extractImage item in
  if negb (truthy_value image) then None
  else if truthy_value (member image "url") then member image "url"
  else if truthy_value (member image "path") then member image "path"
  else None.

Record NowPlayingSummary : Type := {
  title : string;
  artist : string;
  album : string;
  imageUrl : option JSON;
  imageProvider : option JSON;
  duration : option Q;
  position : option Q;
  isPlaying : bool
}.

Definition extractNowPlaying (queue : option MAQueue)
    : option NowPlayingSummary :=
  match queue with
  | None => None
  | Some queue =>
      let currentItem := current_item queue in
      if negb (truthy_value currentItem) then None
      else
        let media := member currentItem "media_item" in
        let title_ :=
          firstNonEmpty [member currentItem "name"; member media "name"] in
        let artist_ :=
          firstNonEmpty
            [member currentItem "artist_str"; member media "artist_str"] in
        let album_ := firstNonEmpty [member (member media "album") "name"] in
        let image := extractImage currentItem in
        Some
          {| title := title_;
             artist := artist_;
             album := album_;
             imageUrl := extractImageUrl currentItem;
             imageProvider :=
               if truthy_value (member image "provider")
               then member image "provider" else None;
             duration :=
               match member currentItem "duration" with
               | Some (JNum d) => Some d
               | _ => None
               end;
             position := elapsed_time queue;
             isPlaying :=
               bool_decide
                 (Text.toLowerCase
                    (if JS.truthy_opt (queue_state queue)
                     then default "" (queue_state queue) else "")
                  = "playing") |}
  end.

(** ** The image cache *)

Record CachedImage : Type := { dataUri : string; fetchedAt : Q }.

Definition IMAGE_CACHE_TTL_MS : Q := 5 * 60 * 1000.

(** [now - value.fetchedAt > IMAGE_CACHE_TTL_MS] *)
Definition expired (now : Q) (value : CachedImage) : bool :=
  negb (Qle_bool (now - fetchedAt value) IMAGE_CACHE_TTL_MS).

(** The loop of [pruneImageCache] over the entries of the map. *)
Fixpoint pruneImageCache_loop (entries : list (string * CachedImage))
    (now : Q) (imageCache : list (string * CachedImage))
    : list (string * CachedImage) :=
  match entries with
  | [] => imageCache
  | (key, value) :: entries =>
      let imageCache :=
        if expired now value then JS.Map_delete key imageCache
        else imageCache in
      pruneImageCache_loop entries now imageCache
  end.

Definition pruneImageCache (now : Q)
    (imageCache : list (string * CachedImage)) : list (string * CachedImage) :=
  pruneImageCache_loop imageCache now imageCache.

(** The start of the case ['ma:image'] of [handleGet]: the cache is
    pruned, then the entry of the key is served if it is younger than
    the time to live. *)
Definition cachedImage (now : Q) (cacheKey : string)
    (imageCache : list (string * CachedImage))
    : list (string * CachedImage) * option string :=
  let imageCache := pruneImageCache now imageCache in
  let cached := JS.Map_get cacheKey imageCache in
  match cached with
  | Some cached =>
      if negb (Qle_bool IMAGE_CACHE_TTL_MS (now - fetchedAt cached))
      then (imageCache, Some (dataUri cached))
      else (imageCache, None)
  | None => (imageCache, None)
  end.

(** ** Absolute volume *)

(** [setVolumeAbsolute] up to its [await]: one command per target, all
    sent before any reply. *)
Definition setVolumeAbsolute (volume : Q) (scope : VolumeControlScope)
    (explicitPlayerIds : list string) (s : t) : Completion t :=
  let volumeLevel := clamp (JS.Math_round volume) in
  match getVolumeTargetPlayerIds scope explicitPlayerIds s with
  | Throw error => Throw error
  | Normal targetPlayerIds =>
      Normal
        (foldl
           (fun s playerId =>
              sendCommand "players/cmd/volume_set"
                [("player_id", JStr playerId); ("volume_level", JNum volumeLevel)]
                s)
           s targetPlayerIds)
  end.

(** ** The cases of [handleSet] *)

(** A handler that runs: it has returned, or it waits for the promise of
    the command it has just sent and goes on, in the state of that
    moment, when the promise settles. *)
Inductive Handler : Type :=
  | Return (s : t)
  | Await (s : t) (next : Settled (option JSON) -> t -> Handler).

(** The [catch] of [handleSet]. *)
Definition failed (request error : string) (s : t) : Handler :=
  Return (emitError request error s).

(** [await maClient.sendCommand(name, arguments)], then [next], inside
    the [try] of the request. *)
Definition awaitCommand (request name : string)
    (arguments : list (string * JSON)) (next : t -> Handler) (s : t) : Handler :=
  Await (sendCommand name arguments s)
    (fun reply s =>
       match reply with
       | Fulfilled _ => next s
       | Rejected error => failed request error s
       end).

Definition selectPlayer (payload : option JSON) (s : t) : Handler :=
  let request := "ma:selectPlayer" in
  match parsePlayerId payload with
  | None => failed request "Missing playerId in request payload." s
  | Some playerId =>
      let exists_ :=
        existsb (fun player => bool_decide (player_id player = playerId))
          (playersCache s) in
      if negb exists_ then failed request ("Player not found: " ++ playerId) s
      else if decide (Some playerId = selectedPlayerId s)
      then Return (schedulePollSoon 0 s)
      else
        let s := set_caches (Some playerId) (playersCache s) (queuesCache s) s in
        let s := set_queueItemsCache [] s in
        let s := emitPlayersAndState s in
        Return (schedulePollSoon 0 s)
  end.

Definition transport (payload : option JSON) (s : t) : Handler :=
  let request := "ma:transport" in
  match parseTransportCommand payload with
  | None => failed request "Invalid transport command." s
  | Some command =>
      match getTargetPlayerId s with
      | Throw error => failed request error s
      | Normal playerId =>
          awaitCommand request ("players/cmd/" ++ command)
            [("player_id", JStr playerId)]
            (fun s => Return (schedulePollSoon 0 s)) s
      end
  end.

Definition setVolume (payload : option JSON) (s : t) : Handler :=
  let request := "ma:setVolume" in
  match parseVolume payload with
  | None => failed request "Missing numeric volume in payload." s
  | Some volume =>
      let scope := parseVolumeScope payload in
      let playerIds := parseVolumePlayerIds payload in
      match setVolumeAbsolute volume scope playerIds s with
      | Throw error => failed request error s
      | Normal s =>
          Await s
            (fun reply s =>
               match reply with
               | Fulfilled _ => Return (schedulePollSoon 250 s)
               | Rejected error => failed request error s
               end)
      end
  end.

Definition refresh (s : t) : Handler := Return (schedulePollSoon 0 s).

Definition playMedia (payload : option JSON) (s : t) : Handler :=
  let request := "ma:playMedia" in
  match parseMediaUri payload with
  | None => failed request "Missing media uri in payload." s
  | Some uri =>
      match getTargetQueueId s with
      | Throw error => failed request error s
      | Normal queueId =>
          awaitCommand request "player_queues/play_media"
            [("queue_id", JStr queueId); ("media", JStr uri)]
            (fun s => Return (schedulePollSoon 0 s)) s
      end
  end.

Definition setShuffle (payload : option JSON) (s : t) : Handler :=
  let request := "ma:setShuffle" in
  match parseShuffleEnabled payload with
  | None => failed request "Missing shuffleEnabled in payload." s
  | Some shuffleEnabled =>
      match getSelectedQueue s with
      | Throw error => failed request error s
      | Normal queue =>
          awaitCommand request "player_queues/shuffle"
            [("queue_id", JStr (queue_id queue));
             ("shuffle_enabled", JBool shuffleEnabled)]
            (fun s => Return (schedulePollSoon 0 s)) s
      end
  end.

Definition setRepeat (payload : option JSON) (s : t) : Handler :=
  let request := "ma:setRepeat" in
  match parseRepeatMode payload with
  | None => failed request "Missing repeatMode in payload." s
  | Some repeatMode =>
      match getSelectedQueue s with
      | Throw error => failed request error s
      | Normal queue =>
          awaitCommand request "player_queues/repeat"
            [("queue_id", JStr (queue_id queue));
             ("repeat_mode", JStr repeatMode)]
            (fun s => Return (schedulePollSoon 0 s)) s
      end
  end.

(** The last statements of ['ma:groupPlayer'] and ['ma:ungroupAll']. *)
Definition selectLeader (leaderPlayerId : string) (s : t) : Handler :=
  let s :=
    set_caches (Some leaderPlayerId) (playersCache s) (queuesCache s) s in
  let s := emitPlayersAndState s in
  Return (schedulePollSoon 0 s).

Definition groupPlayer (payload : option JSON) (s : t) : Handler :=
  let request := "ma:groupPlayer" in
  match getTargetPlayerId s with
  | Throw error => failed request error s
  | Normal leaderPlayerId =>
      match parseTargetPlayerId payload with
      | None => failed request "Missing targetPlayerId in payload." s
      | Some targetPlayerId =>
          if decide (targetPlayerId = leaderPlayerId)
          then failed request "Cannot join a player to itself." s
          else
            let targetPlayer :=
              findPlayerById (playersCache s) (Some targetPlayerId) in
            let existingParentId := targetPlayer ≫= parentId_of in
            let join :=
              awaitCommand request "players/cmd/set_members"
                [("target_player", JStr leaderPlayerId);
                 ("player_ids_to_add", JArr [JStr targetPlayerId])]
                (selectLeader leaderPlayerId) in
            match existingParentId with
            | Some parentId =>
                if decide (parentId = leaderPlayerId) then join s
                else
                  awaitCommand request "players/cmd/ungroup"
                    [("player_id", JStr targetPlayerId)] join s
            | None => join s
            end
      end
  end.

Definition ungroupPlayer (payload : option JSON) (s : t) : Handler :=
  let request := "ma:ungroupPlayer" in
  let playerId :=
    match parseTargetPlayerId payload with
    | Some playerId => Normal playerId
    | None => getTargetPlayerId s
    end in
  match playerId with
  | Throw error => failed request error s
  | Normal playerId =>
      awaitCommand request "players/cmd/ungroup"
        [("player_id", JStr playerId)]
        (fun s => Return (schedulePollSoon 0 s)) s
  end.

Definition ungroupAll (s : t) : Handler :=
  let request := "ma:ungroupAll" in
  match getTargetPlayerId s with
  | Throw error => failed request error s
  | Normal leaderPlayerId =>
      let leaderPlayer :=
        findPlayerById (playersCache s) (Some leaderPlayerId) in
      let memberIds :=
        List.filter (fun playerId => negb (bool_decide (playerId = leaderPlayerId)))
          (Reconciler.normalizePlayerIdList (leaderPlayer ≫= group_members)) in
      match memberIds with
      | [] => Return (schedulePollSoon 0 s)
      | _ =>
          awaitCommand request "players/cmd/set_members"
            [("target_player", JStr leaderPlayerId);
             ("player_ids_to_remove", JArr (JStr <$> memberIds))]
            (selectLeader leaderPlayerId) s
      end
  end.

(** The [switch] of [handleSet]. The cases that need the settings, the
    connection of the client or the reply of the server as a queue
    (['ma:connect'], ['ma:startProviderAuth'], ['ma:disconnect'],
    ['ma:adjustVolume'] and ['ma:transferQueue']) are not modelled: for
    them the result is [None]. *)
Definition handleSet (request : string) (payload : option JSON) (s : t)
    : option Handler :=
  if decide (request = "ma:connect") then None
  else if decide (request = "ma:startProviderAuth") then None
  else if decide (request = "ma:disconnect") then None
  else if decide (request = "ma:selectPlayer") then Some (selectPlayer payload s)
  else if decide (request = "ma:transport") then Some (transport payload s)
  else if decide (request = "ma:adjustVolume") then None
  else if decide (request = "ma:setVolume") then Some (setVolume payload s)
  else if decide (request = "ma:refresh") then Some (refresh s)
  else if decide (request = "ma:playMedia") then Some (playMedia payload s)
  else if decide (request = "ma:setShuffle") then Some (setShuffle payload s)
  else if decide (request = "ma:setRepeat") then Some (setRepeat payload s)
  else if decide (request = "ma:groupPlayer") then Some (groupPlayer payload s)
  else if decide (request = "ma:ungroupPlayer")
  then Some (ungroupPlayer payload s)
  else if decide (request = "ma:ungroupAll") then Some (ungroupAll s)
  else if decide (request = "ma:transferQueue") then None
  else Some (Return s).

(** The handler with the replies of the server, when nothing else runs
    while it is suspended: each [Await] takes the next reply, in the
    state the handler has left. With no reply left the handler stays
    suspended. *)
Fixpoint finish (replies : list (Settled (option JSON))) (h : Handler)
    {struct h} : t :=
  match h with
  | Return s => s
  | Await s next =>
      match replies with
      | [] => s
      | reply :: replies => finish replies (next reply s)
      end
  end.

(** Whether the handler is still suspended after these replies. *)
Fixpoint waiting (replies : list (Settled (option JSON))) (h : Handler)
    {struct h} : bool :=
  match h with
  | Return _ => false
  | Await s next =>
      match replies with
      | [] => true
      | reply :: replies => waiting replies (next reply s)
      end
  end.

End Requests.

(** * Properties *)

Local Open Scope nat_scope.

(** ** The ordered map *)

Section MapFacts.
Context {V : Type}.
Implicit Types (m : list (string * V)) (k : string) (v : V).

Lemma Map_get_set m k k' v :
  JS.Map_get k' (JS.Map_set k v m)
  = if decide (k = k') then Some v else JS.Map_get k' m.
Proof.
  induction m as [|[k0 v0] m IH]; simpl.
  - done.
  - destruct (decide (k0 = k)), (decide (k = k')); simplify_eq/=;
      repeat case_decide; simplify_eq/=; try done.
    all: rewrite IH; by case_decide.
Qed.

Lemma Map_get_None m k : JS.Map_get k m = None ↔ k ∉ m.*1.
Proof.
  induction m as [|[k0 v0] m IH]; simpl.
  - split; [intros _; apply not_elem_of_nil | done].
  - case_decide; subst.
    + split; [done | intros H; exfalso; apply H; left].
    + rewrite IH, not_elem_of_cons. split; [by split|by intros [_ ?]].
Qed.

Lemma Map_get_delete_ne m k k' :
  k ≠ k' → JS.Map_get k' (JS.Map_delete k m) = JS.Map_get k' m.
Proof.
  intros Hne. induction m as [|[k0 v0] m IH]; simpl; [done|].
  destruct (decide (k0 = k)); simplify_eq/=; repeat case_decide;
    simplify_eq/=; done.
Qed.

Lemma Map_delete_keys m k : JS.Map_delete k m ⊆ m.
Proof.
  induction m as [|[k0 v0] m IH]; simpl; [done|].
  case_decide; [apply list_subseteq_cons, reflexivity|].
  intros x. rewrite !elem_of_cons. intros [->|?]; [by left|right; by apply IH].
Qed.

Lemma Map_delete_NoDup m k : NoDup m.*1 → NoDup (JS.Map_delete k m).*1.
Proof.
  induction m as [|[k0 v0] m IH]; simpl; [done|].
  rewrite NoDup_cons. intros [Hk Hm]. case_decide; [done|]. simpl.
  apply NoDup_cons. split; [|by apply IH].
  intros Hin. apply Hk. apply list_elem_of_fmap in Hin as [[k1 v1] [-> Hin]].
  apply list_elem_of_fmap. exists (k1, v1). split; [done|].
  by apply Map_delete_keys in Hin.
Qed.

Lemma Map_get_delete_eq m k :
  NoDup m.*1 → JS.Map_get k (JS.Map_delete k m) = None.
Proof.
  induction m as [|[k0 v0] m IH]; simpl; [done|].
  rewrite NoDup_cons. intros [Hk Hm]. case_decide; subst.
  - by apply Map_get_None.
  - simpl. case_decide; [done|]. by apply IH.
Qed.

Lemma Map_set_keys m k v :
  (JS.Map_set k v m).*1 = if decide (k ∈ m.*1) then m.*1 else m.*1 ++ [k].
Proof.
  induction m as [|[k0 v0] m IH]; csimpl.
  - destruct (decide (k ∈ [])) as [Hin|]; [by apply not_elem_of_nil in Hin|done].
  - destruct (decide (k0 = k)) as [->|Hne]; csimpl.
    + destruct (decide (k ∈ k :: m.*1)) as [|Hn]; [done|].
      exfalso. apply Hn. left.
    + rewrite IH.
      destruct (decide (k ∈ m.*1)) as [Hin|Hn];
        destruct (decide (k ∈ k0 :: m.*1)) as [Hin'|Hn']; try done.
      * exfalso. apply Hn'. by right.
      * apply elem_of_cons in Hin' as [->|?]; done.
Qed.

Lemma Map_set_NoDup m k v : NoDup m.*1 → NoDup (JS.Map_set k v m).*1.
Proof.
  intros Hm. rewrite Map_set_keys. case_decide; [done|].
  apply NoDup_app. split_and!; [done| |apply NoDup_singleton].
  intros x Hx. rewrite list_elem_of_singleton. by intros ->.
Qed.

Lemma Map_delete_set m k v : JS.Map_delete k (JS.Map_set k v m) = JS.Map_delete k m.
Proof.
  induction m as [|[k0 v0] m IH]; simpl.
  - by case_decide.
  - destruct (decide (k0 = k)); simplify_eq/=; case_decide; simplify_eq/=.
    + done.
    + by rewrite IH.
Qed.
End MapFacts.

(** ** The client *)

Section ClientFacts.
Import Client.

Variable JSON_parse : string -> option JSON.

Implicit Types (c : Client.t) (h : nat) (p : Promise) (e : PendingRequest).

(** *** Sending a command *)

(** C8. [sendCommand] throws "not connected" and leaves the client as it
    was (no timer, no table entry, no frame written) when there is no
    socket or the socket is not [OPEN]. When the socket is open it stores,
    under the message id it drew, an entry with an empty accumulator and a
    timer of 12000 ms, and only then writes the frame. The frame carries
    the command and that id, and the arguments, whole, when they are given
    and not empty: [sendCommand('players/get', {player_id: 'p1'})] writes
    [args: {player_id: 'p1'}]. *)
Theorem sendCommand_requires_open_socket uuid w command_ args_ c :
  match ws c with
  | None =>
      sendCommand uuid w command_ args_ c
      = Throw "Not connected to Music Assistant." c
  | Some socket =>
      if decide (readyState socket = OPEN) then
        ∃ c',
          sendCommand uuid w command_ args_ c = Normal c'
          ∧ let h := next_handle c in
            let p := {| p_id := h; p_waiter := w |} in
            pending c'
            = JS.Map_set uuid
                {| settle := p; timeout := h; partialResults := [] |}
                (pending c)
            ∧ timers c'
              = <[h := {| t_messageId := uuid; t_command := command_;
                          t_reject := p |}]> (timers c)
            ∧ trace c'
              = trace c
                ++ [SetTimeout h 12000;
                    SocketSend (sock socket)
                      (JObj match args_ with
                            | None | Some [] =>
                                [("command", JStr command_);
                                 ("message_id", JStr uuid)]
                            | Some (entry :: rest) =>
                                [("command", JStr command_);
                                 ("message_id", JStr uuid);
                                 ("args", JObj (entry :: rest))]
                            end)]
      else
        sendCommand uuid w command_ args_ c
        = Throw "Not connected to Music Assistant." c
  end
  ∧ ∀ socket,
      ws c = Some socket → readyState socket = OPEN →
      ∃ c',
        sendCommand uuid w "players/get" (Some [("player_id", JStr "p1")]) c
        = Normal c'
        ∧ last (trace c')
          = Some (SocketSend (sock socket)
                    (JObj [("command", JStr "players/get");
                           ("message_id", JStr uuid);
                           ("args", JObj [("player_id", JStr "p1")])])).
Proof.
  split.
  - unfold sendCommand. destruct (ws c) as [socket|]; [|done].
    destruct (decide (readyState socket = OPEN)) as [Hopen|]; [|done].
    eexists. split; [done|]. cbn. split_and!; [done..|].
    rewrite <-app_assoc. by destruct args_ as [[|entry args_]|].
  - intros socket Hws Hopen. unfold sendCommand. rewrite Hws.
    rewrite decide_True by done. eexists. split; [done|]. cbn.
    by rewrite last_snoc.
Qed.

(** *** Result frames *)

Definition success_frame (id : string) (partial : bool) (payload : option JSON)
    : MAResultMessage :=
  MAResultSuccessMessage id payload partial.

(** The frames of one command, handled in arrival order. *)
Definition feed (frames : list MAResultMessage) (c : Client.t) : Client.t :=
  foldl (fun c frame => handleResultMessage frame c) c frames.

(** What a partial payload adds to the accumulator. *)
Definition partial_items (payload : option JSON) : list JSON :=
  default [] (asArray payload).

(** The value the request resolves with, given the accumulator. *)
Definition final_value (acc : list JSON) (payload : option JSON) : option JSON :=
  match acc, asArray payload with
  | _ :: _, Some items => Some (JArr (acc ++ items))
  | _, _ => payload
  end.

Lemma feed_cons frame frames c :
  feed (frame :: frames) c = feed frames (handleResultMessage frame c).
Proof. done. Qed.

Lemma feed_partials id e c (payloads : list (option JSON)) :
  JS.Map_get id (pending c) = Some e →
  let c1 := feed (success_frame id true <$> payloads) c in
  trace c1 = trace c ∧ timers c1 = timers c ∧ settled c1 = settled c
  ∧ JS.Map_get id (pending c1)
    = Some {| settle := settle e; timeout := timeout e;
              partialResults :=
                partialResults e ++ concat (partial_items <$> payloads) |}
  ∧ JS.Map_delete id (pending c1) = JS.Map_delete id (pending c).
Proof.
  revert c e. induction payloads as [|payload payloads IH]; intros c e Hget.
  - simpl. rewrite app_nil_r. by destruct e.
  - rewrite fmap_cons, feed_cons.
    set (c0 := handleResultMessage (success_frame id true payload) c).
    assert (trace c0 = trace c ∧ timers c0 = timers c ∧ settled c0 = settled c
            ∧ JS.Map_get id (pending c0)
              = Some {| settle := settle e; timeout := timeout e;
                        partialResults := partialResults e ++ partial_items payload |}
            ∧ JS.Map_delete id (pending c0) = JS.Map_delete id (pending c))
      as (Htr & Htm & Hst & Hget0 & Hdel).
    { subst c0. unfold handleResultMessage, success_frame, partial_items. simpl.
      rewrite Hget. destruct (asArray payload) as [items|]; simpl.
      - rewrite Map_get_set, decide_True by done.
        by rewrite Map_delete_set.
      - rewrite app_nil_r. by destruct e. }
    destruct (IH c0 _ Hget0) as (Htr' & Htm' & Hst' & Hget' & Hdel').
    cbn zeta in *. cbn [partialResults settle timeout] in Hget'.
    rewrite Htr', Htm', Hst', Hget', Hdel'.
    split_and!; try done. by rewrite <-app_assoc.
Qed.

(** C2 (as amended). A partial frame never completes the request: it
    leaves the trace, the timers and the entry's continuation alone, and
    appends its payload's items to the accumulator in arrival order when
    that payload is an array (otherwise it adds nothing). The first
    non-partial frame cancels the timer, removes the entry and resolves
    the request with the accumulator followed by the final payload's
    items when the accumulator is non-empty and the final payload is an
    array, and with the final payload alone otherwise. *)
Theorem partial_results_accumulate id e c
    (partials : list (option JSON)) (final : option JSON) :
  JS.Map_get id (pending c) = Some e →
  let acc := partialResults e ++ concat (partial_items <$> partials) in
  let c1 := feed (success_frame id true <$> partials) c in
  let c2 := handleResultMessage (success_frame id false final) c1 in
  (trace c1 = trace c ∧ timers c1 = timers c
   ∧ JS.Map_get id (pending c1)
     = Some {| settle := settle e; timeout := timeout e;
               partialResults := acc |})
  ∧ trace c2
    = trace c ++ [ClearTimeout (timeout e);
                  Resolve (p_id (settle e)) (final_value acc final)]
  ∧ pending c2 = JS.Map_delete id (pending c).
Proof.
  intros Hget acc c1 c2.
  destruct (feed_partials id e c partials Hget)
    as (Htr & Htm & Hst & Hget1 & Hdel).
  fold c1 in Htr, Htm, Hst, Hget1, Hdel. fold acc in Hget1.
  split; [done|].
  subst c2. unfold handleResultMessage, success_frame. simpl.
  rewrite Hget1. simpl. unfold final_value, settle_promise.
  destruct acc as [|a acc'], (asArray final) as [items|]; simpl;
    case_decide; simpl; rewrite ?Htr, ?Hdel, <-?app_assoc; done.
Qed.

(** C9. When the payload of a result frame is not an array: a partial
    frame changes nothing at all (the accumulator included), and a
    non-partial frame resolves the request with that payload alone,
    whatever the accumulator holds; the accumulated items appear nowhere
    in the resolved value. *)
Theorem non_array_payloads id e c (payload : option JSON) :
  JS.Map_get id (pending c) = Some e →
  isArray payload = false →
  handleResultMessage (success_frame id true payload) c = c
  ∧ let c' := handleResultMessage (success_frame id false payload) c in
    trace c'
    = trace c ++ [ClearTimeout (timeout e);
                  Resolve (p_id (settle e)) payload]
    ∧ pending c' = JS.Map_delete id (pending c).
Proof.
  unfold isArray. intros Hget Harr.
  destruct (asArray payload) as [items|] eqn:Hitems; [done|].
  unfold handleResultMessage, success_frame. simpl. rewrite Hget, Hitems.
  split; [done|]. unfold settle_promise. simpl.
  destruct (partialResults e); case_decide; simpl; rewrite <-?app_assoc; done.
Qed.

(** *** The handshake *)

Lemma Qle_bool_28_lt (v : Q) : (v < 28)%Q → Qle_bool 28 v = false.
Proof.
  intros Hlt. destruct (Qle_bool 28 v) eqn:Hle; [|done].
  apply Qle_bool_iff in Hle. by apply Qlt_not_le in Hlt.
Qed.

Lemma Qle_bool_28_le (v : Q) : (28 <= v)%Q → Qle_bool 28 v = true.
Proof. apply Qle_bool_iff. Qed.

(** C3. On server-info with a schema version below 28 the session becomes
    [Authenticated] at once and the only effect is the status broadcast
    (no frame is written, no request is registered). With a schema
    version of 28 or more and no token the state is [Connected], and the
    status snapshot has [authRequired = true] and [authenticated = false];
    again nothing is sent. *)
Theorem handleServerInfo_auth_gate info uuid c :
  let c' := handleServerInfo info uuid c in
  ((schema_version info < 28)%Q →
     state c' = Authenticated
     ∧ authenticated c' = true
     ∧ trace c' = trace c ++ [StatusChange (getStatus c')]
     ∧ pending c' = pending c)
  ∧ ((28 <= schema_version info)%Q → authToken c = "" →
       state c' = Connected
       ∧ MAStatusSnapshot.state (getStatus c') = Connected
       ∧ MAStatusSnapshot.authRequired (getStatus c') = true
       ∧ MAStatusSnapshot.authenticated (getStatus c') = false
       ∧ trace c' = trace c ++ [StatusChange (getStatus c')]
       ∧ pending c' = pending c).
Proof.
  unfold handleServerInfo. split.
  - intros Hlt. rewrite (Qle_bool_28_lt _ Hlt). by cbn.
  - intros Hle Htoken. rewrite (Qle_bool_28_le _ Hle). cbn.
    rewrite Htoken. cbn. rewrite (Qle_bool_28_le _ Hle). done.
Qed.

(** *** Classification of incoming frames *)

(** The three shapes, in the words of the specification. *)
Definition has_string (r : Record_) (key : string) : bool :=
  match prop r key with Some (JStr _) => true | _ => false end.

Definition has_number (r : Record_) (key : string) : bool :=
  match prop r key with Some (JNum _) => true | _ => false end.

Definition server_info_shape (r : Record_) : bool :=
  has_string r "server_id" && has_string r "server_version"
  && has_number r "schema_version".

Definition event_shape (r : Record_) : bool := has_string r "event".

Definition result_shape (r : Record_) : bool := has_string r "message_id".

Lemma parseServerInfo_shape r :
  if server_info_shape r then is_Some (parseServerInfo r)
  else parseServerInfo r = None.
Proof.
  unfold server_info_shape, has_string, has_number, parseServerInfo.
  destruct (prop r "server_id") as [[]|]; simpl; try done;
    destruct (prop r "server_version") as [[]|]; simpl; try done;
    destruct (prop r "schema_version") as [[]|]; simpl; done.
Qed.

Lemma parseEventMessage_shape r :
  if event_shape r then is_Some (parseEventMessage r)
  else parseEventMessage r = None.
Proof.
  unfold event_shape, has_string, parseEventMessage.
  destruct (prop r "event") as [[]|]; simpl; done.
Qed.

Lemma parseResultMessage_shape r :
  if result_shape r then is_Some (parseResultMessage r)
  else parseResultMessage r = None.
Proof.
  unfold result_shape, has_string, parseResultMessage.
  destruct (prop r "message_id") as [[]|]; simpl; try done.
  destruct (prop r "error_code") as [[]|]; simpl; done.
Qed.

(** What [handleMessage] does with a parsed object. *)
Definition dispatched (r : Record_) (uuid : string) (c c' : Client.t) : Prop :=
  if server_info_shape r then
    ∃ info, parseServerInfo r = Some info ∧ c' = handleServerInfo info uuid c
  else if event_shape r then
    ∃ ev, parseEventMessage r = Some ev ∧ c' = deliver ev c
  else if result_shape r then
    ∃ msg, parseResultMessage r = Some msg ∧ c' = handleResultMessage msg c
  else c' = c.

(** C7. A frame that [JSON.parse] rejects, or that parses to something
    other than an object, leaves the client unchanged. A parsed object is
    tested for the server-info shape first, then for the event shape, then
    for the result shape, and goes to the handler of the first shape it
    has, and to that one only; an object with none of the shapes leaves
    the client unchanged. *)
Theorem handleMessage_classification rawText uuid c :
  match JSON_parse rawText with
  | None => handleMessage JSON_parse rawText uuid c = c
  | Some (JObj fields) =>
      dispatched (RObj fields) uuid c (handleMessage JSON_parse rawText uuid c)
  | Some _ => handleMessage JSON_parse rawText uuid c = c
  end.
Proof.
  unfold handleMessage.
  destruct (JSON_parse rawText) as [[| | | |items|fields]|]; try done.
  simpl asRecord. cbv iota. unfold dispatched.
  pose proof (parseServerInfo_shape (RObj fields)) as Hinfo.
  pose proof (parseEventMessage_shape (RObj fields)) as Hev.
  pose proof (parseResultMessage_shape (RObj fields)) as Hres.
  destruct (server_info_shape (RObj fields)).
  { destruct Hinfo as [info ->]. by exists info. }
  rewrite Hinfo. destruct (event_shape (RObj fields)).
  { destruct Hev as [ev ->]. by exists ev. }
  rewrite Hev. destruct (result_shape (RObj fields)).
  { destruct Hres as [msg ->]. by exists msg. }
  by rewrite Hres.
Qed.

(** *** Settlement of pending requests *)

(** The calls of [resolve] or [reject] of promise [h] in a trace. *)
Definition settles (h : nat) (eff : Effect) : bool :=
  match eff with
  | Resolve p _ | Reject p _ => bool_decide (p = h)
  | _ => false
  end.

Fixpoint settlements (h : nat) (tr : list Effect) : nat :=
  match tr with
  | [] => 0
  | eff :: tr => (if settles h eff then 1 else 0) + settlements h tr
  end.

Lemma settlements_app h tr1 tr2 :
  settlements h (tr1 ++ tr2) = settlements h tr1 + settlements h tr2.
Proof. induction tr1 as [|eff tr1 IH]; simpl; [done|]. rewrite IH. lia. Qed.

(** The request of handle [h] is outstanding: its entry is in the table,
    its timer is armed and nothing has settled it. *)
Definition outstanding (c : Client.t) (h : nat) : Prop :=
  (∃ id e, JS.Map_get id (pending c) = Some e ∧ timeout e = h)
  ∧ is_Some (timers c !! h)
  ∧ settlements h (trace c) = 0.

(** The request of handle [h] was settled exactly once, its entry is gone
    and its timer is not armed. *)
Definition settled_once (c : Client.t) (h : nat) : Prop :=
  (∀ id e, JS.Map_get id (pending c) = Some e → timeout e ≠ h)
  ∧ timers c !! h = None
  ∧ settlements h (trace c) = 1.

(** The invariant that ties the table, the timers and the trace. *)
Record table_ok (c : Client.t) : Prop := {
  ok_keys : NoDup (pending c).*1;
  ok_entry : ∀ id e,
    JS.Map_get id (pending c) = Some e →
    ∃ tm, timers c !! timeout e = Some tm ∧ t_messageId tm = id
          ∧ t_reject tm = settle e ∧ p_id (settle e) = timeout e;
  ok_timer : ∀ h tm,
    timers c !! h = Some tm →
    ∃ e, JS.Map_get (t_messageId tm) (pending c) = Some e ∧ timeout e = h;
  ok_handle : ∀ h,
    (is_Some (timers c !! h) ∧ (h < next_handle c)%nat
     ∧ settlements h (trace c) = 0 ∧ h ∉ settled c)
    ∨ (timers c !! h = None ∧ (h < next_handle c)%nat
       ∧ settlements h (trace c) = 1 ∧ h ∈ settled c)
    ∨ (timers c !! h = None ∧ (next_handle c ≤ h)%nat
       ∧ settlements h (trace c) = 0 ∧ h ∉ settled c)
}.

(** Two states with the same table, timers and settlements. *)
Record same_table (c c' : Client.t) : Prop := {
  same_pending : pending c' = pending c;
  same_timers : timers c' = timers c;
  same_settled : settled c' = settled c;
  same_next : next_handle c' = next_handle c;
  same_count : ∀ h, settlements h (trace c') = settlements h (trace c)
}.

Lemma same_table_refl c : same_table c c.
Proof. by split. Qed.

Lemma same_table_trans c1 c2 c3 :
  same_table c1 c2 → same_table c2 c3 → same_table c1 c3.
Proof.
  intros [] []. split; congruence.
Qed.

Lemma table_ok_same c c' : table_ok c → same_table c c' → table_ok c'.
Proof.
  intros [Hk He Ht Hh] [Hp Htm Hs Hn Hc]. split.
  - by rewrite Hp.
  - intros id e. rewrite Hp, Htm. apply He.
  - intros h tm. rewrite Hp, Htm. apply Ht.
  - intros h. rewrite Htm, Hs, Hn, Hc. apply Hh.
Qed.

Lemma same_table_emit eff c :
  (∀ h, settles h eff = false) → same_table c (emit eff c).
Proof.
  intros Heff. split; try done. intros h. cbn.
  rewrite settlements_app. simpl. rewrite Heff. lia.
Qed.

Lemma same_table_updateStatus st msg auth c :
  same_table c (updateStatus st msg auth c).
Proof.
  unfold updateStatus.
  eapply same_table_trans; [|by apply same_table_emit].
  destruct auth; by split.
Qed.

Lemma same_table_continue p o c : same_table c (continue_ p o c).
Proof.
  unfold continue_. destruct (p_waiter p) as [|[] token], o;
    try apply same_table_refl.
  all: eapply same_table_trans; [|apply same_table_updateStatus]; by split.
Qed.

Lemma same_table_run_reactions jobs c : same_table c (run_reactions jobs c).
Proof.
  revert c. induction jobs as [|[p o] jobs IH]; intros c; simpl.
  - apply same_table_refl.
  - eapply same_table_trans; [apply same_table_continue|apply IH].
Qed.

Lemma same_table_drain c : same_table c (drain c).
Proof.
  unfold drain. eapply same_table_trans; [|apply same_table_run_reactions].
  by split.
Qed.

(** Completing the request of entry [e]: the entry leaves the table, its
    timer is disarmed and there is one more settlement of its promise. *)
Record completes (id : string) (e : PendingRequest) (c c' : Client.t) : Prop := {
  done_pending : pending c' = JS.Map_delete id (pending c);
  done_timers : timers c' = delete (timeout e) (timers c);
  done_settled : settled c' = {[timeout e]} ∪ settled c;
  done_next : next_handle c' = next_handle c;
  done_count : ∀ h,
    settlements h (trace c')
    = settlements h (trace c) + if decide (h = timeout e) then 1 else 0
}.

Lemma table_ok_completes id e c c' :
  table_ok c → JS.Map_get id (pending c) = Some e → completes id e c c' →
  table_ok c'.
Proof.
  intros [Hk He Ht Hh] Hget [Hp Htm Hs Hn Hc].
  destruct (He _ _ Hget) as (tm & Htimer & Hid & Hrej & Hpid).
  split.
  - rewrite Hp. by apply Map_delete_NoDup.
  - intros id' e'. rewrite Hp, Htm. intros Hget'.
    destruct (decide (id = id')) as [<-|Hne].
    { by rewrite Map_get_delete_eq in Hget'. }
    rewrite Map_get_delete_ne in Hget' by done.
    destruct (He _ _ Hget') as (tm' & Htimer' & Hid' & Hrej' & Hpid').
    exists tm'. split_and!; try done.
    rewrite lookup_delete_ne; [done|]. intros Heq.
    rewrite Heq, Htimer' in Htimer. congruence.
  - intros h tm'. rewrite Hp, Htm. intros Hlook.
    apply lookup_delete_Some in Hlook as [Hne Hlook].
    destruct (Ht _ _ Hlook) as (e' & Hget' & Htime').
    exists e'. split; [|done].
    rewrite Map_get_delete_ne; [done|]. intros Heq.
    rewrite <-Heq, Hget in Hget'. congruence.
  - intros h. rewrite Htm, Hs, Hn, Hc.
    destruct (decide (h = timeout e)) as [->|Hne].
    + rewrite lookup_delete_eq. right; left.
      destruct (Hh (timeout e)) as [(_ & Hlt & Hcnt & _)|[(Hnone & _)|(Hnone & _)]];
        [|congruence..].
      split_and!; [done|done|lia|set_solver].
    + rewrite lookup_delete_ne by done. rewrite Nat.add_0_r.
      destruct (Hh h) as [(?&?&?&?)|[(?&?&?&?)|(?&?&?&?)]];
        [left|right; left|right; right]; split_and!; try done; set_solver.
Qed.

Lemma settle_promise_fresh p o c :
  p_id p ∉ settled c →
  let c' := settle_promise p o c in
  pending c' = pending c ∧ timers c' = timers c
  ∧ settled c' = {[p_id p]} ∪ settled c
  ∧ next_handle c' = next_handle c
  ∧ ∀ h, settlements h (trace c')
         = settlements h (trace c) + if decide (h = p_id p) then 1 else 0.
Proof.
  intros Hfresh. unfold settle_promise. cbn. rewrite decide_False by done.
  cbn. split_and!; try done. intros h. rewrite settlements_app.
  destruct o; simpl; unfold bool_decide;
    destruct (decide_rel eq (p_id p) h), (decide (h = p_id p)); simpl;
    congruence || lia.
Qed.

Lemma entry_unsettled id e c :
  table_ok c → JS.Map_get id (pending c) = Some e →
  p_id (settle e) = timeout e ∧ timeout e ∉ settled c.
Proof.
  intros [Hk He Ht Hh] Hget.
  destruct (He _ _ Hget) as (tm & Htimer & _ & _ & Hpid). split; [done|].
  destruct (Hh (timeout e)) as [(_&_&_&?)|[(Hnone&_)|(Hnone&_)]];
    [done|congruence..].
Qed.

(** Disarm the timer, drop the entry, settle: in this or another order. *)
Lemma completes_intro id e o c c0 :
  table_ok c → JS.Map_get id (pending c) = Some e →
  pending c0 = JS.Map_delete id (pending c) →
  timers c0 = delete (timeout e) (timers c) →
  settled c0 = settled c →
  next_handle c0 = next_handle c →
  (∀ h, settlements h (trace c0) = settlements h (trace c)) →
  completes id e c (settle_promise (settle e) o c0).
Proof.
  intros Hok Hget Hp Htm Hs Hn Hc.
  destruct (entry_unsettled _ _ _ Hok Hget) as [Hpid Hfresh].
  destruct (settle_promise_fresh (settle e) o c0) as (Hp' & Htm' & Hs' & Hn' & Hc').
  { by rewrite Hs, Hpid. }
  split.
  - by rewrite Hp'.
  - by rewrite Htm'.
  - by rewrite Hs', Hs, Hpid.
  - by rewrite Hn'.
  - intros h. by rewrite Hc', Hc, Hpid.
Qed.

Lemma settlements_snoc_other h eff tr :
  settles h eff = false → settlements h (tr ++ [eff]) = settlements h tr.
Proof. intros Heff. rewrite settlements_app. simpl. rewrite Heff. lia. Qed.

Lemma table_ok_handleResultMessage msg c :
  table_ok c → table_ok (handleResultMessage msg c).
Proof.
  intros Hok. unfold handleResultMessage.
  destruct (JS.Map_get (message_id_of msg) (pending c)) as [e|] eqn:Hget;
    [|done].
  destruct msg as [id payload [|]|id code details]; simpl in Hget.
  - (* partial *)
    destruct (asArray payload) as [items|]; [|done].
    destruct Hok as [Hk He Ht Hh]. split; cbn.
    + by apply Map_set_NoDup.
    + intros id' e'. rewrite Map_get_set. case_decide as Hid.
      * intros [= <-]. subst id'. apply (He _ _ Hget).
      * apply He.
    + intros h tm Hlook. destruct (Ht _ _ Hlook) as (e' & Hget' & Htime).
      rewrite Map_get_set. case_decide as Hid.
      * rewrite <-Hid, Hget in Hget'. injection Hget' as <-.
        by eexists.
      * by exists e'.
    + apply Hh.
  - (* final *)
    eapply (table_ok_completes id e c); [done..|].
    destruct (partialResults e), (asArray payload);
      apply completes_intro; try done.
    all: intros h; cbn; by apply settlements_snoc_other.
  - (* error *)
    eapply (table_ok_completes id e c); [done..|].
    apply completes_intro; try done.
    intros h; cbn; by apply settlements_snoc_other.
Qed.

Lemma table_ok_onCommandTimeout h tm c :
  table_ok c → timers c !! h = Some tm →
  table_ok (onCommandTimeout tm (set_timers (delete h (timers c)) c)).
Proof.
  intros Hok Hlook.
  destruct (ok_timer _ Hok _ _ Hlook) as (e & Hget & Htime).
  destruct (ok_entry _ Hok _ _ Hget) as (tm' & Hlook' & _ & Hrej & _).
  rewrite Htime, Hlook in Hlook'. injection Hlook' as <-.
  eapply (table_ok_completes (t_messageId tm) e c); [done..|].
  unfold onCommandTimeout. rewrite Hrej.
  apply completes_intro; try done. cbn. by rewrite Htime.
Qed.

Lemma rejectPendingRequests_loop_ok entries msg c :
  table_ok c → pending c = entries →
  let c' := rejectPendingRequests_loop entries msg c in
  table_ok c' ∧ pending c' = [].
Proof.
  revert c. induction entries as [|[id e] entries IH]; intros c Hok Hp.
  - done.
  - simpl. apply IH.
    + assert (JS.Map_get id (pending c) = Some e) as Hget.
      { rewrite Hp. simpl. by rewrite decide_True. }
      eapply (table_ok_completes id e c); [done..|].
      destruct (entry_unsettled _ _ _ Hok Hget) as [Hpid Hfresh].
      destruct (settle_promise_fresh (settle e) (Rejected msg)
                  (clearTimeout (timeout e) c))
        as (Hp' & Htm' & Hs' & Hn' & Hc').
      { by rewrite Hpid. }
      split; cbn [pending timers settled next_handle trace set_pending].
      * by rewrite Hp'.
      * by rewrite Htm'.
      * by rewrite Hs', Hpid.
      * by rewrite Hn'.
      * intros h. rewrite Hc', Hpid. f_equal. cbn.
        by apply settlements_snoc_other.
    + cbn [pending set_pending].
      destruct (entry_unsettled id e c Hok) as [Hpid Hfresh].
      { rewrite Hp. simpl. by rewrite decide_True. }
      destruct (settle_promise_fresh (settle e) (Rejected msg)
                  (clearTimeout (timeout e) c)) as (Hp' & _).
      { by rewrite Hpid. }
      rewrite Hp'. cbn. rewrite Hp. simpl. by rewrite decide_True.
Qed.

Lemma rejectPendingRequests_ok msg c :
  table_ok c →
  table_ok (rejectPendingRequests msg c)
  ∧ pending (rejectPendingRequests msg c) = [].
Proof. intros Hok. by apply rejectPendingRequests_loop_ok. Qed.

Lemma table_ok_sendCommand uuid w command_ args_ c :
  table_ok c → JS.Map_get uuid (pending c) = None →
  table_ok (completed (sendCommand uuid w command_ args_ c)).
Proof.
  intros Hok Hfresh. unfold sendCommand.
  destruct (ws c) as [socket|]; [|done].
  destruct (decide (readyState socket = OPEN)) as [Hopen|]; [|done].
  destruct Hok as [Hk He Ht Hh]. split; cbn.
  - by apply Map_set_NoDup.
  - intros id e. rewrite Map_get_set. case_decide as Hid.
    + intros [= <-]. cbn. eexists. split; [apply lookup_insert_eq|done].
    + intros Hget. destruct (He _ _ Hget) as (tm & Hlook & Hrest).
      exists tm. split; [|done]. rewrite lookup_insert_ne; [done|].
      intros Heq. destruct (Hh (timeout e)) as [(_&?&_)|[(?&_)|(?&_)]];
        [lia|congruence..].
  - intros h tm. rewrite lookup_insert. case_decide as Hh'.
    + intros [= <-]. cbn. rewrite Map_get_set, decide_True by done.
      by eexists.
    + intros Hlook. destruct (Ht _ _ Hlook) as (e & Hget & Htime).
      exists e. split; [|done]. rewrite Map_get_set, decide_False; [done|].
      intros Heq. rewrite <-Heq, Hfresh in Hget. done.
  - intros h. rewrite !settlements_snoc_other by done.
    destruct (decide (h = next_handle c)) as [->|Hne].
    + rewrite lookup_insert_eq. left.
      destruct (Hh (next_handle c)) as [(_&?&_)|[(_&?&_)|(_&_&?&?)]];
        [lia..|]. split_and!; [by eexists|lia|done|done].
    + rewrite lookup_insert_ne by done.
      destruct (Hh h) as [(?&?&?&?)|[(?&?&?&?)|(?&?&?&?)]];
        [left|right; left|right; right]; split_and!; try done; lia.
Qed.

Lemma table_ok_authenticateWithToken token uuid origin c :
  table_ok c → JS.Map_get uuid (pending c) = None →
  table_ok (completed (authenticateWithToken token uuid origin c)).
Proof.
  intros Hok Hfresh. unfold authenticateWithToken.
  destruct (negb _); [done|]. destruct (negb _); [done|].
  apply table_ok_sendCommand; [|done].
  eapply table_ok_same; [done|apply same_table_updateStatus].
Qed.

Lemma table_ok_handleServerInfo info uuid c :
  table_ok c → JS.Map_get uuid (pending c) = None →
  table_ok (handleServerInfo info uuid c).
Proof.
  intros Hok Hfresh. unfold handleServerInfo.
  assert (table_ok (set_serverInfo (Some info) c)) as Hok'.
  { eapply table_ok_same; [done|by split]. }
  destruct (Qle_bool _ _).
  - destruct (negb _).
    + eapply table_ok_same; [done|apply same_table_updateStatus].
    + pose proof (table_ok_authenticateWithToken
                    (authToken (set_serverInfo (Some info) c)) uuid
                    FromServerInfo _ Hok' Hfresh) as Hauth.
      destruct (authenticateWithToken _ _ _ _) as [c'|err c']; [done|].
      eapply table_ok_same; [done|apply same_table_updateStatus].
  - eapply table_ok_same; [done|apply same_table_updateStatus].
Qed.

Lemma table_ok_handleMessage rawText uuid c :
  table_ok c → JS.Map_get uuid (pending c) = None →
  table_ok (handleMessage JSON_parse rawText uuid c).
Proof.
  intros Hok Hfresh. unfold handleMessage.
  destruct (JSON_parse rawText) as [v|]; [|done].
  destruct (asRecord v) as [r|]; [|done].
  destruct (parseServerInfo r); [by apply table_ok_handleServerInfo|].
  destruct (parseEventMessage r).
  { eapply table_ok_same; [done|by apply same_table_emit]. }
  destruct (parseResultMessage r); [|done].
  by apply table_ok_handleResultMessage.
Qed.

Lemma disconnect_ok reason c :
  table_ok c →
  table_ok (disconnect reason c) ∧ pending (disconnect reason c) = [].
Proof.
  intros Hok. unfold disconnect.
  set (c1 := match ws c with
             | Some s => match readyState s with
                         | CONNECTING => _ | OPEN => _ | _ => _ end
             | None => _ end).
  assert (table_ok c1) as Hok1.
  { eapply table_ok_same; [exact Hok|]. subst c1.
    destruct (ws c) as [[s []]|]; cbn;
      first [ by split
            | eapply same_table_trans; [|by apply same_table_emit]; by split ]. }
  clearbody c1.
  destruct (rejectPendingRequests_ok reason c1 Hok1) as [Hok2 Hempty].
  revert Hok2 Hempty. generalize (rejectPendingRequests reason c1).
  intros c2 Hok2 Hempty.
  rewrite (same_pending _ _ (same_table_updateStatus _ _ _ _)).
  split; [|exact Hempty].
  eapply table_ok_same; [exact Hok2|].
  eapply same_table_trans; [|apply same_table_updateStatus]. by split.
Qed.

Lemma table_ok_connect c : table_ok c → table_ok (completed (connect c)).
Proof.
  intros Hok. unfold connect. destruct (connectPromise c); [done|].
  destruct (negb _); [done|]. cbn [completed].
  destruct (disconnect_ok "Reconnecting…" c Hok) as [Hok1 _].
  revert Hok1. generalize (disconnect "Reconnecting…" c). intros c0 Hok0.
  assert (table_ok (updateStatus Connecting "Connecting to Music Assistant…"
                      (Some false)
                      (set_authenticated false (set_serverInfo None c0))))
    as Hok1.
  { eapply table_ok_same; [exact Hok0|].
    eapply same_table_trans; [|apply same_table_updateStatus]. by split. }
  revert Hok1. generalize (updateStatus Connecting
    "Connecting to Music Assistant…" (Some false)
    (set_authenticated false (set_serverInfo None c0))).
  intros c1 Hok1. eapply table_ok_same; [exact Hok1|].
  split; try done. intros h. cbn. by apply settlements_snoc_other.
Qed.

Lemma same_table_socket_closed c : same_table c (socket_closed c).
Proof. unfold socket_closed. destruct (ws c); by split. Qed.

Lemma onClose_ok c :
  table_ok c → table_ok (onClose c) ∧ pending (onClose c) = [].
Proof.
  intros Hok. unfold onClose. cbv zeta.
  apply (fun H => table_ok_same _ _ H (same_table_socket_closed c)) in Hok.
  revert Hok. generalize (socket_closed c). clear c. intros c Hok.
  destruct (rejectPendingRequests_ok "Socket closed."
              (updateStatus Disconnected "Disconnected from Music Assistant."
                 (Some false) c)) as [Hok1 Hempty].
  { eapply table_ok_same; [exact Hok|apply same_table_updateStatus]. }
  revert Hok1 Hempty. generalize (rejectPendingRequests "Socket closed."
    (updateStatus Disconnected "Disconnected from Music Assistant."
       (Some false) c)).
  intros c1 Hok1 Hempty. split; [|exact Hempty].
  eapply table_ok_same; [exact Hok1|by split].
Qed.

Lemma onConnectError_ok err c :
  table_ok c →
  table_ok (onConnectError err c) ∧ pending (onConnectError err c) = [].
Proof.
  intros Hok. unfold onConnectError.
  destruct (disconnect_ok "Disconnected after connection error."
              (updateStatus Error ("Connection failed: " ++ err) (Some false) c))
    as [Hok1 Hempty].
  { eapply table_ok_same; [exact Hok|apply same_table_updateStatus]. }
  revert Hok1 Hempty. generalize (disconnect
    "Disconnected after connection error."
    (updateStatus Error ("Connection failed: " ++ err) (Some false) c)).
  intros c1 Hok1 Hempty. split; [|exact Hempty].
  eapply table_ok_same; [exact Hok1|by split].
Qed.

(** The message id an event would draw from [randomUUID]. *)
Definition uuid_of (ev : Event) : option string :=
  match ev with
  | SocketMessage _ _ uuid => Some uuid
  | CallSendCommand uuid _ _ => Some uuid
  | CallAuthenticateWithToken _ uuid => Some uuid
  | _ => None
  end.

(** [randomUUID] never returns the id of a request in flight. *)
Definition fresh_uuid (c : Client.t) (ev : Event) : Prop :=
  match uuid_of ev with
  | Some uuid => JS.Map_get uuid (pending c) = None
  | None => True
  end.

Fixpoint fresh_uuids (c : Client.t) (evs : list Event) : Prop :=
  match evs with
  | [] => True
  | ev :: evs => fresh_uuid c ev ∧ fresh_uuids (step JSON_parse c ev) evs
  end.

Lemma table_ok_handle ev c :
  table_ok c → fresh_uuid c ev → table_ok (handle JSON_parse ev c).
Proof.
  intros Hok Hfresh. destruct ev; cbn [handle]; unfold fresh_uuid in Hfresh;
    cbn in Hfresh.
  - by apply table_ok_connect.
  - destruct (connectPromise c); [|done].
    destruct (ws c) as [[s []]|] eqn:Hws; try done.
    unfold onOpen. rewrite Hws.
    eapply table_ok_same; [done|].
    eapply same_table_trans with (c2 := updateStatus _ _ _ _); [|by split].
    eapply same_table_trans; [|apply same_table_updateStatus]. by split.
  - destruct (connectPromise c); [|done]. by apply onConnectError_ok.
  - destruct (is_current s c); [|done].
    eapply table_ok_same; [done|by split].
  - destruct (is_current s c); [|done]. by apply table_ok_handleMessage.
  - destruct (is_current s c); [|done]. by apply onClose_ok.
  - destruct (is_current s c); [|done].
    eapply table_ok_same; [done|apply same_table_updateStatus].
  - by apply disconnect_ok.
  - by apply table_ok_sendCommand.
  - by apply table_ok_authenticateWithToken.
  - eapply table_ok_same; [done|by split].
  - destruct (timers c !! h) as [tm|] eqn:Hlook; [|done].
    by apply table_ok_onCommandTimeout.
Qed.

Lemma table_ok_step ev c :
  table_ok c → fresh_uuid c ev → table_ok (step JSON_parse c ev).
Proof.
  intros Hok Hfresh. unfold step.
  eapply table_ok_same; [by apply table_ok_handle|apply same_table_drain].
Qed.

Lemma table_ok_new url token : table_ok (new url token).
Proof.
  split; cbn.
  - apply NoDup_nil_2.
  - done.
  - intros h tm. by rewrite lookup_empty.
  - intros h. right; right. rewrite lookup_empty.
    split_and!; [done|lia|done|set_solver].
Qed.

Lemma table_ok_run evs c :
  table_ok c → fresh_uuids c evs → table_ok (run JSON_parse c evs).
Proof.
  revert c. induction evs as [|ev evs IH]; intros c Hok Hfresh; [done|].
  destruct Hfresh as [Hev Hevs]. apply IH; [by apply table_ok_step|done].
Qed.

(** The trace only grows. *)
Definition grows (c c' : Client.t) : Prop := trace c `prefix_of` trace c'.

#[local] Instance grows_preorder : PreOrder grows.
Proof.
  split; [intros c; by unfold grows|].
  intros c1 c2 c3. unfold grows. apply transitivity.
Qed.

Lemma grows_set c c' : trace c' = trace c → grows c c'.
Proof. unfold grows. by intros ->. Qed.

Lemma grows_set_ws v c c1 : grows c c1 → grows c (set_ws v c1).
Proof. done. Qed.
Lemma grows_set_authToken v c c1 : grows c c1 → grows c (set_authToken v c1).
Proof. done. Qed.
Lemma grows_set_authenticated v c c1 : grows c c1 → grows c (set_authenticated v c1).
Proof. done. Qed.
Lemma grows_set_serverInfo v c c1 : grows c c1 → grows c (set_serverInfo v c1).
Proof. done. Qed.
Lemma grows_set_pending v c c1 : grows c c1 → grows c (set_pending v c1).
Proof. done. Qed.
Lemma grows_set_connectPromise v c c1 : grows c c1 → grows c (set_connectPromise v c1).
Proof. done. Qed.
Lemma grows_set_timers v c c1 : grows c c1 → grows c (set_timers v c1).
Proof. done. Qed.
Lemma grows_set_settled v c c1 : grows c c1 → grows c (set_settled v c1).
Proof. done. Qed.
Lemma grows_set_microtasks v c c1 : grows c c1 → grows c (set_microtasks v c1).
Proof. done. Qed.
Lemma grows_set_next_handle v c c1 : grows c c1 → grows c (set_next_handle v c1).
Proof. done. Qed.
Lemma grows_set_next_socket v c c1 : grows c c1 → grows c (set_next_socket v c1).
Proof. done. Qed.

Ltac strip_setters :=
  repeat first
    [ apply grows_set_ws | apply grows_set_authToken
    | apply grows_set_authenticated | apply grows_set_serverInfo
    | apply grows_set_pending | apply grows_set_connectPromise
    | apply grows_set_timers | apply grows_set_settled
    | apply grows_set_microtasks | apply grows_set_next_handle
    | apply grows_set_next_socket ].

Lemma grows_emit eff c : grows c (emit eff c).
Proof. unfold grows. cbn. by apply prefix_app_r. Qed.

Lemma grows_emit_r eff c c1 : grows c c1 → grows c (emit eff c1).
Proof. intros H. etrans; [exact H|apply grows_emit]. Qed.

Lemma grows_updateStatus st msg auth c : grows c (updateStatus st msg auth c).
Proof.
  unfold updateStatus. apply grows_emit_r, grows_set. by destruct auth.
Qed.

Lemma grows_updateStatus_r st msg auth c c1 :
  grows c c1 → grows c (updateStatus st msg auth c1).
Proof. intros H. etrans; [exact H|apply grows_updateStatus]. Qed.

Lemma grows_settle_promise p o c : grows c (settle_promise p o c).
Proof.
  unfold settle_promise, grows. case_decide; cbn; by apply prefix_app_r.
Qed.

Lemma grows_settle_promise_r p o c c1 :
  grows c c1 → grows c (settle_promise p o c1).
Proof. intros H. etrans; [exact H|apply grows_settle_promise]. Qed.

Lemma grows_clearTimeout h c : grows c (clearTimeout h c).
Proof. unfold clearTimeout. by apply grows_emit_r, grows_set. Qed.

Lemma grows_sendCommand uuid w command_ args_ c :
  grows c (completed (sendCommand uuid w command_ args_ c)).
Proof.
  unfold sendCommand. destruct (ws c); [|done]. case_decide; [|done].
  unfold grows. cbn. by do 2 apply prefix_app_r.
Qed.

Lemma grows_authenticateWithToken token uuid origin c :
  grows c (completed (authenticateWithToken token uuid origin c)).
Proof.
  unfold authenticateWithToken. destruct (negb _); [done|].
  destruct (negb _); [done|].
  etrans; [|apply grows_sendCommand]. apply grows_updateStatus.
Qed.

Lemma grows_continue p o c : grows c (continue_ p o c).
Proof.
  unfold continue_. destruct (p_waiter p) as [|[] token], o; try done.
  all: by apply grows_updateStatus_r, grows_set.
Qed.

Lemma grows_run_reactions jobs c : grows c (run_reactions jobs c).
Proof.
  revert c. induction jobs as [|[p o] jobs IH]; intros c; simpl; [done|].
  etrans; [apply grows_continue|apply IH].
Qed.

Lemma grows_drain c : grows c (drain c).
Proof.
  unfold drain. etrans; [|apply grows_run_reactions]. by apply grows_set.
Qed.

Lemma grows_rejectPendingRequests_loop entries msg c :
  grows c (rejectPendingRequests_loop entries msg c).
Proof.
  revert c. induction entries as [|[id e] entries IH]; intros c; simpl; [done|].
  etrans; [|apply IH].
  strip_setters.
  apply grows_settle_promise_r, grows_clearTimeout.
Qed.

Lemma grows_rejectPendingRequests msg c : grows c (rejectPendingRequests msg c).
Proof. apply grows_rejectPendingRequests_loop. Qed.

Lemma grows_rejectPendingRequests_r msg c c1 :
  grows c c1 → grows c (rejectPendingRequests msg c1).
Proof. intros H. etrans; [exact H|apply grows_rejectPendingRequests]. Qed.

Lemma grows_disconnect reason c : grows c (disconnect reason c).
Proof.
  unfold disconnect. apply grows_updateStatus_r.
  strip_setters. apply grows_rejectPendingRequests_r.
  destruct (ws c) as [[s []]|];
    first [by apply grows_set | by apply grows_emit_r, grows_set].
Qed.

Lemma grows_disconnect_r reason c c1 :
  grows c c1 → grows c (disconnect reason c1).
Proof. intros H. etrans; [exact H|apply grows_disconnect]. Qed.

Lemma grows_handleServerInfo info uuid c : grows c (handleServerInfo info uuid c).
Proof.
  unfold handleServerInfo. destruct (Qle_bool _ _).
  - destruct (negb _); [by apply grows_updateStatus_r, grows_set|].
    pose proof (grows_authenticateWithToken
                  (authToken (set_serverInfo (Some info) c)) uuid
                  FromServerInfo (set_serverInfo (Some info) c)) as Hauth.
    destruct (authenticateWithToken _ _ _ _) as [c'|err c']; [done|].
    by apply grows_updateStatus_r.
  - by apply grows_updateStatus_r, grows_set.
Qed.

Lemma grows_handleResultMessage msg c : grows c (handleResultMessage msg c).
Proof.
  unfold handleResultMessage.
  destruct (JS.Map_get _ _) as [e|]; [|done].
  destruct msg as [id payload [|]|id code details].
  - destruct (asArray payload); by apply grows_set.
  - destruct (partialResults e), (asArray payload);
      apply grows_settle_promise_r;
      strip_setters; apply grows_clearTimeout.
  - apply grows_settle_promise_r.
    strip_setters. apply grows_clearTimeout.
Qed.

Lemma connect_proceeds c :
  connectPromise c = false → JS.truthy (baseUrl c) = true →
  connect c
  = Normal
      (let c := disconnect "Reconnecting…" c in
       let c := set_serverInfo None c in
       let c := set_authenticated false c in
       let c := updateStatus Connecting "Connecting to Music Assistant…"
                  (Some false) c in
       let s := next_socket c in
       let c := set_next_socket (S s) c in
       let c := emit (NewWebSocket s) c in
       let c := set_ws (Some {| sock := s; readyState := CONNECTING |}) c in
       set_connectPromise true c).
Proof. intros H1 H2. unfold connect. by rewrite H1, H2. Qed.

Lemma connect_skipped c :
  connectPromise c = true ∨ JS.truthy (baseUrl c) = false →
  completed (connect c) = c.
Proof.
  unfold connect. intros [H|H].
  - by rewrite H.
  - rewrite H. by destruct (connectPromise c).
Qed.

Lemma grows_connect c : grows c (completed (connect c)).
Proof.
  destruct (connectPromise c) eqn:H1.
  { rewrite connect_skipped by (by left). done. }
  destruct (JS.truthy (baseUrl c)) eqn:H2.
  2:{ rewrite connect_skipped by (by right). done. }
  rewrite connect_proceeds by done. unfold completed.
  apply grows_set_connectPromise, grows_set_ws, grows_emit_r,
    grows_set_next_socket, grows_updateStatus_r, grows_set_authenticated,
    grows_set_serverInfo, grows_disconnect.
Qed.

Lemma grows_handleMessage rawText uuid c :
  grows c (handleMessage JSON_parse rawText uuid c).
Proof.
  unfold handleMessage.
  destruct (JSON_parse rawText) as [v|]; [|done].
  destruct (asRecord v) as [r|]; [|done].
  destruct (parseServerInfo r); [apply grows_handleServerInfo|].
  destruct (parseEventMessage r); [apply grows_emit|].
  destruct (parseResultMessage r); [apply grows_handleResultMessage|done].
Qed.

Lemma grows_handle ev c : grows c (handle JSON_parse ev c).
Proof.
  destruct ev; cbn [handle].
  - apply grows_connect.
  - destruct (connectPromise c); [|done].
    destruct (ws c) as [[s []]|] eqn:Hws; try done.
    unfold onOpen. rewrite Hws.
    strip_setters.
    by apply grows_updateStatus_r, grows_set.
  - destruct (connectPromise c); [|done]. unfold onConnectError.
    strip_setters.
    apply grows_disconnect_r, grows_updateStatus.
  - destruct (is_current s c); [|done]. by apply grows_set.
  - destruct (is_current s c); [|done]. apply grows_handleMessage.
  - destruct (is_current s c); [|done]. unfold onClose.
    strip_setters.
    apply grows_rejectPendingRequests_r, grows_updateStatus_r, grows_set.
    unfold socket_closed. by destruct (ws c).
  - destruct (is_current s c); [|done]. apply grows_updateStatus.
  - apply grows_disconnect.
  - apply grows_sendCommand.
  - apply grows_authenticateWithToken.
  - by apply grows_set.
  - destruct (timers c !! h) as [tm|]; [|done].
    unfold onCommandTimeout.
    apply grows_settle_promise_r. by apply grows_set.
Qed.

Lemma grows_step c ev : grows c (step JSON_parse c ev).
Proof. unfold step. etrans; [apply grows_handle|apply grows_drain]. Qed.

Lemma grows_run evs c : grows c (run JSON_parse c evs).
Proof.
  revert c. induction evs as [|ev evs IH]; intros c; [done|].
  etrans; [apply grows_step|apply IH].
Qed.

Lemma settlements_grows h c c' :
  grows c c' → (settlements h (trace c) ≤ settlements h (trace c'))%nat.
Proof. intros [k ->]. rewrite settlements_app. lia. Qed.

(** The events that tear the connection down: the socket closes under
    the client, the client is told to disconnect, the connection attempt
    fails, or a new attempt replaces the socket. *)
Definition tears_down (ev : Event) (c : Client.t) : Prop :=
  match ev with
  | SocketClosed s => is_current s c = true
  | CallDisconnect _ => True
  | ConnectFailed _ => connectPromise c = true
  | CallConnect => connectPromise c = false ∧ JS.truthy (baseUrl c) = true
  | _ => False
  end.

Lemma teardown_empties ev c :
  table_ok c → tears_down ev c → pending (step JSON_parse c ev) = [].
Proof.
  intros Hok Hdown. unfold step.
  rewrite (same_pending _ _ (same_table_drain _)).
  destruct ev; cbn [handle tears_down] in *; try done.
  - destruct Hdown as [Hpromise Hurl].
    rewrite connect_proceeds by done. unfold completed.
    destruct (disconnect_ok "Reconnecting…" c Hok) as [_ Hempty].
    revert Hempty. generalize (disconnect "Reconnecting…" c).
    intros c0 Hempty.
    cbn [pending set_connectPromise set_ws emit set_next_socket set_trace].
    rewrite (same_pending _ _ (same_table_updateStatus _ _ _ _)).
    exact Hempty.
  - rewrite Hdown. by apply onConnectError_ok.
  - rewrite Hdown. by apply onClose_ok.
  - by apply disconnect_ok.
Qed.

Lemma fresh_uuids_app c evs1 evs2 :
  fresh_uuids c (evs1 ++ evs2)
  ↔ fresh_uuids c evs1 ∧ fresh_uuids (run JSON_parse c evs1) evs2.
Proof.
  revert c. induction evs1 as [|ev evs1 IH]; intros c; simpl; [tauto|].
  rewrite IH. tauto.
Qed.

Lemma table_ok_handle_cases c h :
  table_ok c →
  (outstanding c h ∧ (h < next_handle c)%nat)
  ∨ (settled_once c h ∧ (h < next_handle c)%nat)
  ∨ (settlements h (trace c) = 0 ∧ (next_handle c ≤ h)%nat).
Proof.
  intros [Hk He Ht Hh].
  destruct (Hh h) as [([tm Htm]&?&?&?)|[(Hnone&?&?&?)|(?&?&?&?)]].
  - left. split; [|done]. split_and!; [|by eexists|done].
    destruct (Ht _ _ Htm) as (e & Hget & Htime). eauto.
  - right; left. split; [|done]. split_and!; [|done..].
    intros id e Hget Heq. destruct (He _ _ Hget) as (tm & Htm & _).
    congruence.
  - right; right. done.
Qed.

(** C1. Along every run of the client from its initial state in which
    [randomUUID] never repeats an id in flight, each request created by
    [sendCommand] is at any time either outstanding (entry in the table,
    timer armed, no settlement yet) or settled exactly once, with its
    entry removed and its timer disarmed; no promise is ever settled
    twice; and every request created before a teardown of the connection
    (socket closed, disconnect, failed or replaced connection attempt) is
    settled exactly once from that teardown on. *)
Theorem pending_request_settled_exactly_once url token evs :
  fresh_uuids (new url token) evs →
  let c := run JSON_parse (new url token) evs in
  (∀ h, (h < next_handle c)%nat → outstanding c h ∨ settled_once c h)
  ∧ (∀ h, (settlements h (trace c) ≤ 1)%nat)
  ∧ (∀ evs1 ev evs2,
       evs = evs1 ++ ev :: evs2 →
       tears_down ev (run JSON_parse (new url token) evs1) →
       ∀ h, (h < next_handle (run JSON_parse (new url token) (evs1 ++ [ev])))%nat →
            settled_once c h).
Proof.
  intros Hfresh c.
  assert (table_ok c) as Hok by (apply table_ok_run; [apply table_ok_new|done]).
  split_and!.
  - intros h Hlt.
    destruct (table_ok_handle_cases c h Hok) as [[? _]|[[? _]|[_ ?]]];
      [by left|by right|lia].
  - intros h.
    destruct (table_ok_handle_cases c h Hok)
      as [[(_&_&->) _]|[[(_&_&->) _]|[-> _]]]; lia.
  - intros evs1 ev evs2 -> Hdown h Hlt.
    apply fresh_uuids_app in Hfresh as [Hfresh1 [Hev Hfresh2]].
    set (c1 := run JSON_parse (new url token) evs1) in *.
    assert (table_ok c1) as Hok1
      by (apply table_ok_run; [apply table_ok_new|done]).
    set (c2 := step JSON_parse c1 ev).
    assert (table_ok c2) as Hok2 by (by apply table_ok_step).
    assert (pending c2 = []) as Hempty by (by apply teardown_empties).
    assert (run JSON_parse (new url token) (evs1 ++ [ev]) = c2) as Hmid.
    { unfold run. by rewrite foldl_app. }
    rewrite Hmid in Hlt.
    assert (settlements h (trace c2) = 1) as Hone.
    { destruct (table_ok_handle_cases c2 h Hok2)
        as [[((id & e & Hget & _)&_) _]|[[(_&_&?) _]|[_ ?]]]; [|done|lia].
      by rewrite Hempty in Hget. }
    assert (grows c2 c) as Hgrow.
    { subst c. unfold run. rewrite foldl_app. simpl. apply grows_run. }
    apply (settlements_grows h) in Hgrow.
    destruct (table_ok_handle_cases c h Hok)
      as [[(_&_&?) _]|[[? _]|[? _]]]; [lia|done|lia].
Qed.

End ClientFacts.

(** *** A sample session *)

Section ClientExamples.
Import Client.

(** [JSON.parse] on the frames of the examples. *)
Definition sample_frames : list (string * JSON) :=
  [("server-info-27",
    JObj [("server_id", JStr "ma"); ("server_version", JStr "2.3.0");
          ("schema_version", JNum 27)]);
   ("server-info-28",
    JObj [("server_id", JStr "ma"); ("server_version", JStr "2.6.0");
          ("schema_version", JNum 28)]);
   ("m1-partial",
    JObj [("message_id", JStr "m1");
          ("result", JArr [JStr "a"; JStr "b"]); ("partial", JBool true)]);
   ("m1-final",
    JObj [("message_id", JStr "m1"); ("result", JArr [JStr "c"])]);
   ("player-updated",
    JObj [("event", JStr "player_updated"); ("object_id", JStr "p1")])].

Definition sample_parse (rawText : string) : option JSON :=
  JS.Map_get rawText sample_frames.

Definition sample_client : Client.t := new "http://ma.local:8095" "".

(** Connected, one command in flight. *)
Definition sample_session : Client.t :=
  run sample_parse sample_client
    [CallConnect; SocketOpened; CallSendCommand "m1" "players/all" None].

Definition sample_entry (acc : list JSON) : PendingRequest :=
  {| settle := {| p_id := 0; p_waiter := Caller |};
     timeout := 0;
     partialResults := acc |}.

(** Three commands: the first is answered in two frames, the second times
    out, the third is cut off by the close of the socket. *)
Definition sample_events : list Event :=
  [CallConnect; SocketOpened;
   SocketMessage 0 "server-info-27" "u0";
   CallSendCommand "m1" "players/all" None;
   CallSendCommand "m2" "player_queues/all" None;
   SocketMessage 0 "m1-partial" "u1";
   SocketMessage 0 "player-updated" "u2";
   SocketMessage 0 "m1-final" "u3";
   CallSendCommand "m3" "players/get" (Some [("player_id", JStr "p1")]);
   TimerFired 1;
   SocketClosed 0].

Definition is_settlement (eff : Effect) : bool :=
  match eff with Resolve _ _ | Reject _ _ => true | _ => false end.

Lemma pending_request_settled_exactly_once_witness :
  let c := run sample_parse sample_client sample_events in
  next_handle c = 3
  ∧ List.filter is_settlement (trace c)
    = [Resolve 0 (Some (JArr [JStr "a"; JStr "b"; JStr "c"]));
       Reject 1 "Music Assistant command timeout: player_queues/all";
       Reject 2 "Socket closed."]
  ∧ ∀ h, h < 3 → settled_once c h.
Proof.
  assert (fresh_uuids sample_parse sample_client sample_events) as Hfresh.
  { vm_compute. repeat split. }
  pose proof (pending_request_settled_exactly_once sample_parse
                "http://ma.local:8095" "" sample_events Hfresh) as Hall.
  cbv zeta in Hall. destruct Hall as (_ & _ & Hclosed).
  split; [vm_compute; reflexivity|].
  split; [vm_compute; reflexivity|].
  intros h Hh.
  apply (Hclosed (removelast sample_events) (SocketClosed 0) []).
  - reflexivity.
  - vm_compute. reflexivity.
  - assert (next_handle
              (run sample_parse (new "http://ma.local:8095" "")
                 (removelast sample_events ++ [SocketClosed 0])) = 3) as ->
      by (vm_compute; reflexivity).
    exact Hh.
Defined.

Lemma partial_results_accumulate_witness :
  let id := "m1" in
  let e := sample_entry [] in
  let c := sample_session in
  let partials := [Some (JArr [JStr "a"; JStr "b"]); Some (JArr [JStr "c"])] in
  let final := Some (JArr [JStr "d"]) in
  let acc := partialResults e ++ concat (partial_items <$> partials) in
  let c1 := feed (success_frame id true <$> partials) c in
  let c2 := handleResultMessage (success_frame id false final) c1 in
  (trace c1 = trace c ∧ timers c1 = timers c
   ∧ JS.Map_get id (pending c1)
     = Some {| settle := settle e; timeout := timeout e;
               partialResults := acc |})
  ∧ trace c2
    = trace c ++ [ClearTimeout (timeout e);
                  Resolve (p_id (settle e)) (final_value acc final)]
  ∧ pending c2 = JS.Map_delete id (pending c).
Proof.
  intros id e c partials final.
  apply (partial_results_accumulate id e c partials final).
  vm_compute. reflexivity.
Defined.

Example partial_frames_in_order :
  let c2 :=
    feed [success_frame "m1" true (Some (JArr [JStr "a"; JStr "b"]));
          success_frame "m1" true (Some (JArr [JStr "c"]));
          success_frame "m1" false (Some (JArr [JStr "d"]))] sample_session in
  trace c2
  = trace sample_session
    ++ [ClearTimeout 0;
        Resolve 0 (Some (JArr [JStr "a"; JStr "b"; JStr "c"; JStr "d"]))].
Proof. vm_compute. reflexivity. Qed.

(** The specification's sentence on the final value, read as generously
    as its words allow: with a non-empty accumulator the resolved value is
    the accumulator followed by something. *)
Definition claimed_final_value (acc : list JSON) (payload value : option JSON)
    : Prop :=
  match acc with
  | [] => value = payload
  | _ :: _ => ∃ items, value = Some (JArr (acc ++ items))
  end.

(** After a partial frame [["a"]] the accumulator is not empty; a final
    frame whose payload is the string "ok" then resolves the request with
    "ok", which is not the accumulator followed by anything. *)
Lemma final_value_counterexample :
  let c1 :=
    feed [success_frame "m1" true (Some (JArr [JStr "a"]))] sample_session in
  let c2 :=
    handleResultMessage (success_frame "m1" false (Some (JStr "ok"))) c1 in
  JS.Map_get "m1" (pending c1) = Some (sample_entry [JStr "a"])
  ∧ trace c2 = trace c1 ++ [ClearTimeout 0; Resolve 0 (Some (JStr "ok"))]
  ∧ ¬ claimed_final_value [JStr "a"] (Some (JStr "ok")) (Some (JStr "ok")).
Proof.
  split; [vm_compute; reflexivity|].
  split; [vm_compute; reflexivity|].
  intros [items Hitems]. discriminate Hitems.
Qed.

Lemma non_array_payloads_witness :
  let c :=
    feed [success_frame "m1" true (Some (JArr [JStr "a"]))] sample_session in
  let e := sample_entry [JStr "a"] in
  let payload := Some (JObj [("count", JNum 1)]) in
  handleResultMessage (success_frame "m1" true payload) c = c
  ∧ let c' := handleResultMessage (success_frame "m1" false payload) c in
    trace c'
    = trace c ++ [ClearTimeout (timeout e);
                  Resolve (p_id (settle e)) payload]
    ∧ pending c' = JS.Map_delete "m1" (pending c).
Proof.
  intros c e payload. apply (non_array_payloads "m1" e c payload).
  - vm_compute. reflexivity.
  - reflexivity.
Defined.

Definition server_info (schema : Q) : MAServerInfoMessage :=
  {| server_id := "ma"; server_version := "2.x";
     schema_version := schema; min_supported_schema_version := None |}.

Definition opened : Client.t :=
  run sample_parse sample_client [CallConnect; SocketOpened].

Lemma handleServerInfo_auth_gate_witness :
  (let c' := handleServerInfo (server_info 27) "u0" opened in
   state c' = Authenticated ∧ authenticated c' = true
   ∧ trace c' = trace opened ++ [StatusChange (getStatus c')]
   ∧ pending c' = pending opened)
  ∧ (let c' := handleServerInfo (server_info 28) "u0" opened in
     state c' = Connected
     ∧ MAStatusSnapshot.state (getStatus c') = Connected
     ∧ MAStatusSnapshot.authRequired (getStatus c') = true
     ∧ MAStatusSnapshot.authenticated (getStatus c') = false
     ∧ trace c' = trace opened ++ [StatusChange (getStatus c')]
     ∧ pending c' = pending opened).
Proof.
  split.
  - apply (proj1 (handleServerInfo_auth_gate (server_info 27) "u0" opened)).
    reflexivity.
  - apply (proj2 (handleServerInfo_auth_gate (server_info 28) "u0" opened)).
    + vm_compute. discriminate.
    + vm_compute. reflexivity.
Defined.

End ClientExamples.

(** ** The reconciler *)

Section ReconcilerFacts.
Import Reconciler.

Implicit Types (players : list MAPlayer) (cur parent : MAPlayer)
  (visited : gset string).

(** *** Controlling-player resolution *)

(** The parent a player names, in the words of the specification: its
    [synced_to] when that is a string that is not blank, else its
    [active_group] when that is one; the id is the trimmed string. *)
Definition names_parent cur (parentId : string) : Prop :=
  (∃ leader,
     synced_to cur = Some leader ∧ JS.trim leader ≠ ""
     ∧ parentId = JS.trim leader)
  ∨ ((synced_to cur = None
      ∨ ∃ leader, synced_to cur = Some leader ∧ JS.trim leader = "")
     ∧ ∃ grp,
         active_group cur = Some grp ∧ JS.trim grp ≠ ""
         ∧ parentId = JS.trim grp).

(** [p] is the cached player of the id: the first player of the cache
    with that id, which is not empty. *)
Definition is_cached players (id : string) (p : MAPlayer) : Prop :=
  id ≠ ""
  ∧ ∃ before after,
      players = before ++ p :: after
      ∧ player_id p = id
      ∧ ∀ q, q ∈ before → player_id q ≠ id.

(** One hop of the walk: [parent] is the cached player that [cur] names
    as its parent, and it is not [cur] itself. *)
Definition parent_of players cur parent : Prop :=
  ∃ parentId,
    names_parent cur parentId
    ∧ parentId ≠ player_id cur
    ∧ is_cached players parentId parent.

(** The four reasons to stop at [cur]. *)
Definition no_parent_id cur : Prop := ∀ parentId, ¬ names_parent cur parentId.
Definition self_parent cur : Prop := names_parent cur (player_id cur).
Definition parent_missing players cur : Prop :=
  ∃ parentId,
    names_parent cur parentId
    ∧ ∀ parent, ¬ is_cached players parentId parent.
Definition revisited players cur : Prop := tc (parent_of players) cur cur.

(** The code's expressions and the words above say the same. *)
Lemma truthy_ne_empty (id : string) : JS.truthy id = true ↔ id ≠ "".
Proof. by destruct id. Qed.

Lemma names_parent_iff cur parentId :
  parentId_of cur = Some parentId ↔ names_parent cur parentId.
Proof.
  unfold parentId_of, names_parent.
  destruct (synced_to cur) as [leader|].
  - destruct (JS.truthy (JS.trim leader)) eqn:Hleader.
    + apply truthy_ne_empty in Hleader. split.
      * intros [= <-]. left. by exists leader.
      * intros [(l & [= <-] & _ & ->)|[[?|(l & [= <-] & Hl)] _]]; done.
    + assert (JS.trim leader = "") as Hblank
        by (by destruct (JS.trim leader)).
      destruct (active_group cur) as [grp|].
      * destruct (JS.truthy (JS.trim grp)) eqn:Hgrp.
        -- apply truthy_ne_empty in Hgrp. split.
           ++ intros [= <-]. right. split; [right; by exists leader|].
              by exists grp.
           ++ intros [(l & [= <-] & Hl & _)|[_ (g & [= <-] & _ & ->)]]; done.
        -- assert (JS.trim grp = "") as Hg by (by destruct (JS.trim grp)).
           split; [done|].
           intros [(l & [= <-] & Hl & _)|[_ (g & [= <-] & Hne & _)]]; done.
      * split; [done|].
        intros [(l & [= <-] & Hl & _)|[_ (g & Hg & _)]]; done.
  - destruct (active_group cur) as [grp|].
    + destruct (JS.truthy (JS.trim grp)) eqn:Hgrp.
      * apply truthy_ne_empty in Hgrp. split.
        -- intros [= <-]. right. split; [by left|]. by exists grp.
        -- intros [(l & Hl & _)|[_ (g & [= <-] & _ & ->)]]; done.
      * assert (JS.trim grp = "") as Hg by (by destruct (JS.trim grp)).
        split; [done|].
        intros [(l & Hl & _)|[_ (g & [= <-] & Hne & _)]]; done.
    + split; [done|]. intros [(l & Hl & _)|[_ (g & Hg & _)]]; done.
Qed.

Lemma names_no_parent_iff cur :
  parentId_of cur = None ↔ ∀ parentId, ¬ names_parent cur parentId.
Proof.
  split.
  - intros Hnone parentId Hnames. apply names_parent_iff in Hnames.
    congruence.
  - intros Hno. destruct (parentId_of cur) as [parentId|] eqn:Hparent; [|done].
    by apply names_parent_iff, Hno in Hparent.
Qed.

Lemma find_first {A} (test : A → bool) (l : list A) x :
  List.find test l = Some x
  ↔ ∃ before after,
      l = before ++ x :: after ∧ test x = true
      ∧ ∀ y, y ∈ before → test y = false.
Proof.
  induction l as [|y l IH]; cbn [List.find].
  - split; [done|]. intros (before & after & Heq & _).
    by destruct before.
  - destruct (test y) eqn:Hy.
    + split.
      * intros [= ->]. exists [], l. split_and!; [done..|].
        by intros ? ?%elem_of_nil.
      * intros (before & after & Heq & Hx & Hbefore).
        destruct before as [|z before]; simplify_eq/=; [done|].
        rewrite Hbefore in Hy; [done|by left].
    + rewrite IH. split.
      * intros (before & after & -> & Hx & Hbefore).
        exists (y :: before), after. split_and!; [done..|].
        intros z [->|Hz]%elem_of_cons; auto.
      * intros (before & after & Heq & Hx & Hbefore).
        destruct before as [|z before]; simplify_eq/=; [congruence|].
        exists before, after. split_and!; [done..|].
        intros q Hq. apply Hbefore. by right.
Qed.

Lemma is_cached_iff players id p :
  findPlayerById players (Some id) = Some p ↔ is_cached players id p.
Proof.
  unfold findPlayerById, is_cached.
  destruct (JS.truthy id) eqn:Hid.
  - apply truthy_ne_empty in Hid. rewrite find_first. split.
    + intros (before & after & -> & Hp & Hbefore). split; [done|].
      exists before, after. split_and!; [done|by apply bool_decide_eq_true in Hp|].
      intros q Hq. by apply Hbefore, bool_decide_eq_false in Hq.
    + intros (_ & before & after & -> & Hp & Hbefore).
      exists before, after. split_and!; [done|by apply bool_decide_eq_true|].
      intros q Hq. by apply bool_decide_eq_false, Hbefore.
  - split; [done|]. intros [Hne _]. by destruct id.
Qed.

Lemma not_cached_iff players id :
  findPlayerById players (Some id) = None
  ↔ ∀ p, ¬ is_cached players id p.
Proof.
  split.
  - intros Hnone p Hp. apply is_cached_iff in Hp. congruence.
  - intros Hno.
    destruct (findPlayerById players (Some id)) as [p|] eqn:Hp; [|done].
    by apply is_cached_iff, Hno in Hp.
Qed.

Lemma parent_of_iff players cur parent :
  parent_of players cur parent
  ↔ ∃ parentId,
      parentId_of cur = Some parentId
      ∧ parentId ≠ player_id cur
      ∧ findPlayerById players (Some parentId) = Some parent.
Proof.
  unfold parent_of. split; intros (parentId & Hnames & Hne & Hfind);
    exists parentId.
  - by rewrite names_parent_iff, is_cached_iff.
  - by rewrite <-names_parent_iff, <-is_cached_iff.
Qed.

Definition cached_ids players : gset string :=
  list_to_set (player_id <$> players).

Lemma findPlayerById_Some players id p :
  findPlayerById players (Some id) = Some p →
  player_id p = id ∧ p ∈ players ∧ JS.truthy id = true.
Proof.
  unfold findPlayerById. destruct (JS.truthy id); [|done].
  intros Hfind. apply List.find_some in Hfind as [Hin Hid].
  apply bool_decide_eq_true in Hid. by rewrite <-list_elem_of_In in Hin.
Qed.

Lemma findPlayerById_self players id p :
  findPlayerById players (Some id) = Some p →
  findPlayerById players (Some (player_id p)) = Some p.
Proof.
  intros Hfind. by destruct (findPlayerById_Some _ _ _ Hfind) as [-> _].
Qed.

Lemma cached_ids_size players : size (cached_ids players) ≤ length players.
Proof.
  unfold cached_ids. induction players as [|p players IH].
  - rewrite fmap_nil, list_to_set_nil, size_empty. done.
  - rewrite fmap_cons, list_to_set_cons, size_union_alt, size_singleton.
    simpl.
    pose proof (subseteq_size
                  (list_to_set (player_id <$> players) ∖ {[player_id p]})
                  (list_to_set (player_id <$> players) : gset string)
                  ltac:(set_solver)).
    lia.
Qed.

Lemma resolve_loop_more_fuel fuel fuel' players current visited r :
  resolve_loop fuel players current visited = Some r →
  fuel ≤ fuel' →
  resolve_loop fuel' players current visited = Some r.
Proof.
  revert fuel' current visited.
  induction fuel as [|fuel IH]; intros fuel' current visited.
  { simpl. intros Hrun. discriminate Hrun. }
  intros Hrun Hle. destruct fuel' as [|fuel']; [lia|].
  cbn [resolve_loop] in *. destruct current as [cur|]; [|done].
  case_decide; [done|].
  destruct (parentId_of cur) as [parentId|]; [|done].
  case_decide; [done|].
  destruct (findPlayerById players (Some parentId)) as [parent|]; [|done].
  apply IH; [done|lia].
Qed.

Lemma resolve_loop_spec players start fuel cur visited :
  findPlayerById players (Some (player_id cur)) = Some cur →
  size (cached_ids players ∖ visited) < fuel →
  rtc (parent_of players) start cur →
  (∀ id, id ∈ visited →
     ∃ v, findPlayerById players (Some id) = Some v
          ∧ tc (parent_of players) v cur) →
  ∃ r,
    resolve_loop fuel players (Some cur) visited = Some (Some r)
    ∧ rtc (parent_of players) start r
    ∧ (no_parent_id r ∨ self_parent r ∨ parent_missing players r
       ∨ revisited players r).
Proof.
  revert cur visited.
  induction fuel as [|fuel IH]; intros cur visited Hcur Hsize Hreach Hvis;
    [lia|].
  cbn [resolve_loop].
  destruct (decide (player_id cur ∈ visited)) as [Hin|Hnotin].
  { exists cur. split_and!; [done..|].
    do 3 right. destruct (Hvis _ Hin) as (v & Hv & Htc).
    rewrite Hcur in Hv. by injection Hv as <-. }
  destruct (parentId_of cur) as [parentId|] eqn:Hparent.
  2:{ exists cur. split_and!; [done..|]. left.
      exact (proj1 (names_no_parent_iff cur) Hparent). }
  destruct (decide (parentId = player_id cur)) as [->|Hself].
  { exists cur. split_and!; [done..|]. right; left.
    exact (proj1 (names_parent_iff cur _) Hparent). }
  destruct (findPlayerById players (Some parentId)) as [parent|] eqn:Hfind.
  2:{ exists cur. split_and!; [done..|]. do 2 right. left. exists parentId.
      split; [exact (proj1 (names_parent_iff cur _) Hparent)|].
      exact (proj1 (not_cached_iff players _) Hfind). }
  assert (parent_of players cur parent) as Hstep
    by (apply parent_of_iff; by exists parentId).
  apply IH.
  - by eapply findPlayerById_self.
  - assert (player_id cur ∈ cached_ids players) as Hid.
    { destruct (findPlayerById_Some _ _ _ Hcur) as (_ & Hmem & _).
      unfold cached_ids. apply elem_of_list_to_set, list_elem_of_fmap.
      by exists cur. }
    assert (cached_ids players ∖ ({[player_id cur]} ∪ visited)
            ⊂ cached_ids players ∖ visited) as Hsub by set_solver.
    apply subset_size in Hsub. lia.
  - by eapply rtc_r.
  - intros id [->%elem_of_singleton|Hin]%elem_of_union.
    + exists cur. split; [done|]. by apply tc_once.
    + destruct (Hvis _ Hin) as (v & Hv & Htc). exists v.
      split; [done|]. by eapply tc_r.
Qed.

(** A cache with a 2-cycle: A is synced to B and B to A. *)
Definition player (id : string) (parent : option string) : MAPlayer :=
  {| player_id := id; display_name := None; available := None;
     powered := None; state := None; active_source := None;
     volume_level := None; volume_muted := None; group_members := None;
     synced_to := parent; active_group := None |}.

Definition two_cycle : list MAPlayer :=
  [player "A" (Some "B"); player "B" (Some "A")].

(** A household: "kitchen" names "hall" in [synced_to] (with blanks
    around the id) and "attic" in [active_group]; "hall" has a blank
    [synced_to] and names "living" in [active_group]; "porch" names a
    player that is not cached; "den" names itself. *)
Definition member_of (id : string) (leader grp : option string) : MAPlayer :=
  {| player_id := id; display_name := None; available := None;
     powered := None; state := None; active_source := None;
     volume_level := None; volume_muted := None; group_members := None;
     synced_to := leader; active_group := grp |}.

Definition household : list MAPlayer :=
  [member_of "kitchen" (Some " hall ") (Some "attic");
   member_of "hall" (Some "   ") (Some "living");
   member_of "living" None None;
   member_of "attic" None None;
   member_of "porch" (Some "garden") None;
   member_of "den" (Some "den") (Some "living")].

(** C4. For every cache and every start id the loop of
    [resolveControllingPlayer] returns: any fuel from [resolve_fuel] (one
    test of the loop condition per cached player, and one more) on gives
    the same result. That result is null exactly when the start id is not
    in the cache; otherwise it is a cached player reached from the start
    by following parents - the id in [synced_to] when that is a string
    that is not blank, else the one in [active_group], trimmed - and the
    walk stopped there because that player names no parent, names itself,
    names a parent that is not cached, or had been visited before. On the
    2-cycle A -> B -> A the result is A when started from A and B when
    started from B. In the household the walk from "kitchen" goes by
    [synced_to] to "hall" and from there by [active_group] to "living",
    the last player reached; "porch" and "den" are their own results. *)
Theorem resolveControllingPlayer_terminates players playerId :
  (∀ fuel, resolve_fuel players ≤ fuel →
     resolve_loop fuel players (findPlayerById players playerId) ∅
     = Some (resolveControllingPlayer players playerId))
  ∧ match resolveControllingPlayer players playerId with
    | None => ∀ id start, playerId = Some id → ¬ is_cached players id start
    | Some r =>
        ∃ id start,
          playerId = Some id
          ∧ is_cached players id start
          ∧ rtc (parent_of players) start r
          ∧ (no_parent_id r ∨ self_parent r ∨ parent_missing players r
             ∨ revisited players r)
    end
  ∧ resolveControllingPlayer two_cycle (Some "A") = Some (player "A" (Some "B"))
  ∧ resolveControllingPlayer two_cycle (Some "B") = Some (player "B" (Some "A"))
  ∧ resolveControllingPlayer household (Some "kitchen")
    = Some (member_of "living" None None)
  ∧ resolveControllingPlayer household (Some "hall")
    = Some (member_of "living" None None)
  ∧ resolveControllingPlayer household (Some "porch")
    = Some (member_of "porch" (Some "garden") None)
  ∧ resolveControllingPlayer household (Some "den")
    = Some (member_of "den" (Some "den") (Some "living"))
  ∧ resolveControllingPlayer household (Some "garden") = None.
Proof.
  unfold resolveControllingPlayer.
  split_and!; [| |by vm_compute..].
  - intros fuel Hfuel.
    destruct (findPlayerById players playerId) as [start|] eqn:Hstart.
    2:{ unfold resolve_fuel in *. destruct fuel; [lia|done]. }
    destruct playerId as [id|]; [|done].
    destruct (resolve_loop_spec players start (resolve_fuel players) start ∅)
      as (r & Hrun & _).
    + by eapply findPlayerById_self.
    + pose proof (cached_ids_size players).
      pose proof (subseteq_size (cached_ids players ∖ ∅) (cached_ids players)
                    ltac:(set_solver)).
      unfold resolve_fuel. lia.
    + done.
    + set_solver.
    + rewrite Hrun. simpl. by eapply resolve_loop_more_fuel.
  - destruct (findPlayerById players playerId) as [start|] eqn:Hstart.
    2:{ assert (resolve_loop (resolve_fuel players) players None ∅ = Some None)
          as -> by done.
        cbn [default]. intros id start ->.
        exact (proj1 (not_cached_iff players id) Hstart start). }
    destruct playerId as [id|]; [|done].
    destruct (resolve_loop_spec players start (resolve_fuel players) start ∅)
      as (r & Hrun & Hreach & Hstop).
    + by eapply findPlayerById_self.
    + pose proof (cached_ids_size players).
      pose proof (subseteq_size (cached_ids players ∖ ∅) (cached_ids players)
                    ltac:(set_solver)).
      unfold resolve_fuel. lia.
    + done.
    + set_solver.
    + rewrite Hrun. cbn [default]. exists id, start.
      split_and!; [done| |done..].
      exact (proj1 (is_cached_iff players id start) Hstart).
Qed.

(** *** Poll coalescing *)

(** The reconciler is polling: the flag is set exactly while [pollState]
    is suspended, one more cycle was started than finished, and when it
    is not polling no trailing request is left. *)
Definition poll_ok (s : Reconciler.t) : Prop :=
  if pollInFlight s
  then phase s ≠ Idle ∧ cycles_started s = S (cycles_finished s)
  else phase s = Idle ∧ cycles_started s = cycles_finished s
       ∧ pollAgain s = false.

Definition up (env : Env) : bool := isConnected env && isAuthenticated env.

Lemma pollState_spec env s :
  poll_ok s →
  let s' := pollState env s in
  poll_ok s'
  ∧ cycles_finished s' = cycles_finished s
  ∧ if pollInFlight s then s' = set_pollAgain true s
    else pollAgain s' = false
         ∧ if up env
           then pollInFlight s' = true
                ∧ phase s' = AwaitingLists (defaultPlayerId env)
                ∧ cycles_started s' = S (cycles_started s)
           else pollInFlight s' = false ∧ cycles_started s' = cycles_started s.
Proof.
  unfold poll_ok, pollState, up. destruct s as [inFlight again ? ? ? ? ? ph st fi tr].
  destruct env as [conn auth dflt]. cbn.
  destruct inFlight; cbn; [done|].
  intros (-> & -> & ->). destruct conn, auth; cbn; done.
Qed.

Lemma poll_finally_spec env s :
  pollInFlight s = true →
  cycles_started s = S (cycles_finished s) →
  let s' := poll_finally env s in
  poll_ok s'
  ∧ cycles_finished s' = S (cycles_finished s)
  ∧ pollAgain s' = false
  ∧ if pollAgain s && up env
    then pollInFlight s' = true
         ∧ phase s' = AwaitingLists (defaultPlayerId env)
         ∧ cycles_started s' = S (cycles_started s)
    else pollInFlight s' = false ∧ cycles_started s' = cycles_started s.
Proof.
  unfold poll_ok, poll_finally, pollState, up.
  destruct s as [inFlight again ? ? ? ? ? ph st fi tr].
  destruct env as [conn auth dflt]. cbn. intros -> ->.
  destruct again, conn, auth; cbn; done.
Qed.

(** The effects that do not touch the poll flags. *)
Definition same_poll (s s' : Reconciler.t) : Prop :=
  pollInFlight s' = pollInFlight s ∧ pollAgain s' = pollAgain s
  ∧ cycles_started s' = cycles_started s
  ∧ cycles_finished s' = cycles_finished s.

Lemma poll_publish_spec env s :
  pollInFlight s = true →
  cycles_started s = S (cycles_finished s) →
  let s' := poll_publish env s in
  poll_ok s'
  ∧ cycles_finished s' = S (cycles_finished s)
  ∧ pollAgain s' = false
  ∧ if pollAgain s && up env
    then pollInFlight s' = true
         ∧ phase s' = AwaitingLists (defaultPlayerId env)
         ∧ cycles_started s' = S (cycles_started s)
    else pollInFlight s' = false ∧ cycles_started s' = cycles_started s.
Proof.
  intros Hfl Hst. unfold poll_publish.
  apply (poll_finally_spec env (emitStatus (emitPlayersAndState s))); done.
Qed.

Lemma step_poll_ok s ev : poll_ok s → poll_ok (step s ev).
Proof.
  intros Hok. destruct ev as [env|env|delay|env r|env r]; cbn [step].
  - by apply pollState_spec.
  - unfold onScheduledPoll. destruct (scheduledPoll s) eqn:Hsched; [|done].
    apply pollState_spec. revert Hok. unfold poll_ok. by destruct s.
  - revert Hok. unfold poll_ok, schedulePollSoon.
    destruct s as [inFlight again sched ? ? ? ? ph st fi tr]. cbn.
    by destruct sched.
  - unfold onListsSettled. destruct (phase s) eqn:Hph; try done.
    assert (pollInFlight s = true ∧ cycles_started s = S (cycles_finished s))
      as [Hfl Hst].
    { revert Hok. unfold poll_ok. destruct (pollInFlight s); [naive_solver|].
      intros [? _]. congruence. }
    destruct r as [[players queues]|reason].
    + cbn zeta.
      destruct (resolveQueueForPlayer _ _) as [queue|].
      * destruct (JS.truthy (queue_id queue)).
        -- revert Hfl Hst. unfold poll_ok. destruct s. cbn. by intros -> ->.
        -- by apply poll_publish_spec.
      * by apply poll_publish_spec.
    + by apply (poll_finally_spec env (emitStatus (emitError "ma:poll" reason s))).
  - unfold onItemsSettled. destruct (phase s) eqn:Hph; try done.
    assert (pollInFlight s = true ∧ cycles_started s = S (cycles_finished s))
      as [Hfl Hst].
    { revert Hok. unfold poll_ok. destruct (pollInFlight s); [naive_solver|].
      intros [? _]. congruence. }
    by apply poll_publish_spec.
Qed.

Lemma run_poll_ok evs s : poll_ok s → poll_ok (run s evs).
Proof.
  revert s. induction evs as [|ev evs IH]; intros s Hok; [done|].
  apply IH. by apply step_poll_ok.
Qed.

Lemma settle_cycle_spec env lists items s d :
  phase s = AwaitingLists d → pollInFlight s = true →
  cycles_started s = S (cycles_finished s) →
  let s' := settle_cycle env lists items s in
  cycles_finished s' = S (cycles_finished s)
  ∧ pollAgain s' = false
  ∧ if pollAgain s && up env
    then pollInFlight s' = true
         ∧ phase s' = AwaitingLists (defaultPlayerId env)
         ∧ cycles_started s' = S (cycles_started s)
    else pollInFlight s' = false ∧ phase s' = Idle
         ∧ cycles_started s' = cycles_started s.
Proof.
  intros Hph Hfl Hst. unfold settle_cycle, run. cbn [foldl step].
  set (sl := onListsSettled env lists s).
  (* the cycle ended with the lists, or it waits for the items *)
  assert ((∃ s0, sl = poll_finally env s0 ∧ same_poll s s0)
          ∨ (phase sl = AwaitingItems ∧ same_poll s sl)) as [(s0 & -> & Hs0)|[Hsl Hsame]].
  { subst sl. unfold onListsSettled. rewrite Hph.
    destruct lists as [[players queues]|reason]; cbn zeta.
    - destruct (resolveQueueForPlayer _ _) as [queue|].
      + destruct (JS.truthy (queue_id queue)).
        * right. by destruct s.
        * left. unfold poll_publish. eexists. split; [done|]. by destruct s.
      + left. unfold poll_publish. eexists. split; [done|]. by destruct s.
    - left. eexists. split; [done|]. by destruct s. }
  - destruct Hs0 as (Hfl0 & Hag0 & Hst0 & Hfi0).
    destruct (poll_finally_spec env s0) as (Hok & Hfi & Hag & Hre);
      [congruence..|].
    cbn zeta in *. rewrite Hag0 in Hre. unfold onItemsSettled.
    revert Hok. unfold poll_ok.
    destruct (pollAgain s && up env).
    + destruct Hre as (Hfl1 & Hph1 & Hst1). rewrite Hph1.
      intros _. split_and!; congruence.
    + destruct Hre as (Hfl1 & Hst1). rewrite Hfl1. intros (Hph1 & _).
      rewrite Hph1. split_and!; congruence.
  - destruct Hsame as (Hfl0 & Hag0 & Hst0 & Hfi0).
    unfold onItemsSettled. rewrite Hsl.
    match goal with
    | |- context [poll_publish env ?s0] => set (sb := s0)
    end.
    assert (same_poll sl sb) as (Hfl1 & Hag1 & Hst1 & Hfi1)
      by (subst sb; by destruct sl).
    destruct (poll_publish_spec env sb) as (Hok & Hfi & Hag & Hre);
      [congruence..|].
    cbn zeta in *. rewrite Hag1, Hag0 in Hre.
    revert Hok. unfold poll_ok.
    destruct (pollAgain s && up env).
    + destruct Hre as (Hfl2 & Hph2 & Hst2). intros _.
      split_and!; congruence.
    + destruct Hre as (Hfl2 & Hst2). rewrite Hfl2. intros (Hph2 & _).
      split_and!; congruence.
Qed.

Lemma iter_pollState_in_flight env n s :
  pollInFlight s = true →
  Nat.iter (S n) (pollState env) s = set_pollAgain true s.
Proof.
  intros Hfl. induction n as [|n IH].
  - simpl. unfold pollState. by rewrite Hfl.
  - rewrite Nat.iter_succ, IH. unfold pollState. cbn.
    rewrite Hfl. by destruct s.
Qed.

(** C5. (i) While a poll is in flight [pollState] only sets the trailing
    flag: no command, no cycle. (ii) In every reachable state at most one
    cycle is running: the cycles started exceed the cycles finished by
    one while the flag is set and by none otherwise. (iii) When the cycle
    in flight finishes, [pollState] is run again exactly once if the
    trailing flag was set (and the flag is cleared), and not otherwise;
    the re-run starts a cycle only when the client is connected and
    authenticated at that moment. (iv) One poll started from rest, with
    the client connected and authenticated, and then triggered again any
    number of times (once or more) before it finishes makes exactly two
    completed cycles if the client is still connected and authenticated
    when the first cycle ends, after which the reconciler is at rest; if
    the client is not, the re-run only reports the status, and exactly
    one cycle is completed. *)
Theorem poll_cycles_coalesce :
  (∀ env s, pollInFlight s = true → pollState env s = set_pollAgain true s)
  ∧ (∀ evs, poll_ok (run init evs))
  ∧ (∀ env s,
       pollInFlight s = true → cycles_started s = S (cycles_finished s) →
       let s' := poll_finally env s in
       cycles_finished s' = S (cycles_finished s)
       ∧ pollAgain s' = false
       ∧ cycles_started s'
         = cycles_started s + (if pollAgain s && up env then 1 else 0)
       ∧ pollInFlight s' = (pollAgain s && up env))
  ∧ (∀ env0 env env1 evs n lists1 items1,
       up env0 = true →
       let s0 := run init evs in
       pollInFlight s0 = false →
       let s1 := pollState env0 s0 in
       let s2 := Nat.iter (S n) (pollState env) s1 in
       let s3 := settle_cycle env1 lists1 items1 s2 in
       pollInFlight s2 = true
       ∧ cycles_started s2 = S (cycles_started s0)
       ∧ cycles_finished s2 = cycles_finished s0
       ∧ if up env1
         then ∀ env2 lists2 items2,
                let s4 := settle_cycle env2 lists2 items2 s3 in
                cycles_finished s4 = cycles_finished s0 + 2
                ∧ cycles_started s4 = cycles_started s0 + 2
                ∧ pollInFlight s4 = false ∧ pollAgain s4 = false
         else cycles_finished s3 = cycles_finished s0 + 1
              ∧ cycles_started s3 = cycles_started s0 + 1
              ∧ pollInFlight s3 = false ∧ pollAgain s3 = false
              ∧ phase s3 = Idle).
Proof.
  split_and!.
  - intros env s Hfl. unfold pollState. by rewrite Hfl.
  - intros evs. apply run_poll_ok. by cbn.
  - intros env s Hfl Hst.
    destruct (poll_finally_spec env s Hfl Hst) as (_ & Hfi & Hag & Hre).
    cbn zeta in *. destruct (pollAgain s && up env).
    + destruct Hre as (-> & _ & ->). split_and!; [done..|lia|done].
    + destruct Hre as (-> & ->). split_and!; [done..|lia|done].
  - intros env0 env env1 evs n lists1 items1 Hup s0 Hidle s1 s2 s3.
    pose proof (run_poll_ok evs init ltac:(by cbn)) as Hok0. fold s0 in Hok0.
    destruct (pollState_spec env0 s0 Hok0) as (Hok1 & Hfi1 & Hre1).
    fold s1 in Hok1, Hfi1, Hre1. rewrite Hidle, Hup in Hre1.
    destruct Hre1 as (Hag1 & Hfl1 & Hph1 & Hst1).
    assert (s2 = set_pollAgain true s1) as Hs2
      by (by apply iter_pollState_in_flight).
    assert (cycles_started s0 = cycles_finished s0) as Hrest.
    { revert Hok0. unfold poll_ok. rewrite Hidle. naive_solver. }
    destruct (settle_cycle_spec env1 lists1 items1 s2 (defaultPlayerId env0))
      as (Hfi3 & Hag3 & Hre3).
    { rewrite Hs2. by destruct s1. }
    { rewrite Hs2. by destruct s1. }
    { rewrite Hs2. destruct s1. cbn in *. lia. }
    fold s3 in Hfi3, Hag3, Hre3.
    replace (pollAgain s2) with true in Hre3 by (rewrite Hs2; by destruct s1).
    assert (cycles_started s2 = cycles_started s1
            ∧ cycles_finished s2 = cycles_finished s1
            ∧ pollInFlight s2 = pollInFlight s1) as (Hst2 & Hfi2 & Hfl2).
    { rewrite Hs2. by destruct s1. }
    split; [congruence|]. split; [congruence|]. split; [congruence|].
    cbn [andb] in Hre3. destruct (up env1).
    + destruct Hre3 as (Hfl3 & Hph3 & Hst3).
      intros env2 lists2 items2 s4.
      destruct (settle_cycle_spec env2 lists2 items2 s3 (defaultPlayerId env1))
        as (Hfi4 & Hag4 & Hre4); [done|done|lia|].
      fold s4 in Hfi4, Hag4, Hre4. rewrite Hag3 in Hre4. cbn [andb] in Hre4.
      destruct Hre4 as (Hfl4 & Hph4 & Hst4).
      split_and!; try done; lia.
    + destruct Hre3 as (Hfl3 & Hph3 & Hst3).
      split_and!; try done; lia.
Qed.

(** *** Volume targeting *)

Lemma foldl_Set_add acc xs :
  NoDup acc →
  NoDup (foldl JS.Set_add acc xs)
  ∧ (∀ x, x ∈ foldl JS.Set_add acc xs ↔ x ∈ acc ∨ x ∈ xs)
  ∧ (NoDup (acc ++ xs) → foldl JS.Set_add acc xs = acc ++ xs).
Proof.
  revert acc. induction xs as [|y xs IH]; intros acc Hacc; simpl.
  - split_and!; [done| |by rewrite app_nil_r].
    intros x. rewrite elem_of_nil. tauto.
  - assert (NoDup (JS.Set_add acc y)) as Hadd.
    { unfold JS.Set_add. case_decide; [done|].
      apply NoDup_app. split_and!; [done| |apply NoDup_singleton].
      intros x Hx ->%list_elem_of_singleton. done. }
    destruct (IH _ Hadd) as (Hnd & Hin & Heq). split_and!; [done| |].
    + intros x. rewrite Hin, elem_of_cons. unfold JS.Set_add.
      case_decide.
      * split; [tauto|]. intros [?|[->|?]]; tauto.
      * rewrite elem_of_app, list_elem_of_singleton. tauto.
    + intros Hall. unfold JS.Set_add in *.
      apply NoDup_app in Hall as (_ & Hdisj & Hxs).
      rewrite decide_False in Heq |- *.
      2,3: intros Hy; apply (Hdisj _ Hy); left.
      rewrite Heq, <-app_assoc; [done|].
      rewrite <-app_assoc. apply NoDup_app. split_and!; [done| |done].
      intros x Hx. apply Hdisj in Hx. done.
Qed.

Lemma foldl_Set_add_sublist acc xs :
  ∃ ys, foldl JS.Set_add acc xs = acc ++ ys ∧ ys `sublist_of` xs.
Proof.
  revert acc. induction xs as [|y xs IH]; intros acc; simpl.
  - exists []. by rewrite app_nil_r.
  - unfold JS.Set_add at 2. case_decide.
    + destruct (IH acc) as (ys & -> & Hsub). exists ys.
      split; [done|]. by apply sublist_cons.
    + destruct (IH (acc ++ [y])) as (ys & -> & Hsub). exists (y :: ys).
      split; [by rewrite <-app_assoc|]. by apply sublist_skip.
Qed.

Lemma Set_from_sublist xs : JS.Set_from xs `sublist_of` xs.
Proof.
  unfold JS.Set_from.
  by destruct (foldl_Set_add_sublist [] xs) as (ys & -> & Hsub).
Qed.

Lemma Set_from_spec xs :
  NoDup (JS.Set_from xs)
  ∧ (∀ x, x ∈ JS.Set_from xs ↔ x ∈ xs)
  ∧ (NoDup xs → JS.Set_from xs = xs).
Proof.
  destruct (foldl_Set_add [] xs (NoDup_nil_2)) as (Hnd & Hin & Heq).
  split_and!; [done| |done].
  intros x. rewrite Hin, elem_of_nil. tauto.
Qed.



(** [clamp] and [Math.round] *)

Lemma clamp_bounds (value : Q) : (0 <= clamp value <= 100)%Q.
Proof.
  unfold clamp, JS.Math_min, JS.Math_max.
  destruct (Qle_bool 0 value) eqn:H0.
  - destruct (Qle_bool 100 value) eqn:H100.
    + done.
    + apply Qle_bool_iff in H0. split; [done|].
      apply Qlt_le_weak, Qnot_le_lt. intros Hle.
      apply Qle_bool_iff in Hle. congruence.
  - done.
Qed.

Lemma clamp_in_range (value : Q) :
  (0 <= value <= 100)%Q → (clamp value == value)%Q.
Proof.
  intros [H0 H100]. unfold clamp, JS.Math_min, JS.Math_max.
  apply Qle_bool_iff in H0. rewrite H0.
  destruct (Qle_bool 100 value) eqn:Hle; [|done].
  apply Qle_bool_iff in Hle. by apply Qle_antisym.
Qed.

(** The nearest integer, ties upwards, and a value limited to a range,
    in the words of the specification. *)
Definition rounds_to (x : Q) (n : Z) : Prop :=
  (inject_Z n - (1 # 2) <= x)%Q ∧ (x < inject_Z n + (1 # 2))%Q.

Definition limited (low high value result : Q) : Prop :=
  ((value < low)%Q ∧ result = low)
  ∨ ((high <= value)%Q ∧ result = high)
  ∨ ((low <= value)%Q ∧ (value < high)%Q ∧ result = value).

Lemma Math_round_rounds (x : Q) :
  ∃ n : Z, rounds_to x n ∧ JS.Math_round x = inject_Z n.
Proof.
  exists (Qfloor (x + (1 # 2))). split; [|done].
  pose proof (Qfloor_le (x + (1 # 2))) as Hle.
  pose proof (Qlt_floor (x + (1 # 2))) as Hlt.
  rewrite inject_Z_plus in Hlt. change (inject_Z 1) with 1%Q in Hlt.
  unfold rounds_to. set (n := inject_Z _) in *. clearbody n. split; lra.
Qed.

Lemma rounds_to_unique (x : Q) (n m : Z) :
  rounds_to x n → rounds_to x m → n = m.
Proof.
  intros [Hn1 Hn2] [Hm1 Hm2].
  assert (inject_Z n < inject_Z (m + 1))%Q as H1
    by (rewrite inject_Z_plus; change (inject_Z 1) with 1%Q; lra).
  assert (inject_Z m < inject_Z (n + 1))%Q as H2
    by (rewrite inject_Z_plus; change (inject_Z 1) with 1%Q; lra).
  rewrite <-Zlt_Qlt in H1, H2. lia.
Qed.

Lemma Qle_bool_false (a b : Q) : Qle_bool a b = false ↔ (b < a)%Q.
Proof.
  split.
  - intros Hf. apply Qnot_le_lt. intros Hle%Qle_bool_iff. congruence.
  - intros Hlt. destruct (Qle_bool a b) eqn:Hle; [|done].
    apply Qle_bool_iff in Hle. lra.
Qed.

Lemma Math_min_max_limited (low high value : Q) :
  (low < high)%Q →
  limited low high value (JS.Math_min high (JS.Math_max low value)).
Proof.
  intros Hrange. unfold limited, JS.Math_min, JS.Math_max.
  destruct (Qle_bool low value) eqn:Hlow.
  - apply Qle_bool_iff in Hlow.
    destruct (Qle_bool high value) eqn:Hhigh.
    + apply Qle_bool_iff in Hhigh. right. left. done.
    + apply Qle_bool_false in Hhigh. right. right. done.
  - apply Qle_bool_false in Hlow.
    destruct (Qle_bool high low) eqn:Hhigh.
    + apply Qle_bool_iff in Hhigh. lra.
    + left. done.
Qed.

(** The cached volume of a player, if any. *)
Definition cached_volume (s : Reconciler.t) (playerId : string) : option Q :=
  findPlayerById (playersCache s) (Some playerId) ≫= volume_level.

(** The last-known volume of a player: the level its cached player
    carries. *)
Definition last_known (s : Reconciler.t) (playerId : string) (level : Q)
    : Prop :=
  ∃ p, is_cached (playersCache s) playerId p ∧ volume_level p = Some level.

Lemma cached_volume_Some s playerId level :
  cached_volume s playerId = Some level ↔ last_known s playerId level.
Proof.
  unfold cached_volume, last_known. split.
  - destruct (findPlayerById _ _) as [p|] eqn:Hp; [|done]. cbn.
    intros Hlevel. exists p. split; [|done].
    exact (proj1 (is_cached_iff _ _ _) Hp).
  - intros (p & Hp & Hlevel). apply is_cached_iff in Hp. by rewrite Hp.
Qed.

Lemma getVolumeTargetPlayerIds_NoDup scope explicitPlayerIds s ids :
  getVolumeTargetPlayerIds scope explicitPlayerIds s = Normal ids → NoDup ids.
Proof.
  unfold getVolumeTargetPlayerIds.
  destruct (0 <? _)%nat; [intros [= <-]; apply Set_from_spec|].
  destruct (findPlayerById _ _) as [selected_|]; [|done].
  destruct scope; [intros [= <-]; apply NoDup_singleton|].
  match goal with
  | |- context [if ?b then Normal _ else Normal _] => destruct b
  end; intros [= <-]; [apply Set_from_spec|apply NoDup_singleton].
Qed.

(** The example of the specification: p1 at 30 and p2 at 50, grouped
    under p1. As the server reports a group, the leader's [group_members]
    lists the leader itself and its member, and the member is synced to the
    leader. *)
Definition p1 : MAPlayer :=
  {| player_id := "p1"; display_name := None; available := None;
     powered := None; state := None; active_source := None;
     volume_level := Some 30%Q; volume_muted := None;
     group_members := Some ["p1"; "p2"];
     synced_to := None; active_group := None |}.

Definition p2 : MAPlayer :=
  {| player_id := "p2"; display_name := None; available := None;
     powered := None; state := None; active_source := None;
     volume_level := Some 50%Q; volume_muted := None;
     group_members := None;
     synced_to := Some "p1"; active_group := None |}.

Definition grouped (sel : string) : Reconciler.t :=
  set_caches (Some sel) [p1; p2] [] init.

(** C6. [adjustVolume] with scope [group] starts one task per resolved
    target, each independent of the others. The task of a target whose
    volume is cached sends [players/cmd/volume_set] at once, for that
    player, with the cached volume plus the rounded delta (the nearest
    integer, ties upwards), limited to 0..100: 0 when the sum is below 0
    and 100 when it is above. Only a target without a cached volume first
    sends [players/get], and sets the fetched volume (0 if it has none)
    plus the rounded delta, limited in the same way, when the reply
    arrives. With p1 at 30 and p2 at 50 grouped under p1 and delta 10 the
    commands are [volume_set] 40 for p1 and 60 for p2, whichever of the
    two is selected; with delta 9.5 they are the same, with delta 80 both
    are set to 100 and with delta -40 p1 is set to 0 and p2 to 10. *)
Theorem adjustVolume_group delta s :
  (∃ n : Z,
     rounds_to delta n
     ∧ match getVolumeTargetPlayerIds group [] s with
       | Throw error => adjustVolume delta group [] s = Throw error
       | Normal targets =>
           ∃ tasks,
             adjustVolume delta group [] s = Normal tasks
             ∧ length tasks = length targets
             ∧ ∀ i playerId,
                 targets !! i = Some playerId →
                 (∀ level,
                    last_known s playerId level →
                    ∃ volume,
                      limited 0 100 (level + inject_Z n) volume
                      ∧ tasks !! i
                        = Some (SetNow
                                  {| command := "players/cmd/volume_set";
                                     args := [("player_id", JStr playerId);
                                              ("volume_level", JNum volume)]
                                  |}))
                 ∧ ((∀ level, ¬ last_known s playerId level) →
                    ∃ next,
                      tasks !! i
                      = Some (FetchThenSet
                                {| command := "players/get";
                                   args := [("player_id", JStr playerId);
                                            ("raise_unavailable", JBool true)]
                                |} next)
                      ∧ ∀ fresh,
                          ∃ volume,
                            limited 0 100
                              (default 0%Q (volume_level fresh) + inject_Z n)
                              volume
                            ∧ next fresh
                              = {| command := "players/cmd/volume_set";
                                   args := [("player_id", JStr playerId);
                                            ("volume_level", JNum volume)]
                                |})
       end)
  ∧ (let sets (playerId : string) (volume : Q) :=
       SetNow {| command := "players/cmd/volume_set";
                 args := [("player_id", JStr playerId);
                          ("volume_level", JNum volume)] |} in
     adjustVolume 10 group [] (grouped "p1")
     = Normal [sets "p1" 40%Q; sets "p2" 60%Q]
     ∧ adjustVolume 10 group [] (grouped "p2")
       = Normal [sets "p1" 40%Q; sets "p2" 60%Q]
     ∧ adjustVolume (19 # 2) group [] (grouped "p1")
       = Normal [sets "p1" 40%Q; sets "p2" 60%Q]
     ∧ adjustVolume 80 group [] (grouped "p1")
       = Normal [sets "p1" 100%Q; sets "p2" 100%Q]
     ∧ adjustVolume (-40) group [] (grouped "p1")
       = Normal [sets "p1" 0%Q; sets "p2" 10%Q]).
Proof.
  split; [|by vm_compute].
  destruct (Math_round_rounds delta) as (n & Hn & Hround). exists n.
  split; [done|]. unfold adjustVolume.
  destruct (getVolumeTargetPlayerIds group [] s) as [targets|error] eqn:Hids;
    [|done].
  apply getVolumeTargetPlayerIds_NoDup in Hids.
  rewrite (proj2 (proj2 (Set_from_spec targets)) Hids).
  eexists. split; [done|]. rewrite length_map. split; [done|].
  intros i playerId Hi.
  change (List.map ?f targets) with (f <$> targets).
  rewrite list_lookup_fmap, Hi. cbn [fmap option_fmap option_map].
  rewrite Hround. unfold adjust_one.
  assert (getCurrentVolume playerId s
          = match cached_volume s playerId with
            | Some level => Cached level
            | None =>
                Fetch (players_get playerId)
                  (fun fresh => default 0%Q (volume_level fresh))
            end) as ->.
  { unfold getCurrentVolume, cached_volume, JS.Number_isFinite.
    destruct (findPlayerById _ _) as [p|]; [|done]. cbn.
    by destruct (volume_level p). }
  destruct (cached_volume s playerId) as [level|] eqn:Hcached.
  - apply cached_volume_Some in Hcached. split.
    + intros level' (p' & Hp' & Hlevel').
      destruct Hcached as (p & Hp & Hlevel).
      apply is_cached_iff in Hp, Hp'.
      assert (level' = level) as -> by congruence.
      eexists. split; [|done].
      apply (Math_min_max_limited 0 100). lra.
    + intros Hno. by apply Hno in Hcached.
  - split.
    + intros level Hlevel%cached_volume_Some. congruence.
    + intros _. eexists. split; [done|]. intros fresh.
      eexists. split; [|done].
      apply (Math_min_max_limited 0 100). lra.
Qed.

(** *** Examples *)

Lemma resolveControllingPlayer_terminates_witness :
  resolve_loop 5 two_cycle (findPlayerById two_cycle (Some "A")) ∅
  = Some (resolveControllingPlayer two_cycle (Some "A")).
Proof.
  apply (proj1 (resolveControllingPlayer_terminates two_cycle (Some "A"))).
  vm_compute. repeat constructor.
Defined.

Definition connected_env : Env :=
  {| isConnected := true; isAuthenticated := true; defaultPlayerId := "" |}.

Definition q1 : MAQueue :=
  {| queue_id := "q1"; queue_player_id := Some "p1"; queue_state := None;
     shuffle_enabled := None; repeat_mode := None; elapsed_time := None;
     current_item := None |}.

Definition offline_env : Env :=
  {| isConnected := false; isAuthenticated := false; defaultPlayerId := "" |}.

(** A poll from rest, two more triggers while it runs, the replies of the
    first cycle (lists, then queue items), and a failed second cycle. *)
Lemma poll_cycles_coalesce_witness :
  let env := connected_env in
  let lists1 := Fulfilled (Some [p1; p2], Some [q1]) in
  let items1 := Fulfilled (Some [JObj [("name", JStr "track")]]) in
  let lists2 := Rejected "Socket closed." in
  let items2 := Rejected "Socket closed." in
  let s0 := run init [] in
  let s1 := pollState env s0 in
  let s2 := Nat.iter 2 (pollState env) s1 in
  let s3 := settle_cycle env lists1 items1 s2 in
  let s4 := settle_cycle env lists2 items2 s3 in
  pollInFlight s2 = true
  ∧ cycles_started s2 = S (cycles_started s0)
  ∧ cycles_finished s2 = cycles_finished s0
  ∧ cycles_finished s4 = cycles_finished s0 + 2
  ∧ cycles_started s4 = cycles_started s0 + 2
  ∧ pollInFlight s4 = false ∧ pollAgain s4 = false.
Proof.
  intros env lists1 items1 lists2 items2.
  pose proof (proj2 (proj2 (proj2 poll_cycles_coalesce)) env env env [] 1
                lists1 items1 eq_refl eq_refl) as (Hfl & Hst & Hfi & Hend).
  split; [exact Hfl|]. split; [exact Hst|]. split; [exact Hfi|].
  exact (Hend env lists2 items2).
Defined.

(** What the specification says of a poll triggered twice more while
    it is in flight: two completed cycles. *)
Definition claimed_cycles (before after : Reconciler.t) : Prop :=
  cycles_finished after = cycles_finished before + 2.

(** A poll is started and triggered twice more while it is in flight;
    then the connection is lost and the commands of the cycle fail. The
    trailing re-run finds the client off line and only reports the
    status: one cycle is completed, the reconciler is at rest, and no
    reply that may still come completes another. *)
Lemma trailing_poll_counterexample :
  let s2 :=
    run init [Trigger connected_env; Trigger connected_env;
              Trigger connected_env] in
  let s := step s2 (ListsSettled offline_env (Rejected "Socket closed.")) in
  pollInFlight s2 = true ∧ pollAgain s2 = true
  ∧ trace s
    = trace s2 ++ [EmitError "ma:poll" "Socket closed."; EmitStatus; EmitStatus]
  ∧ pollInFlight s = false ∧ pollAgain s = false ∧ phase s = Idle
  ∧ cycles_started s = 1 ∧ cycles_finished s = 1
  ∧ (∀ env lists items, settle_cycle env lists items s = s)
  ∧ ¬ claimed_cycles init s.
Proof.
  split_and!; try (vm_compute; reflexivity).
  vm_compute. discriminate.
Qed.

Example two_triggers_two_cycles :
  let s :=
    run init
      [Trigger connected_env; Trigger connected_env; Trigger connected_env;
       ListsSettled connected_env (Fulfilled (Some [p1; p2], Some [q1]));
       ItemsSettled connected_env (Fulfilled (Some []));
       ListsSettled connected_env (Rejected "Socket closed.")] in
  cycles_started s = 2 ∧ cycles_finished s = 2
  ∧ pollInFlight s = false ∧ pollAgain s = false
  ∧ trace s
    = [Send {| command := "players/all"; args := [] |};
       Send {| command := "player_queues/all"; args := [] |};
       Send {| command := "player_queues/items";
               args := [("queue_id", JStr "q1"); ("limit", JNum 25);
                        ("offset", JNum 0)] |};
       EmitPlayersAndState; EmitStatus;
       Send {| command := "players/all"; args := [] |};
       Send {| command := "player_queues/all"; args := [] |};
       EmitError "ma:poll" "Socket closed."; EmitStatus].
Proof. vm_compute. repeat split. Qed.

Example explicit_ids_example :
  getVolumeTargetPlayerIds group [" p2 "; "  "; "p2"; "p1"] init
  = Normal ["p2"; "p1"]
  ∧ getVolumeTargetPlayerIds selected ["  "] init = Throw "No player selected.".
Proof. vm_compute. repeat split. Qed.

End ReconcilerFacts.

(** * Strings *)

Section StringFacts.

(** The characters of a string, to reason on lists. *)
Definition chars (s : string) : list Ascii.ascii :=
  String.list_ascii_of_string s.

Lemma chars_inj s1 s2 : chars s1 = chars s2 → s1 = s2.
Proof.
  unfold chars. intros Heq.
  rewrite <-(String.string_of_list_ascii_of_string s1),
    <-(String.string_of_list_ascii_of_string s2). by rewrite Heq.
Qed.

Lemma chars_rev_app s1 s2 :
  chars (String.rev_app s1 s2) = rev_append (chars s1) (chars s2).
Proof.
  unfold chars. revert s2.
  induction s1 as [|a s1 IH]; intros s2; simpl; [done|]. by rewrite IH.
Qed.

Lemma chars_rev s : chars (String.rev s) = reverse (chars s).
Proof. unfold String.rev. by rewrite chars_rev_app. Qed.

Lemma chars_app s1 s2 : chars (s1 ++ s2) = chars s1 ++ chars s2.
Proof.
  unfold chars. induction s1 as [|a s1 IH]; simpl; [done|]. by rewrite IH.
Qed.

(** Dropping the leading characters that satisfy a test, and the
    trailing ones. *)
Fixpoint skip (test : Ascii.ascii → bool) (l : list Ascii.ascii)
    : list Ascii.ascii :=
  match l with
  | a :: l' => if test a then skip test l' else l
  | [] => []
  end.

Definition skip_end (test : Ascii.ascii → bool) (l : list Ascii.ascii)
    : list Ascii.ascii :=
  reverse (skip test (reverse l)).

Definition clean_start (test : Ascii.ascii → bool) (l : list Ascii.ascii) : Prop :=
  match l with
  | a :: _ => test a = false
  | [] => True
  end.

Definition clean_end (test : Ascii.ascii → bool) (l : list Ascii.ascii) : Prop :=
  clean_start test (reverse l).

Lemma skip_clean test l : clean_start test (skip test l).
Proof.
  induction l as [|a l IH]; simpl; [done|]. by destruct (test a) eqn:Ha.
Qed.

Lemma skip_id test l : clean_start test l → skip test l = l.
Proof. destruct l as [|a l]; simpl; [done|]. by intros ->. Qed.

Lemma skip_suffix test l : ∃ dropped, l = dropped ++ skip test l
  ∧ Forall (fun a => test a = true) dropped.
Proof.
  induction l as [|a l IH]; simpl.
  - by exists [].
  - destruct (test a) eqn:Ha.
    + destruct IH as (dropped & Heq & Hall). exists (a :: dropped).
      split; [simpl; by rewrite <-Heq|by constructor].
    + by exists [].
Qed.

Lemma skip_end_clean test l : clean_end test (skip_end test l).
Proof.
  unfold clean_end, skip_end. rewrite reverse_involutive. apply skip_clean.
Qed.

Lemma skip_end_id test l : clean_end test l → skip_end test l = l.
Proof.
  unfold clean_end, skip_end. intros Hclean.
  by rewrite skip_id, reverse_involutive.
Qed.

Lemma skip_end_prefix test l : ∃ dropped, l = skip_end test l ++ dropped
  ∧ Forall (fun a => test a = true) dropped.
Proof.
  unfold skip_end. destruct (skip_suffix test (reverse l))
    as (dropped & Heq & Hall).
  exists (reverse dropped). split.
  - rewrite <-reverse_app, <-Heq. by rewrite reverse_involutive.
  - by apply Forall_reverse.
Qed.

(** Dropping at the end keeps a clean start. *)
Lemma skip_end_clean_start test l :
  clean_start test l → clean_start test (skip_end test l).
Proof.
  destruct l as [|a l]; [done|]. simpl. intros Ha.
  unfold skip_end. rewrite reverse_cons.
  assert (∀ x, ∃ x', skip test (x ++ [a]) = x' ++ [a]) as Hkeep.
  { intros x. induction x as [|b x IH]; simpl.
    - rewrite Ha. by exists [].
    - destruct (test b); [done|]. by exists (b :: x). }
  destruct (Hkeep (reverse l)) as (x' & ->).
  by rewrite reverse_app.
Qed.

Lemma chars_trimStart s : chars (JS.trimStart s) = skip Ascii.is_space (chars s).
Proof.
  unfold chars. induction s as [|a s IH]; simpl; [done|].
  by destruct (Ascii.is_space a).
Qed.

Lemma chars_trimEnd s : chars (JS.trimEnd s) = skip_end Ascii.is_space (chars s).
Proof.
  unfold JS.trimEnd, skip_end. by rewrite chars_rev, chars_trimStart, chars_rev.
Qed.

Lemma chars_trim s :
  chars (JS.trim s) = skip_end Ascii.is_space (skip Ascii.is_space (chars s)).
Proof. unfold JS.trim. by rewrite chars_trimEnd, chars_trimStart. Qed.

(** A trimmed string has no white space at either end, so trimming it
    again changes nothing. *)
Lemma trim_clean s :
  clean_start Ascii.is_space (chars (JS.trim s))
  ∧ clean_end Ascii.is_space (chars (JS.trim s)).
Proof.
  rewrite chars_trim. split.
  - apply skip_end_clean_start, skip_clean.
  - apply skip_end_clean.
Qed.

Lemma trim_id s :
  clean_start Ascii.is_space (chars s) → clean_end Ascii.is_space (chars s) →
  JS.trim s = s.
Proof.
  intros Hstart Hend. apply chars_inj.
  by rewrite chars_trim, skip_id, skip_end_id.
Qed.

Lemma trim_trim s : JS.trim (JS.trim s) = JS.trim s.
Proof. apply trim_id; apply trim_clean. Qed.

End StringFacts.

(** * Properties of the request handlers *)

Section RequestFacts.
Import Reconciler Requests.

Implicit Types (players : list MAPlayer) (queues : list MAQueue)
  (s : Reconciler.t) (payload : option JSON).

(** ** The selection *)

Lemma truthy_ne (x : string) : JS.truthy x = true ↔ x ≠ "".
Proof. destruct x; simpl; split; done. Qed.

Lemma pickSelectedPlayerId_cached players preferred default_ :
  let ids := player_id <$> players in
  let picked := pickSelectedPlayerId players preferred default_ in
  (picked = None ↔ players = [])
  ∧ (∀ id, picked = Some id → id ∈ ids)
  ∧ (∀ id, preferred = Some id → id ≠ "" → id ∈ ids → picked = Some id)
  ∧ (picked ≠ preferred → default_ ≠ "" → default_ ∈ ids →
     picked = Some default_)
  ∧ (picked ≠ preferred → picked ≠ Some default_ →
     picked = player_id <$> head players).
Proof.
  intros ids picked. subst picked. unfold pickSelectedPlayerId.
  change (List.map player_id players) with ids.
  assert (players = [] → ∀ x, x ∉ ids) as Hnil.
  { intros -> x. subst ids. apply not_elem_of_nil. }
  assert (∀ first rest, players = first :: rest → player_id first ∈ ids)
    as Hcons.
  { intros first rest ->. subst ids. rewrite fmap_cons. left. }
  destruct preferred as [pref|]; cbn [JS.truthy_opt default andb];
    repeat match goal with
    | |- context [JS.truthy ?x] =>
        let H := fresh "Ht" in
        destruct (JS.truthy x) eqn:H;
        [apply truthy_ne in H|apply not_true_iff_false in H;
                              rewrite truthy_ne in H]
    | |- context [bool_decide ?P] =>
        let H := fresh "Hd" in
        destruct (bool_decide P) eqn:H;
        [apply bool_decide_eq_true in H|apply bool_decide_eq_false in H]
    end; cbn [andb];
    destruct players as [|first rest] eqn:Hplayers; cbn [head fmap option_fmap option_map];
    try specialize (Hnil eq_refl); try specialize (Hcons _ _ eq_refl);
    naive_solver.
Qed.

(** What a poll keeps of the caches while it starts and ends. *)
Definition same_caches s s' : Prop :=
  selectedPlayerId s' = selectedPlayerId s
  ∧ playersCache s' = playersCache s
  ∧ queuesCache s' = queuesCache s.

Lemma same_caches_pollState env s : same_caches s (pollState env s).
Proof.
  unfold pollState.
  destruct (pollInFlight s), (isConnected env), (isAuthenticated env); done.
Qed.

Lemma same_caches_poll_finally env s : same_caches s (poll_finally env s).
Proof.
  unfold poll_finally. cbn. destruct (pollAgain s); [|done].
  unfold pollState. cbn.
  destruct (isConnected env), (isAuthenticated env); done.
Qed.

Lemma same_caches_poll_publish env s : same_caches s (poll_publish env s).
Proof.
  unfold poll_publish.
  destruct (same_caches_poll_finally env (emitStatus (emitPlayersAndState s)))
    as (Hsel & Hplayers & Hqueues).
  split_and!; [rewrite Hsel|rewrite Hplayers|rewrite Hqueues]; done.
Qed.

(** X1. When the two lists of a poll arrive, the caches are replaced by
    them (by empty lists if a reply is not an array) and the selection is
    re-chosen among the new players: it is null exactly when there is no
    player, it is otherwise the id of a cached player, and the previous
    selection is kept whenever that player is still there. *)
Theorem lists_settled_selection env d (got : option (list MAPlayer))
    (gotQueues : option (list MAQueue)) s :
  phase s = AwaitingLists d →
  let s' := onListsSettled env (Fulfilled (got, gotQueues)) s in
  playersCache s' = default [] got
  ∧ queuesCache s' = default [] gotQueues
  ∧ selectedPlayerId s'
    = pickSelectedPlayerId (default [] got) (selectedPlayerId s) d
  ∧ (selectedPlayerId s' = None ↔ playersCache s' = [])
  ∧ (∀ id, selectedPlayerId s' = Some id → id ∈ player_id <$> playersCache s')
  ∧ (∀ id, selectedPlayerId s = Some id → id ≠ "" →
       id ∈ player_id <$> default [] got →
       selectedPlayerId s' = Some id).
Proof.
  intros Hphase s'.
  assert (same_caches
            (set_caches
               (pickSelectedPlayerId (default [] got) (selectedPlayerId s) d)
               (default [] got) (default [] gotQueues) s) s')
    as (Hsel & Hplayers & Hqueues).
  { subst s'. unfold onListsSettled. rewrite Hphase.
    set (s1 := set_caches _ _ _ s).
    destruct (resolveQueueForPlayer _ _) as [queue|].
    - destruct (JS.truthy (queue_id queue)); [done|].
      destruct (same_caches_poll_publish env (set_queueItemsCache [] s1))
        as (? & ? & ?).
      by split_and!.
    - destruct (same_caches_poll_publish env (set_queueItemsCache [] s1))
        as (? & ? & ?).
      by split_and!. }
  cbn in Hsel, Hplayers, Hqueues. rewrite Hsel, Hplayers, Hqueues.
  destruct (pickSelectedPlayerId_cached (default [] got)
              (selectedPlayerId s) d) as (Hnone & Hin & Hkeep & _).
  split_and!; done.
Qed.

(** ** Queues *)

(** X2. The queue of a player is a cached queue that names the player
    (by [player_id], or by a [queue_id] equal to the player's id) and the
    first such one; only when no queue names the player is it the first
    queue whose id is the player's non-empty [active_source]; it is null
    exactly when no queue matches in either way. *)
Theorem resolveQueueForPlayer_spec queues player :
  let by_id (queue : MAQueue) : Prop :=
    queue_player_id queue = Some (player_id player)
    ∨ queue_id queue = player_id player in
  let by_source (queue : MAQueue) : Prop :=
    active_source player = Some (queue_id queue) ∧ queue_id queue ≠ "" in
  match resolveQueueForPlayer queues (Some player) with
  | Some queue =>
      ∃ before after,
        queues = before ++ queue :: after
        ∧ ((by_id queue ∧ ∀ q, q ∈ before → ¬ by_id q)
           ∨ (by_source queue ∧ (∀ q, q ∈ queues → ¬ by_id q)
              ∧ ∀ q, q ∈ before → ¬ by_source q))
  | None => ∀ q, q ∈ queues → ¬ by_id q ∧ ¬ by_source q
  end.
Proof.
  intros by_id by_source. unfold resolveQueueForPlayer.
  set (test1 := fun queue => _ || _).
  assert (∀ q, test1 q = true ↔ by_id q) as Htest1.
  { intros q. unfold test1, by_id.
    rewrite orb_true_iff, !bool_decide_eq_true. done. }
  assert (∀ (test : MAQueue → bool) l,
            match List.find test l with
            | Some q => ∃ before after, l = before ++ q :: after
                          ∧ test q = true ∧ ∀ q', q' ∈ before → test q' = false
            | None => ∀ q, q ∈ l → test q = false
            end) as Hfind.
  { intros test l. induction l as [|q l IH]; simpl.
    - intros q []%elem_of_nil.
    - destruct (test q) eqn:Hq.
      + exists [], l. split_and!; [done..|]. intros q' []%elem_of_nil.
      + destruct (List.find test l) as [r|].
        * destruct IH as (before & after & -> & Hr & Hbefore).
          exists (q :: before), after. split_and!; [done..|].
          intros q' [->|Hin]%elem_of_cons; [done|by apply Hbefore].
        * intros q' [->|Hin]%elem_of_cons; [done|by apply IH]. }
  pose proof (Hfind test1 queues) as H1.
  destruct (List.find test1 queues) as [queue|].
  { destruct H1 as (before & after & -> & Hq & Hbefore).
    exists before, after. split; [done|]. left. split; [by apply Htest1|].
    intros q Hin Hby. apply Htest1 in Hby. rewrite Hbefore in Hby; done. }
  assert (∀ q, q ∈ queues → ¬ by_id q) as Hno.
  { intros q Hin Hby. apply Htest1 in Hby. rewrite H1 in Hby; done. }
  destruct (active_source player) as [source|] eqn:Hsource;
    cbn [JS.truthy_opt].
  2:{ intros q Hin. split; [by apply Hno|]. by intros [? _]. }
  destruct (JS.truthy source) eqn:Htruthy.
  2:{ intros q Hin. split; [by apply Hno|]. intros [[= ->] Hne].
      apply truthy_ne in Hne. congruence. }
  set (test2 := fun queue => bool_decide _).
  assert (∀ q, test2 q = true ↔ by_source q) as Htest2.
  { intros q. unfold test2, by_source. rewrite bool_decide_eq_true.
    split; [|by intros [[= ->] _]]. intros [= ->]. split; [done|].
    by apply truthy_ne. }
  pose proof (Hfind test2 queues) as H2.
  destruct (List.find test2 queues) as [queue|].
  - destruct H2 as (before & after & Heq & Hq & Hbefore).
    exists before, after. split; [done|]. right.
    split_and!; [by apply Htest2|done|].
    intros q Hin Hby. apply Htest2 in Hby. rewrite Hbefore in Hby; done.
  - intros q Hin. split; [by apply Hno|]. intros Hby.
    apply Htest2 in Hby. rewrite H2 in Hby; done.
Qed.

(** ** The player and the queue a request is about *)

Lemma reachable_found players a b :
  rtc (parent_of players) a b →
  findPlayerById players (Some (player_id a)) = Some a →
  findPlayerById players (Some (player_id b)) = Some b.
Proof.
  induction 1 as [|a b c Hstep _ IH]; [done|]. intros _. apply IH.
  apply parent_of_iff in Hstep as (parentId & _ & _ & Hfind).
  by eapply findPlayerById_self.
Qed.

Lemma resolveControllingPlayer_found players playerId start :
  findPlayerById players playerId = Some start →
  ∃ r, resolveControllingPlayer players playerId = Some r
       ∧ rtc (parent_of players) start r
       ∧ findPlayerById players (Some (player_id r)) = Some r.
Proof.
  intros Hstart. destruct playerId as [id|]; [|done].
  assert (findPlayerById players (Some (player_id start)) = Some start)
    as Hself by (by eapply findPlayerById_self).
  destruct (resolve_loop_spec players start (resolve_fuel players) start ∅)
    as (r & Hrun & Hreach & _).
  - done.
  - pose proof (cached_ids_size players).
    pose proof (subseteq_size (cached_ids players ∖ ∅) (cached_ids players)
                  ltac:(set_solver)).
    unfold resolve_fuel. lia.
  - done.
  - set_solver.
  - exists r. unfold resolveControllingPlayer. rewrite Hstart, Hrun.
    split_and!; [done..|]. by eapply reachable_found.
Qed.

Lemma resolveControllingPlayer_missing players playerId :
  findPlayerById players playerId = None →
  resolveControllingPlayer players playerId = None.
Proof.
  intros Hstart. unfold resolveControllingPlayer. by rewrite Hstart.
Qed.

(** [getTargetPlayerId], by the place of the selection in the cache. *)
Lemma getTargetPlayerId_cases s :
  match findPlayerById (playersCache s) (selectedPlayerId s) with
  | None => getTargetPlayerId s = Throw "No player selected."
  | Some selected_ =>
      ∃ target,
        getTargetPlayerId s = Normal (player_id target)
        ∧ resolveControllingPlayer (playersCache s) (selectedPlayerId s)
          = Some target
        ∧ rtc (parent_of (playersCache s)) selected_ target
        ∧ findPlayerById (playersCache s) (Some (player_id target))
          = Some target
  end.
Proof.
  unfold getTargetPlayerId, selectedController.
  destruct (findPlayerById (playersCache s) (selectedPlayerId s))
    as [selected_|] eqn:Hsel.
  - destruct (resolveControllingPlayer_found _ _ _ Hsel)
      as (r & Hr & Hreach & Hfound).
    exists r. rewrite Hr. split_and!; [|done..].
    destruct (findPlayerById_Some _ _ _ Hfound) as (_ & _ & ->). done.
  - by rewrite (resolveControllingPlayer_missing _ _ Hsel).
Qed.


(** X4. The queue a playback request goes to: [getTargetQueueId] throws
    exactly when [getTargetPlayerId] does; otherwise it is the id of the
    queue [getSelectedQueue] returns for the controlling player, and the
    id of that player when it has no cached queue or the queue's id is
    empty. *)
Theorem getTargetQueueId_spec s :
  match getTargetPlayerId s with
  | Throw _ =>
      getTargetQueueId s = Throw "No queue available for selected player."
      ∧ getSelectedQueue s = Throw "No queue available for selected player."
  | Normal playerId =>
      match getSelectedQueue s with
      | Normal queue =>
          getTargetQueueId s
          = Normal (if JS.truthy (queue_id queue) then queue_id queue
                    else playerId)
      | Throw _ => getTargetQueueId s = Normal playerId
      end
  end.
Proof.
  pose proof (getTargetPlayerId_cases s) as Hplayer.
  unfold getTargetPlayerId, getTargetQueueId, getSelectedQueue in *.
  unfold selectedController in *.
  destruct (findPlayerById (playersCache s) (selectedPlayerId s))
    as [selected_|] eqn:Hsel.
  - destruct Hplayer as (target & Hid & Hr & _ & Hfound).
    rewrite Hr in *.
    destruct (findPlayerById_Some _ _ _ Hfound) as (_ & _ & Htruthy).
    rewrite Htruthy.
    destruct (resolveQueueForPlayer (queuesCache s) (Some target))
      as [queue|]; cbn [fmap option_fmap option_map JS.truthy_opt default].
    + by destruct (JS.truthy (queue_id queue)); [|rewrite Htruthy].
    + by rewrite Htruthy.
  - by rewrite (resolveControllingPlayer_missing _ _ Hsel).
Qed.

(** ** The queue cache *)

Lemma findIndex_spec {A : Type} (test : A → bool) (items : list A) :
  match findIndex test items with
  | Some i =>
      ∃ x, items !! i = Some x ∧ test x = true
           ∧ ∀ j y, j < i → items !! j = Some y → test y = false
  | None => ∀ x, x ∈ items → test x = false
  end.
Proof.
  induction items as [|x items IH]; simpl.
  - intros x []%elem_of_nil.
  - destruct (test x) eqn:Hx.
    + exists x. split_and!; [done..|]. intros j y Hj. lia.
    + destruct (findIndex test items) as [i|]; simpl.
      * destruct IH as (y & Hy & Hty & Hbefore). exists y.
        split_and!; [done..|]. intros [|j] z Hj; simpl.
        -- by intros [= <-].
        -- apply Hbefore. lia.
      * intros y [->|Hin]%elem_of_cons; [done|by apply IH].
Qed.

Lemma find_at {A : Type} (test : A → bool) (items : list A) i x :
  items !! i = Some x → test x = true →
  (∀ j y, j < i → items !! j = Some y → test y = false) →
  List.find test items = Some x.
Proof.
  revert i. induction items as [|y items IH]; intros i Hi Hx Hbefore.
  - done.
  - destruct i as [|i]; simpl in *.
    + injection Hi as ->. by rewrite Hx.
    + rewrite (Hbefore 0 y) by (done || lia).
      apply (IH i); [done..|]. intros j z Hj Hz.
      apply (Hbefore (S j)); [lia|done].
Qed.

Lemma find_index {A : Type} (test : A → bool) (items : list A) :
  match List.find test items with
  | Some x =>
      ∃ i, items !! i = Some x ∧ test x = true
           ∧ ∀ j y, j < i → items !! j = Some y → test y = false
  | None => ∀ x, x ∈ items → test x = false
  end.
Proof.
  induction items as [|x items IH]; simpl.
  - intros x []%elem_of_nil.
  - destruct (test x) eqn:Hx.
    + exists 0. split_and!; [done..|]. intros j y Hj. lia.
    + destruct (List.find test items) as [r|].
      * destruct IH as (i & Hi & Hr & Hbefore). exists (S i).
        split_and!; [done..|]. intros [|j] z Hj; simpl.
        -- by intros [= <-].
        -- apply Hbefore. lia.
      * intros y [->|Hin]%elem_of_cons; [done|by apply IH].
Qed.

(** [upsert], by the place of the queue in the cache. *)
Lemma upsert_cases has queue queues :
  let cache := upsert has queue queues in
  ∃ i stored,
    cache !! i = Some stored
    ∧ queue_id stored = queue_id queue
    ∧ (∀ j, j ≠ i → cache !! j = queues !! j)
    ∧ match queues !! i with
      | Some old =>
          same_queue queue old = true
          ∧ (∀ j item, j < i → queues !! j = Some item →
               same_queue queue item = false)
          ∧ stored = merge has old queue
          ∧ length cache = length queues
      | None =>
          (∀ item, item ∈ queues → same_queue queue item = false)
          ∧ stored = queue
          ∧ i = length queues
          ∧ length cache = S (length queues)
      end.
Proof.
  intros cache. subst cache. unfold upsert.
  pose proof (findIndex_spec (same_queue queue) queues) as Hfind.
  destruct (findIndex (same_queue queue) queues) as [i|].
  - destruct Hfind as (old & Hold & Hsame & Hbefore). rewrite Hold.
    exists i, (merge has old queue).
    assert (i < length queues) as Hlt by (by eapply lookup_lt_Some).
    split_and!.
    + by rewrite list_lookup_insert_eq.
    + done.
    + intros j Hj. by rewrite list_lookup_insert_ne.
    + rewrite Hold. split_and!; [done..|]. by rewrite length_insert.
  - exists (length queues), queue. split_and!.
    + by rewrite lookup_app_r, Nat.sub_diag.
    + done.
    + intros j Hj. destruct (decide (j < length queues)).
      * by rewrite lookup_app_l.
      * rewrite !lookup_ge_None_2; [done|lia|].
        rewrite length_app. simpl. lia.
    + rewrite lookup_ge_None_2 by lia. split_and!; [done..|].
      rewrite length_app. simpl. lia.
Qed.

(** The queue names a cached one, said apart from the code: they have
    the same [queue_id], or the queue has a [player_id] that
    is not empty and the cached one has the same. *)
Definition names_same (queue item : MAQueue) : Prop :=
  queue_id item = queue_id queue
  ∨ ∃ playerId,
      playerId ≠ "" ∧ queue_player_id queue = Some playerId
      ∧ queue_player_id item = Some playerId.

Lemma same_queue_names queue item :
  same_queue queue item = true ↔ names_same queue item.
Proof.
  unfold same_queue, names_same. case_decide as Hid; [by split; [left|]|].
  destruct (queue_player_id queue) as [playerId|]; cbn.
  - destruct (JS.truthy playerId) eqn:Htruthy; cbn.
    + apply truthy_ne_empty in Htruthy. case_bool_decide as Hsame.
      * split; [|done]. intros _. right. by exists playerId.
      * split; [done|]. intros [?|(? & _ & [= <-] & ?)]; done.
    + split; [done|]. intros [?|(pid & Hne & Heq & _)]; [done|].
      assert (pid = playerId) as -> by congruence.
      by destruct playerId.
  - split; [done|]. intros [?|(? & _ & ? & _)]; done.
Qed.

Lemma same_queue_not_names queue item :
  same_queue queue item = false ↔ ¬ names_same queue item.
Proof.
  rewrite <-same_queue_names. by destruct (same_queue queue item).
Qed.

(** X5. [upsertQueue] stores the queue at one place and leaves every
    other entry as it is. If a cached queue has the same [queue_id], or
    the same non-empty [player_id], the first such entry is replaced by
    its merge with the queue and the cache keeps its length: the merged
    entry has the queue's [queue_id], and each other property is the
    queue's when the queue has that property - also with the value null
    - and the cached one's when it has not. Otherwise the queue is
    appended. Example: over a cached queue "q1" of "p1" in the state
    "playing", a queue "q1" that has [state: null] leaves no state, and
    one that has no [state] leaves "playing". *)
Theorem upsert_spec has queue queues :
  (let cache := upsert has queue queues in
   ∃ i stored,
     cache !! i = Some stored
     ∧ (∀ j, j ≠ i → cache !! j = queues !! j)
     ∧ match queues !! i with
       | Some old =>
           names_same queue old
           ∧ (∀ j item, j < i → queues !! j = Some item →
                ¬ names_same queue item)
           ∧ length cache = length queues
           ∧ queue_id stored = queue_id queue
           ∧ queue_player_id stored
             = (if has "player_id" then queue_player_id queue
                else queue_player_id old)
           ∧ queue_state stored
             = (if has "state" then queue_state queue else queue_state old)
           ∧ shuffle_enabled stored
             = (if has "shuffle_enabled" then shuffle_enabled queue
                else shuffle_enabled old)
           ∧ repeat_mode stored
             = (if has "repeat_mode" then repeat_mode queue
                else repeat_mode old)
           ∧ elapsed_time stored
             = (if has "elapsed_time" then elapsed_time queue
                else elapsed_time old)
           ∧ current_item stored
             = (if has "current_item" then current_item queue
                else current_item old)
       | None =>
           (∀ item, item ∈ queues → ¬ names_same queue item)
           ∧ stored = queue
           ∧ i = length queues
           ∧ length cache = S (length queues)
       end)
  ∧ (let cached state :=
       {| queue_id := "q1"; queue_player_id := Some "p1";
          queue_state := state; shuffle_enabled := Some true;
          repeat_mode := None; elapsed_time := None;
          current_item := None |} in
     let update :=
       {| queue_id := "q1"; queue_player_id := None;
          queue_state := None; shuffle_enabled := Some false;
          repeat_mode := None; elapsed_time := None;
          current_item := None |} in
     let other :=
       {| queue_id := "q2"; queue_player_id := Some "p2";
          queue_state := None; shuffle_enabled := None;
          repeat_mode := None; elapsed_time := None;
          current_item := None |} in
     upsert
       (fun key => bool_decide (key ∈ ["queue_id"; "state"; "shuffle_enabled"]))
       update [other; cached (Some "playing")]
     = [other;
        {| queue_id := "q1"; queue_player_id := Some "p1";
           queue_state := None; shuffle_enabled := Some false;
           repeat_mode := None; elapsed_time := None;
           current_item := None |}]
     ∧ upsert
         (fun key => bool_decide (key ∈ ["queue_id"; "shuffle_enabled"]))
         update [other; cached (Some "playing")]
       = [other;
          {| queue_id := "q1"; queue_player_id := Some "p1";
             queue_state := Some "playing"; shuffle_enabled := Some false;
             repeat_mode := None; elapsed_time := None;
             current_item := None |}]
     ∧ upsert (fun key => true) update [other] = [other; update]).
Proof.
  split; [|by vm_compute].
  intros cache.
  destruct (upsert_cases has queue queues)
    as (i & stored & Hstored & Hid & Hother & Hat).
  exists i, stored. split; [done|]. split; [done|].
  destruct (queues !! i) as [old|].
  - destruct Hat as (Hsame & Hbefore & -> & Hlen).
    split; [by apply same_queue_names|].
    split.
    { intros j item Hj Hitem. apply same_queue_not_names. by eapply Hbefore. }
    by split_and!.
  - destruct Hat as (Hnone & -> & -> & Hlen). split_and!; [|done..].
    intros item Hitem. apply same_queue_not_names. by apply Hnone.
Qed.

(** X6. Asking the server for the queue of a player fills the cache: if
    [resolveQueueIdForPlayer] found no usable queue for the player and
    the server replies with a queue that has an id and names no other
    player, the queue is stored under the player and the same call now
    returns its id from the cache, without a command. *)
Theorem resolveQueueIdForPlayer_round_trip playerId queue has s :
  playerId ≠ "" →
  JS.trim (queue_id queue) ≠ "" →
  queue_player_id queue = None ∨ queue_player_id queue = Some ""
  ∨ queue_player_id queue = Some playerId →
  resolveQueueIdForPlayer playerId s
  = Ask {| command := "player_queues/get_active_queue";
           args := [("player_id", JStr playerId)] |} →
  ∃ s',
    resolveQueueIdForPlayer_reply playerId (Some queue) has s
    = Normal (queue_id queue, s')
    ∧ resolveQueueIdForPlayer playerId s' = Known (queue_id queue)
    ∧ playersCache s' = playersCache s
    ∧ selectedPlayerId s' = selectedPlayerId s.
Proof.
  intros Hpid Hqid Hplayer Hask.
  assert (queue_id queue ≠ "") as Hqid'.
  { intros Heq. rewrite Heq in Hqid. by apply Hqid. }
  unfold resolveQueueIdForPlayer_reply.
  apply truthy_ne in Hqid. rewrite Hqid. cbn [negb].
  set (stored := {| queue_id := queue_id queue; queue_player_id := _ |}).
  assert (queue_player_id stored = Some playerId) as Hstored.
  { subst stored. cbn. f_equal.
    destruct Hplayer as [->| [->| ->]]; cbn; [done..|].
    apply truthy_ne in Hpid. by rewrite Hpid. }
  assert (queue_id stored = queue_id queue) as Hstored_id by done.
  eexists. split; [done|]. split; [|done].
  clearbody stored.
  unfold resolveQueueIdForPlayer in *.
  cbn [playersCache queuesCache upsertQueue set_caches].
  set (cachedPlayer := default _ _) in *.
  assert (player_id cachedPlayer = playerId) as Hcached.
  { subst cachedPlayer.
    destruct (findPlayerById _ _) as [p|] eqn:Hp; [|done].
    by apply findPlayerById_Some in Hp as (? & _). }
  destruct (JS.truthy_opt (queue_id <$> resolveQueueForPlayer (queuesCache s)
                             (Some cachedPlayer))) eqn:Hold; [done|].
  clear Hask.
  set (has' := fun key => bool_decide (key = "player_id") || has key).
  destruct (upsert_cases has' stored (queuesCache s))
    as (i & kept & Hkept & Hid & Hother & Hat).
  unfold resolveQueueForPlayer in *.
  set (test := fun q : MAQueue =>
         bool_decide (queue_player_id q = Some (player_id cachedPlayer))
         || bool_decide (queue_id q = player_id cachedPlayer)) in *.
  assert (∀ j item, j < i → queuesCache s !! j = Some item →
            same_queue stored item = false) as Hbefore.
  { intros j item Hj Hitem. destruct (queuesCache s !! i) as [old|].
    - destruct Hat as (_ & Hbefore & _). by eapply Hbefore.
    - destruct Hat as (Hnone & _). apply Hnone.
      by eapply list_elem_of_lookup_2. }
  assert (List.find test (upsert has' stored (queuesCache s)) = Some kept)
    as Hfind.
  { apply (find_at _ _ i); [done| |].
    - unfold test. apply orb_true_iff. left. apply bool_decide_eq_true.
      rewrite Hcached.
      destruct (queuesCache s !! i) as [old|].
      + destruct Hat as (_ & _ & -> & _). cbn. by rewrite Hstored.
      + by destruct Hat as (_ & -> & _).
    - intros j item Hj Hitem.
      rewrite Hother in Hitem by lia.
      destruct (test item) eqn:Htest; [exfalso|done].
      pose proof (find_index test (queuesCache s)) as Hfirst.
      destruct (List.find test (queuesCache s)) as [q0|].
      2:{ rewrite Hfirst in Htest; [done|]. by eapply list_elem_of_lookup_2. }
      destruct Hfirst as (k & Hk & Hq0 & Hmin).
      destruct (decide (j < k)) as [Hlt|Hge].
      { rewrite (Hmin j item) in Htest; done. }
      cbn in Hold. apply not_true_iff_false in Hold.
      rewrite truthy_ne in Hold. apply dec_stable in Hold.
      unfold test in Hq0. rewrite Hcached in Hq0.
      apply orb_true_iff in Hq0 as [Hq0|Hq0]; apply bool_decide_eq_true in Hq0.
      + assert (same_queue stored q0 = true) as Hsame.
        { unfold same_queue. case_decide; [done|].
          rewrite Hstored, Hq0. cbn [JS.truthy_opt].
          apply truthy_ne in Hpid. rewrite Hpid. cbn.
          by rewrite bool_decide_eq_true_2. }
        rewrite (Hbefore k q0) in Hsame; [done|lia|done].
      + congruence. }
  rewrite Hfind. cbn. rewrite Hid, Hstored_id. cbn.
  apply truthy_ne in Hqid'. by rewrite Hqid'.
Qed.

(** ** Payloads *)



(** An id list that is already normalised: trimmed ids, none empty. *)
Definition normalised (ids : list string) : Prop :=
  Forall (fun id => JS.trim id = id ∧ id ≠ "") ids.

Lemma nonblank_ne (x : string) : (0 <? String.length x)%nat = true ↔ x ≠ "".
Proof. destruct x; simpl; split; done. Qed.

Lemma normalised_fixed ids :
  normalised ids → Reconciler.normalizePlayerIdList (Some ids) = ids.
Proof.
  unfold Reconciler.normalizePlayerIdList.
  induction 1 as [|id ids [Htrim Hne] _ IH]; simpl; [done|].
  rewrite Htrim. apply nonblank_ne in Hne. rewrite Hne. simpl.
  by rewrite Htrim, IH.
Qed.

Lemma normalizePlayerIdList_normalised (values : option JSON) :
  normalised (normalizePlayerIdList values).
Proof.
  unfold normalizePlayerIdList.
  destruct values as [[| | | |items|]|]; try by constructor.
  induction items as [|item items IH]; simpl; [by constructor|].
  destruct item as [| | |value| |]; try done.
  destruct (0 <? String.length (JS.trim value))%nat eqn:Hlen; [|done].
  simpl. constructor; [|done]. split; [apply trim_trim|].
  by apply nonblank_ne.
Qed.

(** The ids an array of a payload lists, in the words of the
    specification: its entries that are strings and not blank, trimmed,
    in their order. *)
Definition listed_id (item : JSON) : option string :=
  match item with
  | JStr raw => if decide (JS.trim raw = "") then None else Some (JS.trim raw)
  | _ => None
  end.

Lemma normalizePlayerIdList_listed (values : option JSON) :
  normalizePlayerIdList values
  = omap listed_id
      match values with Some (JArr items) => items | _ => [] end.
Proof.
  unfold normalizePlayerIdList.
  destruct values as [[| | | |items|]|]; try done.
  induction items as [|item items IH]; [done|].
  cbn [List.filter omap list_omap]. unfold listed_id at 1.
  destruct item as [| | |raw| |]; try done.
  destruct (decide (JS.trim raw = "")) as [Hblank|Hne].
  - rewrite Hblank. cbn [String.length Nat.ltb Nat.leb]. done.
  - apply nonblank_ne in Hne. rewrite Hne. cbn [List.map].
    by rewrite IH.
Qed.

Lemma readString_member payload key :
  readString (asRecord payload) key
  = match member payload key with
    | Some (JStr raw) => if decide (JS.trim raw = "") then None else Some raw
    | _ => None
    end.
Proof.
  unfold readString, asRecord, member.
  destruct payload as [[| | | |items|fields]|]; try done. cbn.
  destruct (assoc key fields) as [[| | |raw| |]|]; try done.
  destruct (decide (JS.trim raw = "")) as [->|Hne]; [done|].
  apply truthy_ne_empty in Hne. by rewrite Hne.
Qed.

(** X8. The players of a volume request, from its payload. If the
    array [playerIds] of the payload lists an id - an entry that is a
    string and not blank - the targets are the listed ids, trimmed, in
    their order and each once, whatever [playerId], the scope and the
    selection are. Else, if [playerId] is a string that is not blank,
    the target is that id, trimmed. Else the targets are the players
    that the selection and the scope give. For the payload
    [{playerIds: [" p2 ", 7, "", "p1", "p2"], playerId: "p3"}] the
    targets are "p2" and "p1". *)
Theorem volume_targets_of_payload payload scope s :
  let listed :=
    omap listed_id
      match member payload "playerIds" with
      | Some (JArr items) => items
      | _ => []
      end in
  let single :=
    match member payload "playerId" with
    | Some item => listed_id item
    | None => None
    end in
  let targets :=
    getVolumeTargetPlayerIds scope (parseVolumePlayerIds payload) s in
  match listed, single with
  | _ :: _, _ =>
      targets = Normal (JS.Set_from listed)
      ∧ NoDup (JS.Set_from listed)
      ∧ (∀ id, id ∈ JS.Set_from listed ↔ id ∈ listed)
      ∧ JS.Set_from listed `sublist_of` listed
  | [], Some id => targets = Normal [id]
  | [], None => targets = getVolumeTargetPlayerIds scope [] s
  end
  ∧ getVolumeTargetPlayerIds scope
      (parseVolumePlayerIds
         (Some (JObj [("playerIds",
                       JArr [JStr " p2 "; JNum 7; JStr ""; JStr "p1";
                             JStr "p2"]);
                      ("playerId", JStr "p3")]))) s
    = Normal ["p2"; "p1"]
  ∧ getVolumeTargetPlayerIds scope
      (parseVolumePlayerIds
         (Some (JObj [("playerIds", JArr [JStr "  "]);
                      ("playerId", JStr " p3 ")]))) s
    = Normal ["p3"].
Proof.
  intros listed single targets.
  split; [|split; by vm_compute].
  assert (normalizePlayerIdList (member payload "playerIds") = listed)
    as Hlisted by apply normalizePlayerIdList_listed.
  assert (parseVolumePlayerIds payload
          = match listed with
            | _ :: _ => listed
            | [] =>
                match readString (asRecord payload) "playerId" with
                | Some raw => [raw]
                | None => []
                end
            end) as Hparse.
  { unfold parseVolumePlayerIds. rewrite <-Hlisted.
    destruct payload as [[| | | |items|fields]|]; try done.
    unfold asRecord. cbn -[normalizePlayerIdList readString].
    by destruct (normalizePlayerIdList (assoc "playerIds" fields)). }
  pose proof (normalizePlayerIdList_normalised (member payload "playerIds"))
    as Hnorm. rewrite Hlisted in Hnorm.
  subst targets. rewrite Hparse.
  destruct listed as [|id ids] eqn:Hids.
  - rewrite readString_member. subst single.
    destruct (member payload "playerId") as [[| | |raw| |]|]; try done.
    cbn [listed_id].
    destruct (decide (JS.trim raw = "")) as [Hblank|Hne]; [done|].
    unfold getVolumeTargetPlayerIds, Reconciler.normalizePlayerIdList.
    apply nonblank_ne in Hne. simpl. rewrite Hne. simpl.
    destruct (Set_from_spec [JS.trim raw]) as (_ & _ & ->);
      [done|apply NoDup_singleton].
  - destruct (Set_from_spec (id :: ids)) as (Hnodup & Hin & _).
    split_and!; [|done|done|apply Set_from_sublist].
    unfold getVolumeTargetPlayerIds.
    by rewrite (normalised_fixed _ Hnorm).
Qed.

(** ** Absolute volume *)

Definition sets_volume (level : Q) (playerId : string) : Effect :=
  Send (volume_set playerId level).

Lemma getVolumeTargetPlayerIds_nonempty scope explicitPlayerIds s ids :
  getVolumeTargetPlayerIds scope explicitPlayerIds s = Normal ids → ids ≠ [].
Proof.
  assert (∀ xs, (0 <? length xs)%nat = true → JS.Set_from xs ≠ []) as Hset.
  { intros [|x xs] Hlen; [done|]. intros Hnil.
    destruct (Set_from_spec (x :: xs)) as (_ & Hin & _).
    specialize (Hin x). rewrite Hnil in Hin.
    apply (not_elem_of_nil x), Hin. left. }
  unfold getVolumeTargetPlayerIds.
  destruct (0 <? _)%nat eqn:Hexplicit; [intros [= <-]; by apply Hset|].
  destruct (findPlayerById _ _) as [selected_|]; [|done].
  destruct scope; [by intros [= <-]|].
  match goal with
  | |- context [if ?b then Normal _ else Normal _] => destruct b eqn:Hids
  end; intros [= <-]; [by apply Hset|done].
Qed.

(** The commands of [setVolumeAbsolute]. *)
Lemma setVolumeAbsolute_sends volume scope explicitPlayerIds s :
  let level := clamp (JS.Math_round volume) in
  match getVolumeTargetPlayerIds scope explicitPlayerIds s with
  | Throw error =>
      setVolumeAbsolute volume scope explicitPlayerIds s = Throw error
  | Normal ids =>
      ids ≠ [] ∧ NoDup ids
      ∧ ∃ s', setVolumeAbsolute volume scope explicitPlayerIds s = Normal s'
              ∧ trace s' = trace s ++ (sets_volume level <$> ids)
              ∧ selectedPlayerId s' = selectedPlayerId s
              ∧ playersCache s' = playersCache s
              ∧ scheduledPoll s' = scheduledPoll s
  end.
Proof.
  intros level. unfold setVolumeAbsolute. fold level.
  destruct (getVolumeTargetPlayerIds scope explicitPlayerIds s)
    as [ids|error] eqn:Hids; [|done].
  split; [by eapply getVolumeTargetPlayerIds_nonempty|].
  split; [by eapply getVolumeTargetPlayerIds_NoDup|].
  eexists. split; [done|]. clear Hids. generalize level. clear level.
  intros level. revert s.
  induction ids as [|id ids IH]; intros s; simpl.
  + by rewrite app_nil_r.
  + destruct (IH (sendCommand "players/cmd/volume_set"
                    [("player_id", JStr id); ("volume_level", JNum level)] s))
      as (Htrace & Hsel & Hplayers & Hpoll).
    rewrite Htrace, Hsel, Hplayers, Hpoll. cbn.
    by rewrite <-app_assoc.
Qed.

(** X9. [setVolumeAbsolute] sends one [players/cmd/volume_set] to each
    target, in their order, all with the same level: the volume rounded
    to the nearest integer (ties upwards) and then limited to 0..100, 0
    for a rounded volume below 0 and 100 for one above 100. There is at
    least one target and no target twice. If the targets cannot be
    resolved it throws and sends nothing. With p1 and p2 grouped under
    p1 and p2 selected, a volume of 120 sets both to 100, of -5 to 0 and
    of 49.5 to 50. *)
Theorem setVolumeAbsolute_spec volume scope explicitPlayerIds s :
  (∃ (n : Z) (level : Q),
     rounds_to volume n
     ∧ limited 0 100 (inject_Z n) level
     ∧ match getVolumeTargetPlayerIds scope explicitPlayerIds s with
       | Throw error =>
           setVolumeAbsolute volume scope explicitPlayerIds s = Throw error
       | Normal ids =>
           ids ≠ [] ∧ NoDup ids
           ∧ ∃ s',
               setVolumeAbsolute volume scope explicitPlayerIds s = Normal s'
               ∧ trace s'
                 = trace s
                   ++ ((fun playerId =>
                          Send {| command := "players/cmd/volume_set";
                                  args := [("player_id", JStr playerId);
                                           ("volume_level", JNum level)] |})
                       <$> ids)
               ∧ selectedPlayerId s' = selectedPlayerId s
               ∧ playersCache s' = playersCache s
               ∧ scheduledPoll s' = scheduledPoll s
       end)
  ∧ (let sets (playerId : string) (level : Q) :=
       Send {| command := "players/cmd/volume_set";
               args := [("player_id", JStr playerId);
                        ("volume_level", JNum level)] |} in
     let sent (volume : Q) :=
       match setVolumeAbsolute volume group [] (grouped "p2") with
       | Normal s' => trace s'
       | Throw _ => []
       end in
     sent 120%Q = [sets "p1" 100%Q; sets "p2" 100%Q]
     ∧ sent (-5)%Q = [sets "p1" 0%Q; sets "p2" 0%Q]
     ∧ sent (99 # 2)%Q = [sets "p1" 50%Q; sets "p2" 50%Q]).
Proof.
  split; [|by vm_compute].
  destruct (Math_round_rounds volume) as (n & Hn & Hround).
  exists n, (clamp (JS.Math_round volume)). split; [done|]. split.
  - rewrite Hround. apply (Math_min_max_limited 0 100). lra.
  - apply setVolumeAbsolute_sends.
Qed.

(** ** The cases of [handleSet] *)

(** The effects of a poll request. *)
Definition poll_soon s (delayMs : Q) : list Effect :=
  (if scheduledPoll s then [ClearTimeout] else []) ++ [SetTimeout delayMs].

Lemma trace_schedulePollSoon delayMs s :
  trace (schedulePollSoon delayMs s) = trace s ++ poll_soon s delayMs.
Proof.
  unfold schedulePollSoon, poll_soon. destruct (scheduledPoll s); cbn; [|done].
  by rewrite <-app_assoc.
Qed.

Lemma selected_schedulePollSoon delayMs s :
  selectedPlayerId (schedulePollSoon delayMs s) = selectedPlayerId s.
Proof. unfold schedulePollSoon. by destruct (scheduledPoll s). Qed.

Lemma players_schedulePollSoon delayMs s :
  playersCache (schedulePollSoon delayMs s) = playersCache s.
Proof. unfold schedulePollSoon. by destruct (scheduledPoll s). Qed.

Lemma items_schedulePollSoon delayMs s :
  queueItemsCache (schedulePollSoon delayMs s) = queueItemsCache s.
Proof. unfold schedulePollSoon. by destruct (scheduledPoll s). Qed.

(** What was added to the trace from [s] to [s']. *)
Definition added s s' : list Effect := drop (length (trace s)) (trace s').

Lemma added_app s s' effects :
  trace s' = trace s ++ effects → added s s' = effects.
Proof. intros Heq. unfold added. by rewrite Heq, drop_app_length. Qed.

(** The commands among some effects. *)
Definition sends (effects : list Effect) : list Command :=
  omap (fun effect => match effect with Send cmd => Some cmd | _ => None end)
    effects.



(** The state and the commands of a handler that has run. *)
Ltac handler_leaf s :=
  split_and!;
  [|unfold selectLeader; cbn [finish];
    rewrite ?selected_schedulePollSoon, ?players_schedulePollSoon,
      ?items_schedulePollSoon; reflexivity..];
  [erewrite added_app;
   [|unfold selectLeader; cbn [finish]; rewrite ?trace_schedulePollSoon; cbn;
     rewrite <-?app_assoc; reflexivity];
   unfold poll_soon; cbn; try destruct (scheduledPoll s); done].

(** X11. Joining a player to the group of the selection. The leader is
    the controlling player of the selection; without one, without a
    target id in the payload, or with the leader as target, the request
    fails with an error and sends nothing. Otherwise a target that is
    cached under another parent is first ungrouped, and
    [players/cmd/set_members] adds it to the leader only when that
    succeeded; the selection moves to the leader only after the join
    succeeded. *)
Theorem groupPlayer_spec payload s replies :
  let request := "ma:groupPlayer" in
  let s' := finish replies (groupPlayer payload s) in
  match getTargetPlayerId s, parseTargetPlayerId payload with
  | Throw error, _ => s' = emitError request error s
  | Normal _, None =>
      s' = emitError request "Missing targetPlayerId in payload." s
  | Normal leader, Some target =>
      if decide (target = leader)
      then s' = emitError request "Cannot join a player to itself." s
      else
        let ungroup :=
          {| command := "players/cmd/ungroup";
             args := [("player_id", JStr target)] |} in
        let join :=
          {| command := "players/cmd/set_members";
             args := [("target_player", JStr leader);
                      ("player_ids_to_add", JArr [JStr target])] |} in
        let reparented :=
          match findPlayerById (playersCache s) (Some target) ≫= parentId_of with
          | Some parent => bool_decide (parent ≠ leader)
          | None => false
          end in
        let joined :=
          match reparented, replies with
          | true, Fulfilled _ :: Fulfilled _ :: _ => true
          | false, Fulfilled _ :: _ => true
          | _, _ => false
          end in
        sends (added s s')
        = (if reparented
           then match replies with
                | Fulfilled _ :: _ => [ungroup; join]
                | _ => [ungroup]
                end
           else [join])
        ∧ selectedPlayerId s'
          = (if joined then Some leader else selectedPlayerId s)
        ∧ playersCache s' = playersCache s
  end.
Proof.
  intros request s'. subst s' request. unfold groupPlayer.
  destruct (getTargetPlayerId s) as [leader|error]; [|done].
  destruct (parseTargetPlayerId payload) as [target|]; [|done].
  destruct (decide (target = leader)) as [|Hne]; [done|].
  cbv zeta.
  destruct (findPlayerById (playersCache s) (Some target) ≫= parentId_of)
    as [parent|].
  - destruct (decide (parent = leader)) as [->|Hparent].
    + rewrite bool_decide_eq_false_2 by (by intros ?).
      destruct replies as [|[v|e] replies]; cbn [finish awaitCommand failed];
        handler_leaf s.
    + rewrite bool_decide_eq_true_2 by done.
      destruct replies as [|[v|e] [|[v'|e'] replies]];
        cbn [finish awaitCommand failed]; handler_leaf s.
  - destruct replies as [|[v|e] replies]; cbn [finish awaitCommand failed];
      handler_leaf s.
Qed.

Lemma normalizePlayerIdList_typed_normalised (values : option (list string)) :
  normalised (Reconciler.normalizePlayerIdList values).
Proof.
  unfold Reconciler.normalizePlayerIdList. destruct values as [values|];
    [|by constructor].
  induction values as [|value values IH]; simpl; [by constructor|].
  destruct (0 <? String.length (JS.trim value))%nat eqn:Hlen; [|done].
  simpl. constructor; [|done]. split; [apply trim_trim|].
  by apply nonblank_ne.
Qed.

(** X12. Dissolving the group of the selection. The leader is the
    controlling player of the selection. The members to remove are the
    ids of its [group_members], trimmed and without the blank ones and
    the leader itself; when there is none, no command is sent and a poll
    is scheduled; otherwise one [players/cmd/set_members] removes them
    all, and the selection moves to the leader when it succeeded. *)
Theorem ungroupAll_spec s replies :
  let request := "ma:ungroupAll" in
  let s' := finish replies (ungroupAll s) in
  match findPlayerById (playersCache s) (selectedPlayerId s) with
  | None => s' = emitError request "No player selected." s
  | Some _ =>
      ∃ leader,
        resolveControllingPlayer (playersCache s) (selectedPlayerId s)
        = Some leader
        ∧ let memberIds :=
            List.filter
              (fun playerId => negb (bool_decide (playerId = player_id leader)))
              (Reconciler.normalizePlayerIdList (group_members leader)) in
          normalised memberIds
          ∧ (player_id leader ∉ memberIds)
          ∧ match memberIds with
            | [] => s' = schedulePollSoon 0 s
            | _ =>
                sends (added s s')
                = [{| command := "players/cmd/set_members";
                      args := [("target_player", JStr (player_id leader));
                               ("player_ids_to_remove",
                                JArr (JStr <$> memberIds))] |}]
                ∧ selectedPlayerId s'
                  = match replies with
                    | Fulfilled _ :: _ => Some (player_id leader)
                    | _ => selectedPlayerId s
                    end
            end
  end.
Proof.
  intros request s'. subst s' request. unfold ungroupAll.
  pose proof (getTargetPlayerId_cases s) as Htarget.
  destruct (findPlayerById (playersCache s) (selectedPlayerId s))
    as [selected_|].
  2:{ by rewrite Htarget. }
  destruct Htarget as (leader & -> & Hr & _ & Hfound). exists leader.
  split; [done|]. rewrite Hfound. cbn [mbind option_bind].
  cbv zeta.
  set (memberIds := List.filter _ _).
  assert (normalised memberIds) as Hnorm.
  { subst memberIds. unfold normalised. rewrite Forall_forall.
    intros id Hid. apply list_elem_of_In, List.filter_In in Hid as [Hid _].
    pose proof (normalizePlayerIdList_typed_normalised (group_members leader))
      as Hall.
    unfold normalised in Hall. rewrite Forall_forall in Hall.
    by apply Hall, list_elem_of_In. }
  assert (player_id leader ∉ memberIds) as Hleader.
  { subst memberIds. intros Hin.
    apply list_elem_of_In, List.filter_In in Hin as [_ Hin].
    by rewrite bool_decide_eq_true_2 in Hin. }
  split_and!; [done..|].
  destruct memberIds as [|m members]; [done|].
  destruct replies as [|[v|e] replies]; cbn [finish awaitCommand failed];
    handler_leaf s.
Qed.

(** How a handler has ended, as its last effects show: it has reported
    an error for the request, or it has asked for a poll, with or without
    publishing the state first. *)
Definition reported (request : string) (tail : list Effect) : Prop :=
  ∃ error, tail = [EmitError request error].

Definition polled s (tail : list Effect) : Prop :=
  ∃ delayMs,
    tail = poll_soon s delayMs
    ∨ tail = EmitPlayersAndState :: poll_soon s delayMs.

Ltac outcome_tail :=
  cbn [waiting];
  first
    [ split; done
    | left; by eexists
    | right; left; eexists; left; reflexivity
    | right; left; eexists; right; reflexivity ].

Ltac outcome_trace :=
  cbn [finish]; rewrite ?trace_schedulePollSoon;
  cbn [trace emitError sendCommand emitPlayersAndState emit set_caches
         set_queueItemsCache];
  rewrite <-?app_assoc; cbn [app fmap list_fmap]; reflexivity.

Ltac outcome_leaf :=
  unfold awaitCommand, failed, selectLeader, refresh;
  first
    [ solve [exists []; eexists; split; [outcome_trace|outcome_tail]]
    | solve [eexists [_]; eexists; split; [outcome_trace|outcome_tail]]
    | solve [eexists [_; _]; eexists; split; [outcome_trace|outcome_tail]] ].

(** The requests whose cases are not modelled. *)
Lemma handleSet_modelled request payload s :
  request ∉ ["ma:connect"; "ma:startProviderAuth"; "ma:disconnect";
             "ma:adjustVolume"; "ma:transferQueue"] →
  ∃ h, handleSet request payload s = Some h.
Proof.
  rewrite !not_elem_of_cons. intros (? & ? & ? & ? & ? & _).
  unfold handleSet.
  repeat match goal with
         | |- context [decide (request = ?name)] =>
             destruct (decide (request = name)); [done || by eexists|]
         end.
  by eexists.
Qed.

(** How the modelled cases end. *)
Lemma handleSet_outcome_cases request payload s h replies :
  handleSet request payload s = Some h →
  ∃ cmds tail,
    trace (finish replies h) = trace s ++ (Send <$> cmds) ++ tail
    ∧ if waiting replies h then tail = [] ∧ cmds ≠ []
      else reported request tail ∨ polled s tail
           ∨ (tail = [] ∧ cmds = []
              ∧ request ∉ ["ma:selectPlayer"; "ma:transport"; "ma:setVolume";
                           "ma:refresh"; "ma:playMedia"; "ma:setShuffle";
                           "ma:setRepeat"; "ma:groupPlayer";
                           "ma:ungroupPlayer"; "ma:ungroupAll"]).
Proof.
  unfold handleSet. intros Hh.
  repeat match type of Hh with
         | (if decide (?r = ?name) then _ else _) = _ =>
             destruct (decide (r = name)) as [->|?]; [try discriminate Hh|]
         end;
    try injection Hh as <-.
  - (* ma:selectPlayer *)
    unfold selectPlayer. cbv zeta.
    destruct (parsePlayerId payload) as [playerId|]; [|outcome_leaf].
    destruct (negb _); [outcome_leaf|].
    destruct (decide _) as [Hsame|Hsame]; outcome_leaf.
  - (* ma:transport *)
    unfold transport. cbv zeta.
    destruct (parseTransportCommand payload) as [command_|]; [|outcome_leaf].
    destruct (getTargetPlayerId s) as [playerId|error]; [|outcome_leaf].
    destruct replies as [|[v|e] replies]; outcome_leaf.
  - (* ma:setVolume *)
    unfold setVolume. cbv zeta.
    destruct (parseVolume payload) as [volume|]; [|outcome_leaf].
    pose proof (setVolumeAbsolute_sends volume (parseVolumeScope payload)
                  (parseVolumePlayerIds payload) s) as Hset.
    cbv zeta in Hset.
    destruct (getVolumeTargetPlayerIds _ _ s) as [ids|error].
    2:{ rewrite Hset. outcome_leaf. }
    destruct Hset as (Hne & _ & s1 & -> & Htrace & _ & _ & Hpoll).
    exists ((fun id => volume_set id (clamp (JS.Math_round volume))) <$> ids).
    rewrite <-list_fmap_compose.
    change (Send ∘ _) with (sets_volume (clamp (JS.Math_round volume))).
    destruct replies as [|[v|e] replies]; cbn [finish waiting].
    + exists []. rewrite app_nil_r. split; [done|]. split; [done|].
      by destruct ids.
    + exists (poll_soon s 250). rewrite trace_schedulePollSoon, Htrace.
      rewrite <-app_assoc. unfold poll_soon at 1. rewrite Hpoll.
      split; [done|]. right; left. exists 250%Q. by left.
    + exists [EmitError "ma:setVolume" e]. unfold failed. cbn [finish trace
        emitError emit]. rewrite Htrace, <-app_assoc.
      split; [done|]. left. by eexists.
  - (* ma:refresh *)
    outcome_leaf.
  - (* ma:playMedia *)
    unfold playMedia. cbv zeta.
    destruct (parseMediaUri payload) as [uri|]; [|outcome_leaf].
    destruct (getTargetQueueId s) as [queueId|error]; [|outcome_leaf].
    destruct replies as [|[v|e] replies]; outcome_leaf.
  - (* ma:setShuffle *)
    unfold setShuffle. cbv zeta.
    destruct (parseShuffleEnabled payload) as [shuffleEnabled|];
      [|outcome_leaf].
    destruct (getSelectedQueue s) as [queue|error]; [|outcome_leaf].
    destruct replies as [|[v|e] replies]; outcome_leaf.
  - (* ma:setRepeat *)
    unfold setRepeat. cbv zeta.
    destruct (parseRepeatMode payload) as [repeatMode|]; [|outcome_leaf].
    destruct (getSelectedQueue s) as [queue|error]; [|outcome_leaf].
    destruct replies as [|[v|e] replies]; outcome_leaf.
  - (* ma:groupPlayer *)
    unfold groupPlayer. cbv zeta.
    destruct (getTargetPlayerId s) as [leader|error]; [|outcome_leaf].
    destruct (parseTargetPlayerId payload) as [target|]; [|outcome_leaf].
    destruct (decide (target = leader)) as [Hself|Hself]; [outcome_leaf|].
    destruct (_ ≫= parentId_of) as [parent|].
    + destruct (decide (parent = leader)) as [Hparent|Hparent].
      * destruct replies as [|[v|e] replies]; outcome_leaf.
      * destruct replies as [|[v|e] [|[v'|e'] replies]]; outcome_leaf.
    + destruct replies as [|[v|e] replies]; outcome_leaf.
  - (* ma:ungroupPlayer *)
    unfold ungroupPlayer. cbv zeta.
    destruct (parseTargetPlayerId payload) as [target|].
    + destruct replies as [|[v|e] replies]; outcome_leaf.
    + destruct (getTargetPlayerId s) as [playerId|error]; [|outcome_leaf].
      destruct replies as [|[v|e] replies]; outcome_leaf.
  - (* ma:ungroupAll *)
    unfold ungroupAll. cbv zeta.
    destruct (getTargetPlayerId s) as [leader|error]; [|outcome_leaf].
    destruct (List.filter _ _) as [|member members]; [outcome_leaf|].
    destruct replies as [|[v|e] replies]; outcome_leaf.
  - (* any other request *)
    exists [], []. split; [by rewrite app_nil_r|]. cbn. do 2 right.
    split_and!; [done..|]. rewrite !elem_of_cons, elem_of_nil. naive_solver.
Qed.

(** The selection names a cached player, if it names one. *)
Definition selection_cached s : Prop :=
  ∀ id, selectedPlayerId s = Some id → id ∈ player_id <$> playersCache s.

Lemma selection_cached_same s s' :
  selectedPlayerId s' = selectedPlayerId s →
  playersCache s' = playersCache s →
  selection_cached s →
  playersCache s' = playersCache s ∧ selection_cached s'.
Proof.
  intros Hsel Hplayers Hok. split; [done|]. unfold selection_cached.
  by rewrite Hsel, Hplayers.
Qed.

Lemma selection_cached_set s s' id :
  selectedPlayerId s' = Some id →
  playersCache s' = playersCache s →
  id ∈ player_id <$> playersCache s →
  playersCache s' = playersCache s ∧ selection_cached s'.
Proof.
  intros Hsel Hplayers Hin. split; [done|]. unfold selection_cached.
  rewrite Hsel, Hplayers. by intros ? [= <-].
Qed.

Lemma getTargetPlayerId_cached s playerId :
  getTargetPlayerId s = Normal playerId →
  playerId ∈ player_id <$> playersCache s.
Proof.
  intros Hget. pose proof (getTargetPlayerId_cases s) as Hspec.
  destruct (findPlayerById (playersCache s) (selectedPlayerId s)).
  - destruct Hspec as (target & Heq & _ & _ & Hfound).
    rewrite Heq in Hget. injection Hget as <-.
    apply findPlayerById_Some in Hfound as (_ & Hin & _).
    apply list_elem_of_fmap. by exists target.
  - congruence.
Qed.

Ltac fields_leaf :=
  unfold awaitCommand, failed, selectLeader, refresh; cbn [finish];
  rewrite ?selected_schedulePollSoon, ?players_schedulePollSoon; reflexivity.

Ltac same_leaf :=
  apply selection_cached_same; [fields_leaf|fields_leaf|assumption].

Ltac set_leaf :=
  eapply selection_cached_set; [fields_leaf|fields_leaf|assumption].

(** X13. How a request of [handleSet] ends, for every request but
    ['ma:connect'], ['ma:startProviderAuth'], ['ma:disconnect'],
    ['ma:adjustVolume'] and ['ma:transferQueue'], whose cases are not
    modelled. The handler sends its commands and then, unless it is
    still waiting for a reply, does exactly one of two things and
    nothing after it: it reports one error under the name of the
    request, or it schedules a poll (after publishing the state, for the
    requests that change the selection). A request that is none of the
    known ones does nothing. *)
Theorem handleSet_outcome request payload s replies :
  request ∉ ["ma:connect"; "ma:startProviderAuth"; "ma:disconnect";
             "ma:adjustVolume"; "ma:transferQueue"] →
  ∃ h,
    handleSet request payload s = Some h
    ∧ ∃ cmds tail,
        trace (finish replies h) = trace s ++ (Send <$> cmds) ++ tail
        ∧ if waiting replies h then tail = [] ∧ cmds ≠ []
          else reported request tail ∨ polled s tail
               ∨ (tail = [] ∧ cmds = []
                  ∧ request
                    ∉ ["ma:selectPlayer"; "ma:transport"; "ma:setVolume";
                       "ma:refresh"; "ma:playMedia"; "ma:setShuffle";
                       "ma:setRepeat"; "ma:groupPlayer";
                       "ma:ungroupPlayer"; "ma:ungroupAll"]).
Proof.
  intros Hrequest.
  destruct (handleSet_modelled request payload s Hrequest) as (h & Hh).
  exists h. split; [done|].
  by apply (handleSet_outcome_cases request payload).
Qed.

(** The modelled cases keep the selection in the players cache. *)
Lemma handleSet_selection_kept request payload s h replies :
  handleSet request payload s = Some h →
  selection_cached s →
  playersCache (finish replies h) = playersCache s
  ∧ selection_cached (finish replies h).
Proof.
  unfold handleSet. intros Hh Hok.
  repeat match type of Hh with
         | (if decide (?r = ?name) then _ else _) = _ =>
             destruct (decide (r = name)) as [->|?]; [try discriminate Hh|]
         end;
    try injection Hh as <-.
  - (* ma:selectPlayer *)
    unfold selectPlayer. cbv zeta.
    destruct (parsePlayerId payload) as [playerId|]; [|same_leaf].
    destruct (existsb _ _) eqn:Hexists; cbn [negb]; [|same_leaf].
    destruct (decide _) as [Hsame|Hsame]; [same_leaf|].
    assert (playerId ∈ player_id <$> playersCache s) as Hin.
    { apply List.existsb_exists in Hexists as (p & Hp & Hid).
      apply bool_decide_eq_true in Hid. apply list_elem_of_fmap.
      exists p. by rewrite list_elem_of_In. }
    set_leaf.
  - (* ma:transport *)
    unfold transport. cbv zeta.
    destruct (parseTransportCommand payload) as [command_|]; [|same_leaf].
    destruct (getTargetPlayerId s) as [playerId|error]; [|same_leaf].
    destruct replies as [|[v|e] replies]; same_leaf.
  - (* ma:setVolume *)
    unfold setVolume. cbv zeta.
    destruct (parseVolume payload) as [volume|]; [|same_leaf].
    pose proof (setVolumeAbsolute_sends volume (parseVolumeScope payload)
                  (parseVolumePlayerIds payload) s) as Hset.
    cbv zeta in Hset.
    destruct (getVolumeTargetPlayerIds _ _ s) as [ids|error].
    2:{ rewrite Hset. same_leaf. }
    destruct Hset as (_ & _ & s1 & -> & _ & Hsel & Hplayers & _).
    apply selection_cached_same; [| |done];
      destruct replies as [|[v|e] replies]; cbn [finish failed];
      rewrite ?selected_schedulePollSoon, ?players_schedulePollSoon; done.
  - (* ma:refresh *)
    same_leaf.
  - (* ma:playMedia *)
    unfold playMedia. cbv zeta.
    destruct (parseMediaUri payload) as [uri|]; [|same_leaf].
    destruct (getTargetQueueId s) as [queueId|error]; [|same_leaf].
    destruct replies as [|[v|e] replies]; same_leaf.
  - (* ma:setShuffle *)
    unfold setShuffle. cbv zeta.
    destruct (parseShuffleEnabled payload) as [shuffleEnabled|]; [|same_leaf].
    destruct (getSelectedQueue s) as [queue|error]; [|same_leaf].
    destruct replies as [|[v|e] replies]; same_leaf.
  - (* ma:setRepeat *)
    unfold setRepeat. cbv zeta.
    destruct (parseRepeatMode payload) as [repeatMode|]; [|same_leaf].
    destruct (getSelectedQueue s) as [queue|error]; [|same_leaf].
    destruct replies as [|[v|e] replies]; same_leaf.
  - (* ma:groupPlayer *)
    unfold groupPlayer. cbv zeta.
    destruct (getTargetPlayerId s) as [leader|error] eqn:Hleader;
      [|same_leaf].
    apply getTargetPlayerId_cached in Hleader.
    destruct (parseTargetPlayerId payload) as [target|]; [|same_leaf].
    destruct (decide (target = leader)) as [Hself|Hself]; [same_leaf|].
    destruct (_ ≫= parentId_of) as [parent|].
    + destruct (decide (parent = leader)) as [Hparent|Hparent].
      * destruct replies as [|[v|e] replies]; (same_leaf || set_leaf).
      * destruct replies as [|[v|e] [|[v'|e'] replies]];
          (same_leaf || set_leaf).
    + destruct replies as [|[v|e] replies]; (same_leaf || set_leaf).
  - (* ma:ungroupPlayer *)
    unfold ungroupPlayer. cbv zeta.
    destruct (parseTargetPlayerId payload) as [target|].
    + destruct replies as [|[v|e] replies]; same_leaf.
    + destruct (getTargetPlayerId s) as [playerId|error]; [|same_leaf].
      destruct replies as [|[v|e] replies]; same_leaf.
  - (* ma:ungroupAll *)
    unfold ungroupAll. cbv zeta.
    destruct (getTargetPlayerId s) as [leader|error] eqn:Hleader;
      [|same_leaf].
    apply getTargetPlayerId_cached in Hleader.
    destruct (List.filter _ _) as [|member members]; [same_leaf|].
    destruct replies as [|[v|e] replies]; (same_leaf || set_leaf).
  - (* any other request *)
    done.
Qed.

(** X14. No request of [handleSet] but ['ma:connect'],
    ['ma:startProviderAuth'], ['ma:disconnect'], ['ma:adjustVolume'] and
    ['ma:transferQueue'], whose cases are not modelled, replaces the
    players cache, and none of them leaves a selection that is not in
    it: if the selected id named a cached player before the request (or
    was null), so it does when the handler has run, whatever the server
    replies, as long as no poll has replaced the cache while the handler
    was suspended. *)
Theorem handleSet_selection_cached request payload s replies :
  request ∉ ["ma:connect"; "ma:startProviderAuth"; "ma:disconnect";
             "ma:adjustVolume"; "ma:transferQueue"] →
  selection_cached s →
  ∃ h,
    handleSet request payload s = Some h
    ∧ playersCache (finish replies h) = playersCache s
    ∧ selection_cached (finish replies h).
Proof.
  intros Hrequest Hok.
  destruct (handleSet_modelled request payload s Hrequest) as (h & Hh).
  exists h. split; [done|].
  by apply (handleSet_selection_kept request payload).
Qed.

End RequestFacts.

(** * The poll timer *)

Section PollTimerFacts.
Import Reconciler.

Implicit Types (s : Reconciler.t) (evs : list Event).

Definition arms (effect : Effect) : bool :=
  match effect with SetTimeout _ => true | _ => false end.

Definition clears (effect : Effect) : bool :=
  match effect with ClearTimeout => true | _ => false end.

Definition count (test : Effect → bool) (effects : list Effect) : nat :=
  length (List.filter test effects).

(** How many of the events are the timer of [schedulePollSoon] going
    off: the callback can only run while its timer is armed. *)
Fixpoint fired s evs : nat :=
  match evs with
  | [] => 0
  | ev :: evs =>
      match ev with
      | ScheduledPollFired _ => if scheduledPoll s then 1 else 0
      | _ => 0
      end + fired (step s ev) evs
  end.

Definition pending_timer s : nat := if scheduledPoll s then 1 else 0.

(** A step that does not touch the timer. *)
Definition timer_kept s s' : Prop :=
  scheduledPoll s' = scheduledPoll s
  ∧ count arms (trace s') = count arms (trace s)
  ∧ count clears (trace s') = count clears (trace s).

Lemma count_snoc test effects effect :
  count test (effects ++ [effect])
  = count test effects + if test effect then 1 else 0.
Proof.
  unfold count. rewrite List.filter_app, length_app. simpl.
  by destruct (test effect).
Qed.

#[local] Instance timer_kept_preorder : PreOrder timer_kept.
Proof.
  split; [done|]. intros s1 s2 s3 (? & ? & ?) (? & ? & ?).
  split_and!; congruence.
Qed.

Lemma timer_kept_emit effect s :
  arms effect = false → clears effect = false → timer_kept s (emit effect s).
Proof.
  intros Harms Hclears. split_and!; [done|..]; cbn [trace emit];
    rewrite count_snoc, ?Harms, ?Hclears; lia.
Qed.

Lemma timer_kept_pollState env s : timer_kept s (pollState env s).
Proof.
  unfold pollState.
  destruct (pollInFlight s); [done|].
  destruct (isConnected env); [|by apply timer_kept_emit].
  destruct (isAuthenticated env); [|by apply timer_kept_emit].
  cbn [negb].
  etrans; [|by instantiate (1 := sendCommand "player_queues/all" [] _)].
  etrans; [|by apply timer_kept_emit].
  etrans; [|by apply timer_kept_emit]. done.
Qed.

Lemma timer_kept_poll_finally env s : timer_kept s (poll_finally env s).
Proof.
  unfold poll_finally. cbv zeta.
  set (s1 := set_pollInFlight false _).
  assert (timer_kept s s1) as H1 by done.
  destruct (pollAgain s1); [|done].
  etrans; [exact H1|]. etrans; [|apply timer_kept_pollState]. done.
Qed.

Lemma timer_kept_poll_publish env s : timer_kept s (poll_publish env s).
Proof.
  unfold poll_publish. cbv zeta.
  etrans; [|apply timer_kept_poll_finally].
  etrans; [|by apply timer_kept_emit]. by apply timer_kept_emit.
Qed.

Lemma timer_kept_onListsSettled env r s : timer_kept s (onListsSettled env r s).
Proof.
  unfold onListsSettled. destruct (phase s); [done| |done].
  destruct r as [[players queues]|reason].
  - cbv zeta. set (s1 := set_caches _ _ _ s).
    assert (timer_kept s s1) as H1 by done.
    destruct (resolveQueueForPlayer _ _) as [queue|].
    + destruct (JS.truthy (queue_id queue)).
      * etrans; [exact H1|].
        etrans; [|by instantiate (1 := sendCommand "player_queues/items" _ s1)].
        by apply timer_kept_emit.
      * etrans; [exact H1|]. etrans; [|apply timer_kept_poll_publish]. done.
    + etrans; [exact H1|]. etrans; [|apply timer_kept_poll_publish]. done.
  - cbv zeta. etrans; [|apply timer_kept_poll_finally].
    etrans; [|by apply timer_kept_emit]. by apply timer_kept_emit.
Qed.

Lemma timer_kept_onItemsSettled env r s : timer_kept s (onItemsSettled env r s).
Proof.
  unfold onItemsSettled. destruct (phase s); [done..|].
  etrans; [|apply timer_kept_poll_publish]. done.
Qed.

Lemma timer_step s ev :
  count arms (trace (step s ev)) + count clears (trace s) + pending_timer s
  = count arms (trace s) + count clears (trace (step s ev))
    + fired s [ev] + pending_timer (step s ev).
Proof.
  assert (∀ s', timer_kept s s' →
            count arms (trace s') + count clears (trace s) + pending_timer s
            = count arms (trace s) + count clears (trace s')
              + 0 + pending_timer s') as Hkept.
  { intros s' (Hp & Ha & Hc). unfold pending_timer. rewrite Hp, Ha, Hc. lia. }
  destruct ev as [env|env|delayMs|env r|env r]; cbn [step fired].
  - rewrite (Hkept _ (timer_kept_pollState env s)). lia.
  - unfold onScheduledPoll. destruct (scheduledPoll s) eqn:Hs; [|
      unfold pending_timer; rewrite Hs; lia].
    destruct (timer_kept_pollState env (set_scheduledPoll false s))
      as (Hp & Ha & Hc).
    unfold pending_timer. rewrite Hp, Ha, Hc, Hs.
    cbn [trace set_scheduledPoll scheduledPoll]. lia.
  - unfold schedulePollSoon, pending_timer.
    destruct (scheduledPoll s);
      cbn [trace emit set_scheduledPoll scheduledPoll];
      rewrite !count_snoc; cbn [arms clears]; lia.
  - rewrite (Hkept _ (timer_kept_onListsSettled env r s)). lia.
  - rewrite (Hkept _ (timer_kept_onItemsSettled env r s)). lia.
Qed.

Lemma timer_run s evs :
  count arms (trace (run s evs)) + count clears (trace s) + pending_timer s
  = count arms (trace s) + count clears (trace (run s evs))
    + fired s evs + pending_timer (run s evs).
Proof.
  revert s. induction evs as [|ev evs IH]; intros s.
  - simpl. lia.
  - pose proof (timer_step s ev) as Hstep. pose proof (IH (step s ev)) as Hrun.
    cbn [fired] in *. change (run s (ev :: evs)) with (run (step s ev) evs).
    lia.
Qed.

(** X15. At most one poll timer is armed at any time. In every state
    the reconciler reaches from its start by triggers, poll requests,
    timers going off and replies, the timers it has armed are the ones it
    has cleared, the ones that have gone off and, exactly when
    [scheduledPoll] is set, one more; and a timer that goes off calls
    [pollState] once and leaves none armed. *)
Theorem one_scheduled_poll evs :
  let s := run init evs in
  count arms (trace s)
  = count clears (trace s) + fired init evs + pending_timer s
  ∧ ∀ env, scheduledPoll s = true →
      step s (ScheduledPollFired env)
      = pollState env (set_scheduledPoll false s)
      ∧ scheduledPoll (step s (ScheduledPollFired env)) = false
      ∧ step (step s (ScheduledPollFired env)) (ScheduledPollFired env)
        = step s (ScheduledPollFired env).
Proof.
  intros s. split.
  - pose proof (timer_run init evs) as Hrun. fold s in Hrun.
    cbn in Hrun. lia.
  - intros env Hs. cbn [step]. unfold onScheduledPoll. rewrite Hs.
    destruct (timer_kept_pollState env (set_scheduledPoll false s))
      as (Hp & _). rewrite Hp. cbn. done.
Qed.

End PollTimerFacts.

(** * More on the client: the status it reports *)

Section ClientStatusFacts.
Import Client.

Variable JSON_parse : string -> option JSON.

Implicit Types (c : Client.t) (p : Promise) (o : Outcome)
  (sn : MAStatusSnapshot.t).

(** ** Steps that do not touch the status *)

Definition not_status (eff : Effect) : Prop := ∀ sn, eff ≠ StatusChange sn.

Record quiet (c c' : Client.t) : Prop := {
  quiet_ws : ws c' = ws c;
  quiet_authToken : authToken c' = authToken c;
  quiet_state : state c' = state c;
  quiet_message : message c' = message c;
  quiet_authenticated : authenticated c' = authenticated c;
  quiet_serverInfo : serverInfo c' = serverInfo c;
  quiet_trace : ∃ tr, trace c' = trace c ++ tr ∧ Forall not_status tr
}.

#[local] Instance quiet_preorder : PreOrder quiet.
Proof.
  split.
  - intros c. split; try done. exists []. by rewrite app_nil_r.
  - intros c1 c2 c3 [? ? ? ? ? ? (tr1 & Htr1 & Hall1)]
      [? ? ? ? ? ? (tr2 & Htr2 & Hall2)].
    split; try congruence. exists (tr1 ++ tr2).
    split; [by rewrite Htr2, Htr1, app_assoc|by apply Forall_app].
Qed.

Lemma quiet_same c c' :
  ws c' = ws c → authToken c' = authToken c → state c' = state c →
  message c' = message c → authenticated c' = authenticated c →
  serverInfo c' = serverInfo c → trace c' = trace c → quiet c c'.
Proof.
  intros. split; try done. exists []. by rewrite app_nil_r.
Qed.

Lemma quiet_set_pending v c : quiet c (set_pending v c).
Proof. by apply quiet_same. Qed.
Lemma quiet_set_timers v c : quiet c (set_timers v c).
Proof. by apply quiet_same. Qed.
Lemma quiet_set_settled v c : quiet c (set_settled v c).
Proof. by apply quiet_same. Qed.
Lemma quiet_set_microtasks v c : quiet c (set_microtasks v c).
Proof. by apply quiet_same. Qed.
Lemma quiet_set_next_handle v c : quiet c (set_next_handle v c).
Proof. by apply quiet_same. Qed.

Lemma quiet_emit eff c : not_status eff → quiet c (emit eff c).
Proof.
  intros Heff. split; try done. exists [eff]. split; [done|].
  by constructor.
Qed.

Ltac quiet_step :=
  first
    [ reflexivity
    | etrans;
      [|first [ apply quiet_set_pending | apply quiet_set_timers
              | apply quiet_set_settled | apply quiet_set_microtasks
              | apply quiet_set_next_handle
              | apply quiet_emit; intros ?; discriminate ]] ].

Lemma quiet_settle_promise p o c : quiet c (settle_promise p o c).
Proof.
  unfold settle_promise. cbv zeta.
  destruct (decide _); destruct o; repeat quiet_step.
Qed.

Lemma quiet_clearTimeout h c : quiet c (clearTimeout h c).
Proof. unfold clearTimeout. repeat quiet_step. Qed.

Lemma quiet_sendCommand uuid w command_ args_ c :
  quiet c (completed (sendCommand uuid w command_ args_ c)).
Proof.
  unfold sendCommand.
  destruct (ws c) as [socket|]; [|done].
  destruct (decide (readyState socket = OPEN)) as [Hopen|]; [|done].
  cbv zeta. unfold completed. repeat quiet_step.
Qed.

Lemma quiet_onCommandTimeout tm c : quiet c (onCommandTimeout tm c).
Proof.
  unfold onCommandTimeout. cbv zeta.
  etrans; [|apply quiet_settle_promise]. repeat quiet_step.
Qed.

Lemma quiet_rejectPendingRequests_loop entries msg c :
  quiet c (rejectPendingRequests_loop entries msg c).
Proof.
  revert c. induction entries as [|[id e] entries IH]; intros c; simpl;
    [done|].
  etrans; [|apply IH]. etrans; [|apply quiet_set_pending].
  etrans; [|apply quiet_settle_promise]. apply quiet_clearTimeout.
Qed.

Lemma quiet_handleResultMessage msg c : quiet c (handleResultMessage msg c).
Proof.
  unfold handleResultMessage.
  destruct (JS.Map_get _ _) as [e|]; [|done].
  destruct msg as [id payload [|]|id code details].
  - destruct (asArray payload); [apply quiet_set_pending|done].
  - cbv zeta.
    destruct (partialResults e), (asArray payload);
      (etrans; [|apply quiet_settle_promise]);
      (etrans; [|apply quiet_set_pending]); apply quiet_clearTimeout.
  - cbv zeta. etrans; [|apply quiet_settle_promise].
    etrans; [|apply quiet_set_pending]. apply quiet_clearTimeout.
Qed.

(** ** The status snapshots agree with themselves *)

(** A step that may change the socket, the token or the server info,
    but neither the state nor the flag, and broadcasts no status. *)
Record calm (c c' : Client.t) : Prop := {
  calm_state : state c' = state c;
  calm_authenticated : authenticated c' = authenticated c;
  calm_trace : ∃ tr, trace c' = trace c ++ tr ∧ Forall not_status tr
}.

#[local] Instance calm_preorder : PreOrder calm.
Proof.
  split.
  - intros c. split; try done. exists []. by rewrite app_nil_r.
  - intros c1 c2 c3 [? ? (tr1 & Htr1 & Hall1)] [? ? (tr2 & Htr2 & Hall2)].
    split; try congruence. exists (tr1 ++ tr2).
    split; [by rewrite Htr2, Htr1, app_assoc|by apply Forall_app].
Qed.

Lemma quiet_calm c c' : quiet c c' → calm c c'.
Proof. intros []. by split. Qed.

Lemma calm_same c c' :
  state c' = state c → authenticated c' = authenticated c →
  trace c' = trace c → calm c c'.
Proof. intros. split; try done. exists []. by rewrite app_nil_r. Qed.

Lemma calm_set_ws v c : calm c (set_ws v c).
Proof. by apply calm_same. Qed.
Lemma calm_set_authToken v c : calm c (set_authToken v c).
Proof. by apply calm_same. Qed.
Lemma calm_set_serverInfo v c : calm c (set_serverInfo v c).
Proof. by apply calm_same. Qed.
Lemma calm_set_connectPromise v c : calm c (set_connectPromise v c).
Proof. by apply calm_same. Qed.
Lemma calm_set_next_socket v c : calm c (set_next_socket v c).
Proof. by apply calm_same. Qed.
Lemma calm_set_microtasks v c : calm c (set_microtasks v c).
Proof. by apply calm_same. Qed.
Lemma calm_emit eff c : not_status eff → calm c (emit eff c).
Proof. intros. by apply quiet_calm, quiet_emit. Qed.

(** What a status snapshot must satisfy: it says "authenticated" exactly
    in the state [authenticated], and it asks for authentication only
    when it is not authenticated and the server's schema is 28 or more. *)
Definition snapshot_ok sn : Prop :=
  (MAStatusSnapshot.authenticated sn = true
   ↔ MAStatusSnapshot.state sn = Authenticated)
  ∧ (MAStatusSnapshot.authRequired sn = true →
     MAStatusSnapshot.authenticated sn = false
     ∧ ∃ info, MAStatusSnapshot.serverInfo sn = Some info
               ∧ (28 <= schema_version info)%Q).

Definition effect_ok (eff : Effect) : Prop :=
  match eff with
  | StatusChange sn => snapshot_ok sn
  | _ => True
  end.

Definition broadcasts_ok c : Prop := Forall effect_ok (trace c).

Definition flag_ok c : Prop := authenticated c = true ↔ state c = Authenticated.

Definition status_ok c : Prop := flag_ok c ∧ broadcasts_ok c.

Lemma getStatus_ok c : flag_ok c → snapshot_ok (getStatus c).
Proof.
  intros Hflag. split; [done|]. cbn.
  destruct (serverInfo c) as [info|]; [|done].
  intros [Hschema Hauth%negb_true_iff]%andb_true_iff.
  split; [done|]. exists info. split; [done|]. by apply Qle_bool_iff.
Qed.

Lemma broadcasts_ok_calm c c' : calm c c' → broadcasts_ok c → broadcasts_ok c'.
Proof.
  intros [_ _ (tr & Htr & Hall)] Hok. unfold broadcasts_ok. rewrite Htr.
  apply Forall_app. split; [done|].
  eapply Forall_impl; [done|]. intros [] Hns; try done. by destruct (Hns snapshot).
Qed.

Lemma status_ok_calm c c' : calm c c' → status_ok c → status_ok c'.
Proof.
  intros Hcalm [Hflag Hok]. split; [|by eapply broadcasts_ok_calm].
  unfold flag_ok. by rewrite (calm_state _ _ Hcalm), (calm_authenticated _ _ Hcalm).
Qed.

Lemma broadcasts_ok_same c c' :
  trace c' = trace c → broadcasts_ok c → broadcasts_ok c'.
Proof. unfold broadcasts_ok. by intros ->. Qed.

Lemma status_ok_updateStatus st msg (b : bool) c :
  (b = true ↔ st = Authenticated) → broadcasts_ok c →
  status_ok (updateStatus st msg (Some b) c).
Proof.
  intros Hpair Hok. unfold updateStatus. cbv zeta.
  set (c2 := set_authenticated b (set_status st msg c)).
  assert (flag_ok c2) as Hflag by done.
  split; [done|]. unfold broadcasts_ok. cbn [trace emit set_trace].
  apply Forall_app. split; [done|]. constructor; [|done].
  by apply getStatus_ok.
Qed.

Lemma status_ok_disconnect reason c :
  broadcasts_ok c → status_ok (disconnect reason c).
Proof.
  intros Hok. unfold disconnect. cbv zeta.
  apply status_ok_updateStatus; [done|].
  eapply broadcasts_ok_same; [reflexivity|].
  eapply (broadcasts_ok_same (rejectPendingRequests reason _)); [reflexivity|].
  eapply broadcasts_ok_calm;
    [apply quiet_calm, quiet_rejectPendingRequests_loop|].
  destruct (ws c) as [[s []]|];
    (eapply broadcasts_ok_calm; [|exact Hok]);
    first [ apply calm_set_ws
          | etrans; [apply calm_set_ws|apply calm_emit; intros ?; discriminate] ].
Qed.

Lemma status_ok_connect c : status_ok c → status_ok (completed (connect c)).
Proof.
  intros Hok.
  destruct (connectPromise c) eqn:Hpromise.
  { by rewrite connect_skipped by (by left). }
  destruct (JS.truthy (baseUrl c)) eqn:Hurl.
  2:{ by rewrite connect_skipped by (by right). }
  rewrite connect_proceeds by done. unfold completed.
  pose proof (status_ok_disconnect "Reconnecting…" c (proj2 Hok)) as Hdis.
  revert Hdis. generalize (disconnect "Reconnecting…" c). intros c0 Hdis.
  cbv zeta.
  eapply status_ok_calm.
  { etrans; [|apply calm_set_connectPromise].
    etrans; [|apply calm_set_ws].
    etrans; [|apply calm_emit; intros ?; discriminate].
    apply calm_set_next_socket. }
  apply status_ok_updateStatus; [done|].
  eapply broadcasts_ok_same; [reflexivity|].
  eapply (broadcasts_ok_same (set_serverInfo None c0)); [reflexivity|].
  apply Hdis.
Qed.

Lemma status_ok_authenticateWithToken token uuid origin c :
  broadcasts_ok c →
  broadcasts_ok (completed (authenticateWithToken token uuid origin c))
  ∧ (status_ok c →
     status_ok (completed (authenticateWithToken token uuid origin c)))
  ∧ ∀ c', authenticateWithToken token uuid origin c = Normal c' → status_ok c'.
Proof.
  intros Hok. unfold authenticateWithToken.
  destruct (negb (JS.truthy (JS.trim token))); [done|].
  destruct (negb (isConnected c)); [done|].
  pose proof (status_ok_updateStatus Authenticating
                "Authenticating with Music Assistant…" false c
                ltac:(done) Hok) as Hup.
  revert Hup. generalize (updateStatus Authenticating
    "Authenticating with Music Assistant…" (Some false) c). intros c0 Hup.
  pose proof (quiet_calm _ _
                (quiet_sendCommand uuid (Auth origin (JS.trim token)) "auth"
                   (Some [("token", JStr (JS.trim token))]) c0)) as Hcalm.
  pose proof (status_ok_calm _ _ Hcalm Hup) as Hdone.
  split_and!; [apply Hdone|done|].
  intros c' Heq. rewrite Heq in Hdone. apply Hdone.
Qed.

Lemma status_ok_handleServerInfo info uuid c :
  broadcasts_ok c → status_ok (handleServerInfo info uuid c).
Proof.
  intros Hok. unfold handleServerInfo. cbv zeta.
  assert (broadcasts_ok (set_serverInfo (Some info) c)) as Hok1 by done.
  revert Hok1. generalize (set_serverInfo (Some info) c). intros c0 Hok0.
  destruct (Qle_bool 28 (schema_version info));
    [|by apply status_ok_updateStatus].
  destruct (negb (JS.truthy (authToken c0)));
    [by apply status_ok_updateStatus|].
  destruct (status_ok_authenticateWithToken (authToken c0) uuid FromServerInfo
              c0 Hok0) as (Hw & _ & Hnormal).
  destruct (authenticateWithToken _ _ _ c0) as [c1|error c1].
  - by apply Hnormal.
  - by apply status_ok_updateStatus.
Qed.

Lemma status_ok_handleMessage rawText uuid c :
  status_ok c → status_ok (handleMessage JSON_parse rawText uuid c).
Proof.
  intros Hok. unfold handleMessage.
  destruct (JSON_parse rawText) as [message_|]; [|done].
  destruct (asRecord message_) as [parsed|]; [|done].
  destruct (parseServerInfo parsed) as [info|].
  { apply status_ok_handleServerInfo, Hok. }
  destruct (parseEventMessage parsed) as [ev|].
  { eapply status_ok_calm; [|done]. apply calm_emit. intros ?; discriminate. }
  destruct (parseResultMessage parsed) as [result|]; [|done].
  eapply status_ok_calm; [|done]. apply quiet_calm, quiet_handleResultMessage.
Qed.

Lemma status_ok_handle ev c :
  status_ok c → status_ok (handle JSON_parse ev c).
Proof.
  intros Hok. destruct ev; cbn [handle].
  - by apply status_ok_connect.
  - destruct (connectPromise c); [|done].
    destruct (ws c) as [[s []]|] eqn:Hws; try done.
    unfold onOpen. rewrite Hws. cbv zeta.
    eapply status_ok_calm; [apply calm_set_connectPromise|].
    apply status_ok_updateStatus; [done|]. apply Hok.
  - destruct (connectPromise c); [|done]. unfold onConnectError. cbv zeta.
    eapply status_ok_calm; [apply calm_set_connectPromise|].
    apply status_ok_disconnect.
    by apply status_ok_updateStatus; [|apply Hok].
  - destruct (is_current s c); [|done].
    eapply status_ok_calm; [apply calm_set_ws|done].
  - destruct (is_current s c); [|done]. by apply status_ok_handleMessage.
  - destruct (is_current s c); [|done]. unfold onClose. cbv zeta.
    eapply status_ok_calm.
    { etrans; [|apply calm_set_ws].
      apply quiet_calm, quiet_rejectPendingRequests_loop. }
    apply status_ok_updateStatus; [done|].
    eapply broadcasts_ok_same; [|apply Hok].
    unfold socket_closed. by destruct (ws c).
  - destruct (is_current s c); [|done].
    apply status_ok_updateStatus; [done|]. apply Hok.
  - apply status_ok_disconnect, Hok.
  - eapply status_ok_calm; [|done]. apply quiet_calm, quiet_sendCommand.
  - by apply status_ok_authenticateWithToken; [apply Hok|].
  - eapply status_ok_calm; [|done]. apply calm_set_authToken.
  - destruct (timers c !! h) as [tm|]; [|done].
    eapply status_ok_calm; [|done].
    etrans; [|apply quiet_calm, quiet_onCommandTimeout].
    apply quiet_calm, quiet_set_timers.
Qed.

Lemma status_ok_continue p o c : status_ok c → status_ok (continue_ p o c).
Proof.
  intros Hok. unfold continue_.
  destruct (p_waiter p) as [|[] token], o; try done.
  - apply status_ok_updateStatus; [done|]. apply Hok.
  - apply status_ok_updateStatus; [done|]. apply Hok.
  - apply status_ok_updateStatus; [done|]. apply Hok.
Qed.

Lemma status_ok_run_reactions jobs c :
  status_ok c → status_ok (run_reactions jobs c).
Proof.
  revert c. induction jobs as [|[p o] jobs IH]; intros c Hok; simpl; [done|].
  by apply IH, status_ok_continue.
Qed.

Lemma status_ok_step c ev : status_ok c → status_ok (step JSON_parse c ev).
Proof.
  intros Hok. unfold step, drain. apply status_ok_run_reactions.
  eapply status_ok_calm; [apply calm_set_microtasks|].
  by apply status_ok_handle.
Qed.

Lemma status_ok_run evs c : status_ok c → status_ok (run JSON_parse c evs).
Proof.
  revert c. induction evs as [|ev evs IH]; intros c Hok; [done|].
  by apply IH, status_ok_step.
Qed.

(** X16. Every status the client reports is consistent. In each state
    the client reaches, and in each snapshot it has broadcast on the way,
    [authenticated] is true exactly in the state [authenticated], and
    [authRequired] is set only when the client is not authenticated and
    the server info it holds has a schema version of 28 or more. *)
Theorem status_consistent url token evs :
  let c := run JSON_parse (new url token) evs in
  snapshot_ok (getStatus c)
  ∧ ∀ sn, StatusChange sn ∈ trace c → snapshot_ok sn.
Proof.
  intros c.
  assert (status_ok c) as [Hflag Hok].
  { apply status_ok_run. split; [done|]. by constructor. }
  split; [by apply getStatus_ok|]. intros sn Hin.
  unfold broadcasts_ok in Hok. rewrite Forall_forall in Hok.
  apply (Hok _ Hin).
Qed.

End ClientStatusFacts.

(** * More on the client: tearing down *)

Section ClientTeardownFacts.
Import Client.

Variable JSON_parse : string -> option JSON.

Implicit Types (c : Client.t) (p : Promise) (o : Outcome)
  (e : PendingRequest).

(** ** The promise reactions a teardown queues *)

(** The reaction of the handshake: the [catch] of [handleServerInfo]. *)
Definition handshake (w : Waiter) : bool :=
  match w with
  | Auth FromServerInfo _ => true
  | _ => false
  end.

(** A handshake authentication is in flight. *)
Definition handshaking c : bool :=
  existsb (fun entry => handshake (p_waiter (settle entry.2))) (pending c).

Lemma microtasks_run_reactions jobs c :
  microtasks (run_reactions jobs c) = microtasks c.
Proof.
  revert c. induction jobs as [|[p o] jobs IH]; intros c; simpl; [done|].
  rewrite IH. unfold continue_.
  by destruct (p_waiter p) as [|[] token], o.
Qed.

Lemma microtasks_step c ev : microtasks (step JSON_parse c ev) = [].
Proof. unfold step, drain. by rewrite microtasks_run_reactions. Qed.

Lemma microtasks_run url token evs :
  microtasks (run JSON_parse (new url token) evs) = [].
Proof.
  induction evs as [|ev evs IH] using rev_ind; [done|].
  unfold run. rewrite foldl_app. simpl. apply microtasks_step.
Qed.

Lemma settle_promise_job p o c :
  p_id p ∉ settled c →
  microtasks (settle_promise p o c) = microtasks c ++ [(p, o)].
Proof.
  intros Hfresh. unfold settle_promise. cbv zeta.
  destruct (decide _) as [Hin|]; [|done]. by destruct o.
Qed.

Lemma rejectPendingRequests_loop_jobs entries msg c :
  table_ok c → pending c = entries →
  microtasks (rejectPendingRequests_loop entries msg c)
  = microtasks c ++ ((fun entry => (settle entry.2, Rejected msg)) <$> entries).
Proof.
  revert c. induction entries as [|[id e] entries IH]; intros c Hok Hp.
  - simpl. by rewrite app_nil_r.
  - assert (JS.Map_get id (pending c) = Some e) as Hget.
    { rewrite Hp. simpl. by rewrite decide_True. }
    destruct (entry_unsettled _ _ _ Hok Hget) as [Hpid Hfresh].
    destruct (settle_promise_fresh (settle e) (Rejected msg)
                (clearTimeout (timeout e) c))
      as (Hp' & Htm' & Hs' & Hn' & Hc').
    { by rewrite Hpid. }
    pose proof (settle_promise_job (settle e) (Rejected msg)
                  (clearTimeout (timeout e) c)) as Hjob.
    rewrite Hpid in Hjob. specialize (Hjob Hfresh).
    cbn [rejectPendingRequests_loop]. rewrite IH.
    + cbn [microtasks set_pending]. rewrite Hjob. cbn [fmap list_fmap].
      by rewrite <-app_assoc.
    + eapply (table_ok_completes id e c); [done..|].
      split; cbn [pending timers settled next_handle trace set_pending].
      * by rewrite Hp'.
      * by rewrite Htm'.
      * by rewrite Hs', Hpid.
      * by rewrite Hn'.
      * intros h. rewrite Hc', Hpid. f_equal. cbn.
        by apply settlements_snoc_other.
    + cbn [pending set_pending]. rewrite Hp'. cbn. rewrite Hp. simpl.
      by rewrite decide_True.
Qed.

(** Running reactions that are all rejections with the same reason. *)
Lemma run_reactions_rejected msg (waiters : list Promise) c :
  let c' := run_reactions ((fun p => (p, Rejected msg)) <$> waiters) c in
  ws c' = ws c ∧ serverInfo c' = serverInfo c ∧ authToken c' = authToken c
  ∧ pending c' = pending c
  ∧ if existsb (fun p => handshake (p_waiter p)) waiters
    then state c' = Error
         ∧ message c' = ("Authentication failed: " ++ msg)%string
         ∧ authenticated c' = false
    else state c' = state c ∧ message c' = message c
         ∧ authenticated c' = authenticated c.
Proof.
  revert c. induction waiters as [|p waiters IH]; intros c; [done|].
  cbn [fmap list_fmap run_reactions existsb].
  pose proof (IH (continue_ p (Rejected msg) c)) as Hrest.
  cbv zeta in Hrest. destruct Hrest as (Hws & Hinfo & Htoken & Hpending & Hrest).
  unfold continue_ in *.
  destruct (p_waiter p) as [|[] token]; cbn [handshake orb] in *.
  - done.
  - done.
  - rewrite Hws, Hinfo, Htoken, Hpending.
    do 4 (split; [reflexivity|]).
    destruct (existsb _ waiters); [exact Hrest|].
    destruct Hrest as (-> & -> & ->). by split_and!.
Qed.

(** ** Disconnecting *)



Lemma existsb_fmap {A B : Type} (f : A → B) (test : B → bool) (l : list A) :
  existsb test (f <$> l) = existsb (test ∘ f) l.
Proof.
  induction l as [|x l IH]; [done|]. rewrite fmap_cons. cbn [existsb].
  by rewrite IH.
Qed.


(** ** The socket closes *)

Lemma onClose_fields c :
  let c' := onClose c in
  ws c' = None ∧ serverInfo c' = serverInfo c
  ∧ state c' = Disconnected
  ∧ message c' = "Disconnected from Music Assistant."
  ∧ authenticated c' = false.
Proof.
  unfold onClose. cbv zeta.
  assert (serverInfo (socket_closed c) = serverInfo c) as <-
    by (unfold socket_closed; by destruct (ws c)).
  generalize (socket_closed c). clear c. intros c.
  set (c1 := updateStatus _ _ _ c).
  pose proof (quiet_rejectPendingRequests_loop (pending c1) "Socket closed."
                c1) as Hq.
  fold (rejectPendingRequests "Socket closed." c1) in Hq.
  destruct Hq as [_ _ Hstate Hmsg Hauth Hinfo _].
  revert Hstate Hmsg Hauth Hinfo.
  generalize (rejectPendingRequests "Socket closed." c1).
  intros c2 Hstate Hmsg Hauth Hinfo.
  cbn [ws serverInfo state message authenticated set_ws].
  rewrite Hstate, Hmsg, Hauth, Hinfo. by subst c1.
Qed.

Lemma onClose_jobs c :
  table_ok c →
  microtasks (onClose c)
  = microtasks c
    ++ ((fun entry => (settle entry.2, Rejected "Socket closed."))
          <$> pending c).
Proof.
  intros Hok. unfold onClose. cbv zeta.
  apply (fun H => table_ok_same _ _ H (same_table_socket_closed c)) in Hok.
  assert (microtasks (socket_closed c) = microtasks c
          ∧ pending (socket_closed c) = pending c) as [<- <-]
    by (unfold socket_closed; by destruct (ws c)).
  revert Hok. generalize (socket_closed c). clear c. intros c Hok.
  set (c1 := updateStatus _ _ _ c).
  assert (table_ok c1) as Hok1.
  { eapply table_ok_same; [exact Hok|apply same_table_updateStatus]. }
  assert (pending c1 = pending c ∧ microtasks c1 = microtasks c)
    as [Hp1 Hm1] by done.
  clearbody c1.
  pose proof (rejectPendingRequests_loop_jobs (pending c1) "Socket closed." c1
                Hok1 eq_refl) as Hjobs.
  fold (rejectPendingRequests "Socket closed." c1) in Hjobs.
  revert Hjobs. generalize (rejectPendingRequests "Socket closed." c1).
  intros c2 Hjobs. cbn. by rewrite Hjobs, Hm1, Hp1.
Qed.

(** X18. The socket closes on its own. The socket is dropped, the
    pending requests are rejected and the client is no longer
    authenticated, but unlike [disconnect] the handler keeps the server
    info: the status still carries it, and still says that authentication
    is required when its schema version is 28 or more. The state is
    [disconnected], or [error] when the authentication of the handshake
    was in flight, as after [disconnect]. *)
Theorem close_keeps_server_info url token evs s :
  fresh_uuids JSON_parse (new url token) evs →
  let c := run JSON_parse (new url token) evs in
  is_current s c = true →
  let c' := step JSON_parse c (SocketClosed s) in
  ws c' = None ∧ authenticated c' = false ∧ pending c' = []
  ∧ serverInfo c' = serverInfo c
  ∧ MAStatusSnapshot.authRequired (getStatus c')
    = match serverInfo c with
      | Some info => Qle_bool 28 (schema_version info)
      | None => false
      end
  ∧ if handshaking c
    then state c' = Error
         ∧ message c' = "Authentication failed: Socket closed."
    else state c' = Disconnected
         ∧ message c' = "Disconnected from Music Assistant.".
Proof.
  intros Hfresh c Hcurrent c'.
  assert (table_ok c) as Hok.
  { apply table_ok_run; [apply table_ok_new|done]. }
  assert (microtasks c = []) as Hempty by apply microtasks_run.
  subst c'. unfold step. cbn [handle]. rewrite Hcurrent. unfold drain.
  rewrite (onClose_jobs c Hok), Hempty. cbn [app].
  destruct (onClose_fields c) as (Hws & Hinfo & Hstate & Hmsg & Hauth).
  destruct (onClose_ok c Hok) as [_ Hpending].
  revert Hws Hinfo Hstate Hmsg Hauth Hpending.
  cbv zeta. generalize (onClose c). intros c1 Hws Hinfo Hstate Hmsg Hauth
    Hpending.
  assert (((fun entry : string * PendingRequest =>
              (settle entry.2, Rejected "Socket closed.")) <$> pending c)
          = (fun p => (p, Rejected "Socket closed."))
              <$> ((fun entry : string * PendingRequest => settle entry.2)
                     <$> pending c)) as ->
    by (by rewrite <-list_fmap_compose).
  pose proof (run_reactions_rejected "Socket closed."
                ((fun entry : string * PendingRequest => settle entry.2)
                   <$> pending c) (set_microtasks [] c1)) as Hrun.
  cbv zeta in Hrun.
  destruct Hrun as (Hws' & Hinfo' & _ & Hpending' & Hrest).
  rewrite existsb_fmap in Hrest.
  change (existsb _ (pending c)) with (handshaking c) in Hrest.
  revert Hws' Hinfo' Hpending' Hrest.
  generalize (run_reactions
                ((fun p => (p, Rejected "Socket closed."))
                   <$> ((fun entry : string * PendingRequest => settle entry.2)
                          <$> pending c)) (set_microtasks [] c1)).
  intros c2 Hws' Hinfo' Hpending' Hrest.
  assert (authenticated c2 = false) as Hauth2.
  { destruct (handshaking c); [apply Hrest|].
    destruct Hrest as (_ & _ & ->). done. }
  assert (serverInfo c2 = serverInfo c) as Hinfo2 by (by rewrite Hinfo').
  split_and!.
  - by rewrite Hws'.
  - done.
  - by rewrite Hpending'.
  - done.
  - unfold getStatus. cbn. rewrite Hinfo2, Hauth2.
    destruct (serverInfo c); [|done]. by rewrite andb_true_r.
  - destruct (handshaking c).
    + by destruct Hrest as (? & ? & _).
    + destruct Hrest as (-> & -> & _). done.
Qed.

End ClientTeardownFacts.

(** * More on the client: how a command and the handshake end *)

Section ClientCommandFacts.
Import Client.

Variable JSON_parse : string -> option JSON.

Implicit Types (c : Client.t) (p : Promise) (o : Outcome)
  (e : PendingRequest).

(** What [sendCommand] leaves when it does not throw. *)
Lemma sendCommand_sent uuid w command_ args_ c c1 :
  sendCommand uuid w command_ args_ c = Normal c1 →
  let h := next_handle c in
  let promise := {| p_id := h; p_waiter := w |} in
  (∃ socket fields,
     ws c = Some socket ∧ readyState socket = OPEN
     ∧ trace c1
       = trace c
         ++ [SetTimeout h COMMAND_TIMEOUT_MS;
             SocketSend (sock socket) (JObj fields)]
     ∧ assoc "command" fields = Some (JStr command_)
     ∧ assoc "message_id" fields = Some (JStr uuid)
     ∧ assoc "args" fields
       = match args_ with
         | Some (entry :: rest) => Some (JObj (entry :: rest))
         | _ => None
         end)
  ∧ pending c1
    = JS.Map_set uuid {| settle := promise; timeout := h; partialResults := [] |}
        (pending c)
  ∧ timers c1
    = <[h := {| t_messageId := uuid; t_command := command_;
                t_reject := promise |}]> (timers c)
  ∧ settled c1 = settled c
  ∧ microtasks c1 = microtasks c
  ∧ next_handle c1 = S h.
Proof.
  unfold sendCommand. destruct (ws c) as [socket|] eqn:Hws; [|done].
  destruct (decide (readyState socket = OPEN)) as [Hopen|]; [|done].
  intros [= <-]. cbn. split_and!; try done.
  exists socket. eexists. do 2 (split; [done|]).
  split; [by rewrite <-app_assoc|]. split; [done|]. split; [done|].
  by destruct args_ as [[|entry rest]|].
Qed.

Lemma Map_delete_absent {V : Type} (m : list (string * V)) k :
  JS.Map_get k m = None → JS.Map_delete k m = m.
Proof.
  induction m as [|[k0 v0] m IH]; simpl; [done|].
  case_decide; [done|]. intros Hget. by rewrite IH.
Qed.

(** The reason an error frame rejects with: [details || error_code]. *)
Definition error_reason (code : string) (details : option string) : string :=
  if JS.truthy_opt details then default "" details else code.

(** X19. How a command fails. For a command sent under a fresh id: a
    frame for the id that carries a string [error_code], and has neither
    the shape of a server info nor a string [event], disarms the timer,
    removes the entry and rejects the promise with the frame's [details]
    when that is a string that is not empty and with its [error_code]
    otherwise. The same frame with a string [event] is taken for an
    event - the event shape is tested first - and the request stays
    pending. The timer going off removes the entry and rejects with
    "Music Assistant command timeout: " and the command, and a result
    that arrives for the id after that is ignored. *)
Theorem command_failures uuid w command_ args_ c c1 :
  JS.Map_get uuid (pending c) = None →
  sendCommand uuid w command_ args_ c = Normal c1 →
  let h := next_handle c in
  (∀ rawText fields code u,
     JSON_parse rawText = Some (JObj fields) →
     server_info_shape (RObj fields) = false →
     assoc "message_id" fields = Some (JStr uuid) →
     assoc "error_code" fields = Some (JStr code) →
     let c2 := handleMessage JSON_parse rawText u c1 in
     match assoc "event" fields with
     | Some (JStr name) =>
         pending c2 = pending c1 ∧ timers c2 = timers c1
         ∧ ∃ ev, event ev = name ∧ trace c2 = trace c1 ++ [EventDelivered ev]
     | _ =>
         trace c2
         = trace c1
           ++ [ClearTimeout h;
               Reject h match assoc "details" fields with
                        | Some (JStr (String a d)) => String a d
                        | _ => code
                        end]
         ∧ pending c2 = pending c
         ∧ timers c2 !! h = None
     end)
  ∧ let c2 := handle JSON_parse (TimerFired h) c1 in
    trace c2
    = trace c1
      ++ [Reject h ("Music Assistant command timeout: " ++ command_)%string]
    ∧ pending c2 = pending c
    ∧ timers c2 !! h = None
    ∧ ∀ msg, message_id_of msg = uuid → handleResultMessage msg c2 = c2.
Proof.
  intros Hfresh Hsent h.
  destruct (sendCommand_sent _ _ _ _ _ _ Hsent)
    as (_ & Hpending & Htimers & _ & _ & _).
  fold h in Hpending, Htimers.
  assert (JS.Map_get uuid (pending c1)
          = Some {| settle := {| p_id := h; p_waiter := w |}; timeout := h;
                    partialResults := [] |}) as Hget.
  { rewrite Hpending, Map_get_set. by rewrite decide_True. }
  assert (JS.Map_delete uuid (pending c1) = pending c) as Hdelete.
  { rewrite Hpending, Map_delete_set. by apply Map_delete_absent. }
  clear Hsent Hpending. split.
  - intros rawText fields code u Hparse Hshape Hid Hcode c2.
    subst c2. unfold handleMessage. rewrite Hparse. cbn [asRecord].
    pose proof (parseServerInfo_shape (RObj fields)) as Hinfo.
    rewrite Hshape in Hinfo. rewrite Hinfo.
    unfold parseEventMessage. cbn [prop].
    destruct (assoc "event" fields) as [[| | |name| |]|] eqn:Hevent.
    4:{ unfold deliver. cbn. split; [done|]. split; [done|].
        eexists. split; [|reflexivity]. reflexivity. }
    all: unfold parseResultMessage; cbn [prop]; rewrite Hid, Hcode.
    all: unfold handleResultMessage; cbn [message_id_of]; rewrite Hget.
    all: cbn [settle timeout].
    all: assert ((if JS.truthy_opt
                       match assoc "details" fields with
                       | Some (JStr d) => Some d
                       | _ => None
                       end
                  then default ""
                         match assoc "details" fields with
                         | Some (JStr d) => Some d
                         | _ => None
                         end
                  else code)
                 = match assoc "details" fields with
                   | Some (JStr (String a d)) => String a d
                   | _ => code
                   end) as ->
           by (by destruct (assoc "details" fields) as [[| | |[|a d]| |]|]).
    all: revert Hdelete Htimers.
    all: generalize (match assoc "details" fields with
                     | Some (JStr (String a d)) => String a d
                     | _ => code
                     end) as reason.
    all: clear Hget; generalize c1; intros c0 reason Hdelete Htimers.
    all: unfold settle_promise, clearTimeout; cbv zeta.
    all: destruct (decide _) as [Hin|Hnotin]; cbn;
      rewrite <-?app_assoc, ?Hdelete, ?lookup_delete_eq; by split_and!.
  - cbv zeta. cbn [handle]. rewrite Htimers, lookup_insert_eq.
    unfold onCommandTimeout. cbn [t_messageId t_command t_reject].
    cbv zeta.
    revert Hdelete. clear Hget Htimers. generalize c1. intros c0 Hdelete.
    assert (∀ c', pending c' = pending c →
                  ∀ msg, message_id_of msg = uuid →
                         handleResultMessage msg c' = c') as Hignored.
    { intros c' Hp msg Hmsg. unfold handleResultMessage.
      by rewrite Hmsg, Hp, Hfresh. }
    unfold settle_promise. cbv zeta.
    destruct (decide _) as [Hin|Hnotin]; cbn;
      rewrite ?Hdelete, ?lookup_delete_eq; split_and!; try done;
      by apply Hignored.
Qed.

(** ** The handshake with a token *)

Lemma drain_single p o c :
  microtasks c = [(p, o)] → drain c = continue_ p o (set_microtasks [] c).
Proof. intros Hjobs. unfold drain. by rewrite Hjobs. Qed.

Lemma drain_none c : microtasks c = [] → drain c = set_microtasks [] c.
Proof. intros Hjobs. unfold drain. by rewrite Hjobs. Qed.

Lemma sendCommand_Normal uuid w command_ args_ c :
  isConnected c = true → ∃ c1, sendCommand uuid w command_ args_ c = Normal c1.
Proof.
  unfold isConnected, sendCommand. destruct (ws c) as [socket|]; [|done].
  intros Hopen%bool_decide_eq_true. rewrite decide_True by done. by eexists.
Qed.

(** The reaction of an awaited command that ends, for a frame that is
    not partial. *)
Lemma handleResultMessage_reaction msg c e :
  JS.Map_get (message_id_of msg) (pending c) = Some e →
  p_id (settle e) ∉ settled c →
  microtasks c = [] →
  partialResults e = [] →
  match msg with
  | MAResultSuccessMessage _ result false =>
      drain (handleResultMessage msg c)
      = continue_ (settle e) (Fulfilled result)
          (set_microtasks [] (handleResultMessage msg c))
  | MAResultErrorMessage _ code details =>
      drain (handleResultMessage msg c)
      = continue_ (settle e) (Rejected (error_reason code details))
          (set_microtasks [] (handleResultMessage msg c))
  | _ => True
  end.
Proof.
  intros Hget Hfresh Hjobs Hacc.
  destruct msg as [id result [|]|id code details]; [done|..];
    apply drain_single; unfold handleResultMessage; rewrite Hget, ?Hacc;
    cbv zeta; rewrite settle_promise_job; try done;
    cbn [microtasks set_pending clearTimeout emit set_trace set_timers];
    by rewrite Hjobs.
Qed.

(** X20. The handshake with a stored token. When the server info of a
    server with schema 28 or more arrives on an open socket and a token
    is stored, the client takes the state [authenticating] and sends one
    [auth] command, whose arguments are the trimmed token. When that
    command succeeds the client is [authenticated] and its token is the
    trimmed one; when it fails, by
    an error frame or by its timer, the client is in the state [error]
    with the message "Authentication failed: " and the reason, and is
    not authenticated. *)
Theorem token_handshake url token evs info uuid :
  fresh_uuids JSON_parse (new url token) evs →
  let c := run JSON_parse (new url token) evs in
  isConnected c = true →
  JS.trim (authToken c) ≠ "" →
  (28 <= schema_version info)%Q →
  JS.Map_get uuid (pending c) = None →
  let h := next_handle c in
  let tok := JS.trim (authToken c) in
  let c1 := drain (handleServerInfo info uuid c) in
  (state c1 = Authenticating ∧ authenticated c1 = false
   ∧ serverInfo c1 = Some info
   ∧ JS.Map_get uuid (pending c1)
     = Some {| settle := {| p_id := h; p_waiter := Auth FromServerInfo tok |};
               timeout := h; partialResults := [] |}
   ∧ ∃ socket status fields,
       ws c = Some socket
       ∧ trace c1
         = trace c
           ++ [StatusChange status; SetTimeout h COMMAND_TIMEOUT_MS;
               SocketSend (sock socket) (JObj fields)]
       ∧ assoc "command" fields = Some (JStr "auth")
       ∧ assoc "message_id" fields = Some (JStr uuid)
       ∧ assoc "args" fields = Some (JObj [("token", JStr tok)]))
  ∧ (∀ result,
       let c2 :=
         drain (handleResultMessage
                  (MAResultSuccessMessage uuid result false) c1) in
       state c2 = Authenticated ∧ authenticated c2 = true
       ∧ authToken c2 = tok
       ∧ message c2 = "Connected and authenticated.")
  ∧ (∀ code details,
       let c3 :=
         drain (handleResultMessage
                  (MAResultErrorMessage uuid code details) c1) in
       state c3 = Error ∧ authenticated c3 = false
       ∧ message c3
         = ("Authentication failed: " ++ error_reason code details)%string
       ∧ authToken c3 = authToken c)
  ∧ let c4 := step JSON_parse c1 (TimerFired h) in
    state c4 = Error ∧ authenticated c4 = false
    ∧ message c4
      = "Authentication failed: Music Assistant command timeout: auth".
Proof.
  intros Hfresh c Hconnected Htoken Hschema Huuid h tok c1.
  assert (table_ok c) as Hok.
  { apply table_ok_run; [apply table_ok_new|done]. }
  assert (microtasks c = []) as Hempty by apply microtasks_run.
  assert (h ∉ settled c) as Hunsettled.
  { destruct (ok_handle _ Hok h) as [(_&?&_)|[(_&?&_)|(_&_&_&?)]];
      [subst h; lia..|done]. }
  assert (JS.truthy (authToken c) = true) as Htruthy.
  { apply truthy_ne. intros Heq. apply Htoken. by rewrite Heq. }
  apply truthy_ne in Htoken. apply Qle_bool_iff in Hschema.
  clearbody c. clear Hfresh.
  (* the state after the server info *)
  set (c0 := updateStatus Authenticating "Authenticating with Music Assistant…"
               (Some false) (set_serverInfo (Some info) c)).
  destruct (sendCommand_Normal uuid (Auth FromServerInfo tok) "auth"
              (Some [("token", JStr tok)]) c0 Hconnected) as (sent & Hsent).
  assert (handleServerInfo info uuid c = sent) as Hhandled.
  { unfold handleServerInfo. cbv zeta. rewrite Hschema.
    change (authToken (set_serverInfo (Some info) c)) with (authToken c).
    rewrite Htruthy. cbn [negb]. unfold authenticateWithToken.
    rewrite Htoken. cbn [negb].
    change (isConnected (set_serverInfo (Some info) c)) with (isConnected c).
    rewrite Hconnected. cbn [negb]. fold tok. fold c0. by rewrite Hsent. }
  pose proof (quiet_sendCommand uuid (Auth FromServerInfo tok) "auth"
                (Some [("token", JStr tok)]) c0) as Hquiet.
  rewrite Hsent in Hquiet. cbn [completed] in Hquiet.
  destruct (sendCommand_sent _ _ _ _ _ _ Hsent)
    as ((socket & fields & Hws & _ & Htrace & Hcommand & Hid & Hargs)
        & Hpending & Htimers & Hsettled & Hjobs & _).
  change (next_handle c0) with h in Hpending, Htimers, Htrace.
  change (pending c0) with (pending c) in Hpending.
  change (timers c0) with (timers c) in Htimers.
  change (settled c0) with (settled c) in Hsettled.
  change (microtasks c0) with (microtasks c) in Hjobs.
  change (ws c0) with (ws c) in Hws.
  destruct Hquiet as [_ Hq_token Hq_state _ Hq_auth Hq_info _].
  change (authToken c0) with (authToken c) in Hq_token.
  change (state c0) with Authenticating in Hq_state.
  change (authenticated c0) with false in Hq_auth.
  change (serverInfo c0) with (Some info) in Hq_info.
  assert (trace sent
          = trace c
            ++ [StatusChange (getStatus (set_authenticated false
                   (set_status Authenticating
                      "Authenticating with Music Assistant…"
                      (set_serverInfo (Some info) c))));
                SetTimeout h COMMAND_TIMEOUT_MS;
                SocketSend (sock socket) (JObj fields)]) as Htrace'.
  { rewrite Htrace. subst c0. cbn [trace updateStatus emit set_trace].
    rewrite <-app_assoc. reflexivity. }
  clear Htrace. clearbody c0.
  assert (c1 = set_microtasks [] sent) as Hc1.
  { subst c1. rewrite Hhandled. apply drain_none. by rewrite Hjobs. }
  clear Hhandled Hsent.
  set (entry := {| settle := {| p_id := h; p_waiter := Auth FromServerInfo tok |};
                   timeout := h; partialResults := [] |}) in *.
  assert (JS.Map_get uuid (pending c1) = Some entry) as Hget.
  { rewrite Hc1. cbn [pending set_microtasks]. rewrite Hpending, Map_get_set.
    by rewrite decide_True. }
  assert (state c1 = Authenticating ∧ authenticated c1 = false
          ∧ serverInfo c1 = Some info ∧ authToken c1 = authToken c
          ∧ trace c1 = trace sent ∧ settled c1 = settled c
          ∧ microtasks c1 = []
          ∧ timers c1 !! h
            = Some {| t_messageId := uuid; t_command := "auth";
                      t_reject := settle entry |})
    as (Hstate & Hauth & Hinfo & Htok & Htr & Hset & Hmicro & Htimer).
  { rewrite Hc1.
    cbn [state authenticated serverInfo authToken trace settled microtasks
           timers set_microtasks].
    rewrite Htimers, lookup_insert_eq. by split_and!. }
  clearbody c1. clear Hc1 Hpending Htimers Hsettled Hjobs Hq_token Hq_state
    Hq_auth Hq_info.
  split_and!.
  - done.
  - done.
  - done.
  - done.
  - exists socket. eexists. exists fields.
    split_and!; [done| |done..]. by rewrite Htr, Htrace'.
  - intros result c2. subst c2.
    pose proof (handleResultMessage_reaction
                  (MAResultSuccessMessage uuid result false) c1 entry Hget)
      as Hdrain.
    rewrite Hdrain; [|by rewrite Hset|done..].
    unfold continue_. cbn [settle entry p_waiter].
    generalize (set_microtasks []
                  (handleResultMessage
                     (MAResultSuccessMessage uuid result false) c1)).
    intros c2. by cbn.
  - intros code details c3. subst c3.
    pose proof (handleResultMessage_reaction
                  (MAResultErrorMessage uuid code details) c1 entry Hget)
      as Hdrain.
    rewrite Hdrain; [|by rewrite Hset|done..].
    unfold continue_. cbn [settle entry p_waiter].
    pose proof (quiet_handleResultMessage
                  (MAResultErrorMessage uuid code details) c1) as Hq.
    destruct Hq as [_ Hq_token _ _ _ _ _]. rewrite Htok in Hq_token.
    revert Hq_token.
    generalize (handleResultMessage (MAResultErrorMessage uuid code details)
                  c1).
    intros c3 Hq_token. cbn. by split_and!.
  - cbv zeta. unfold step. cbn [handle]. rewrite Htimer.
    rewrite (drain_single (settle entry)
               (Rejected "Music Assistant command timeout: auth")).
    + unfold continue_. cbn [settle entry p_waiter].
      generalize (set_microtasks []
                    (onCommandTimeout
                       {| t_messageId := uuid; t_command := "auth";
                          t_reject := settle entry |}
                       (set_timers (delete h (timers c1)) c1))).
      intros c4. by cbn.
    + unfold onCommandTimeout. cbv zeta. rewrite settle_promise_job.
      * cbn [microtasks set_pending set_timers t_reject t_command].
        by rewrite Hmicro.
      * cbn [settled set_pending set_timers t_reject settle entry p_id].
        by rewrite Hset.
Qed.

End ClientCommandFacts.

(** * Properties of the address of the server *)

Section UrlFacts.
Import Text Url.

Lemma chars_nil s : chars s = [] ↔ s = "".
Proof. destruct s; split; done. Qed.

Lemma chars_dropStart class s : chars (dropStart class s) = skip class (chars s).
Proof.
  unfold chars. induction s as [|a s IH]; simpl; [done|].
  by destruct (class a).
Qed.

Lemma chars_dropEnd class s : chars (dropEnd class s) = skip_end class (chars s).
Proof.
  unfold dropEnd, skip_end. by rewrite chars_rev, chars_dropStart, chars_rev.
Qed.

Lemma skip_nil test l : skip test l = [] ↔ Forall (fun a => test a = true) l.
Proof.
  induction l as [|a l IH]; simpl; [by split; [constructor|]|].
  destruct (test a) eqn:Ha.
  - rewrite IH. split; [by constructor|by inversion 1].
  - split; [done|]. inversion 1; congruence.
Qed.

Lemma skip_end_nil test l :
  skip_end test l = [] ↔ Forall (fun a => test a = true) l.
Proof.
  unfold skip_end. split.
  - intros Hnil. apply (f_equal reverse) in Hnil.
    rewrite reverse_involutive in Hnil. apply skip_nil in Hnil.
    apply Forall_reverse in Hnil. by rewrite reverse_involutive in Hnil.
  - intros Hall. apply Forall_reverse in Hall. apply skip_nil in Hall.
    by rewrite Hall.
Qed.

Lemma prefix_chars p s :
  String.prefix p s = true ↔ chars p `prefix_of` chars s.
Proof.
  unfold chars. revert s.
  induction p as [|a p IH]; intros [|b s]; simpl.
  - done.
  - split; [intros _; apply prefix_nil|done].
  - split; [done|]. by intros ?%prefix_nil_inv.
  - destruct (Ascii.ascii_dec a b) as [->|Hne].
    + rewrite IH. split; [apply prefix_cons|apply prefix_cons_inv_2].
    + split; [done|]. by intros ?%prefix_cons_inv_1.
Qed.

Lemma endsWith_chars x s :
  endsWith x s = true ↔ chars x `suffix_of` chars s.
Proof.
  unfold endsWith. by rewrite prefix_chars, !chars_rev, suffix_prefix_reverse.
Qed.

(** A string with a character at its end that is not a slash does not
    end with a slash. *)
Lemma clean_end_endsWith s :
  clean_end is_slash (chars s) → endsWith "/" s = false.
Proof.
  intros Hclean. apply not_true_iff_false. rewrite endsWith_chars.
  rewrite suffix_prefix_reverse. unfold clean_end in Hclean.
  destruct (reverse (chars s)) as [|a l]; [by intros ?%prefix_nil_inv|].
  intros Hprefix. apply prefix_cons_inv_1 in Hprefix. subst a. done.
Qed.

Lemma prefix_empty s : String.prefix "" s = true.
Proof. by destruct s. Qed.

Lemma startsWith_app p s : startsWith p (p +:+ s) = true.
Proof.
  unfold startsWith. apply prefix_chars. rewrite chars_app.
  by apply prefix_app_r.
Qed.

Lemma toLowerCase_app s1 s2 :
  toLowerCase (s1 +:+ s2) = toLowerCase s1 +:+ toLowerCase s2.
Proof. induction s1 as [|a s1 IH]; simpl; [done|]. by rewrite IH. Qed.

(** What the address is made from, said apart from the code: [core] is
    [text] without the slashes at its end, and an address has a scheme
    when it starts with http://, https://, ws:// or wss:// in any
    letter case. *)
Definition without_trailing_slashes (text core : string) : Prop :=
  (∃ slashes, text = core +:+ slashes
              ∧ ∀ a, a ∈ chars slashes → String a "" = "/")
  ∧ ∀ rest, core ≠ rest +:+ "/".

Definition has_scheme (core : string) : Prop :=
  ∃ head rest,
    core = head +:+ rest
    ∧ toLowerCase head ∈ ["http://"; "https://"; "ws://"; "wss://"].

Lemma skip_app_all test dropped l :
  Forall (fun a => test a = true) dropped → clean_start test l →
  skip test (dropped ++ l) = l.
Proof.
  intros Hall Hclean. induction Hall as [|a d Ha _ IH]; simpl.
  - by apply skip_id.
  - by rewrite Ha.
Qed.

Lemma skip_end_app_all test l dropped :
  Forall (fun a => test a = true) dropped → clean_end test l →
  skip_end test (l ++ dropped) = l.
Proof.
  intros Hall Hclean. unfold skip_end. rewrite reverse_app.
  rewrite skip_app_all; [apply reverse_involutive| |done].
  by apply Forall_reverse.
Qed.

(** The core is what the regular expression [/\/+$/] leaves, and
    nothing else. *)
Lemma without_trailing_slashes_iff text core :
  without_trailing_slashes text core ↔ core = dropEnd is_slash text.
Proof.
  split.
  - intros [(slashes & -> & Hall) Hend]. apply chars_inj.
    rewrite chars_dropEnd, chars_app. symmetry. apply skip_end_app_all.
    + apply Forall_forall. intros a Ha. apply Hall in Ha.
      unfold is_slash. by apply bool_decide_eq_true.
    + unfold clean_end.
      destruct (reverse (chars core)) as [|a l] eqn:Hrev; [done|]. simpl.
      apply not_true_iff_false. intros Ha. unfold is_slash in Ha.
      apply bool_decide_eq_true in Ha.
      apply (Hend (String.string_of_list_ascii (reverse l))).
      apply chars_inj. rewrite chars_app. unfold chars at 2.
      rewrite String.list_ascii_of_string_of_list_ascii.
      apply (f_equal reverse) in Hrev.
      rewrite reverse_involutive, reverse_cons in Hrev. rewrite Hrev.
      f_equal. by rewrite <-Ha.
  - intros ->. split.
    + destruct (skip_end_prefix is_slash (chars text))
        as (dropped & Heq & Hall).
      exists (String.string_of_list_ascii dropped). split.
      * apply chars_inj. rewrite chars_app, chars_dropEnd. unfold chars at 3.
        by rewrite String.list_ascii_of_string_of_list_ascii.
      * intros a. unfold chars.
        rewrite String.list_ascii_of_string_of_list_ascii. intros Ha.
        rewrite Forall_forall in Hall. apply Hall in Ha.
        unfold is_slash in Ha. by apply bool_decide_eq_true in Ha.
    + intros rest Heq.
      assert (endsWith "/" (dropEnd is_slash text) = false) as Hends
        by (apply clean_end_endsWith; rewrite chars_dropEnd;
            apply skip_end_clean).
      rewrite Heq in Hends. apply not_true_iff_false in Hends. apply Hends.
      apply endsWith_chars. rewrite chars_app. by apply suffix_app_r.
Qed.

Lemma toLowerCase_prefix p s :
  String.prefix p (toLowerCase s) = true →
  ∃ head rest, s = head +:+ rest ∧ toLowerCase head = p.
Proof.
  revert s. induction p as [|a p IH]; intros s Hp.
  - by exists "", s.
  - destruct s as [|b s]; [done|]. cbn [toLowerCase String.prefix] in Hp.
    destruct (Ascii.ascii_dec a (toLowerCase_ascii b)) as [->|]; [|done].
    destruct (IH s Hp) as (head & rest & -> & <-).
    by exists (String b head), rest.
Qed.

Lemma has_scheme_iff core :
  has_scheme core
  ↔ test_prefix_i ["http://"; "https://"] core
    || test_prefix_i ["ws://"; "wss://"] core = true.
Proof.
  unfold has_scheme, test_prefix_i. rewrite <-existsb_app. cbn [app].
  rewrite existsb_exists. split.
  - intros (head & rest & -> & Hin). exists (toLowerCase head).
    split; [by apply list_elem_of_In|].
    rewrite toLowerCase_app. apply startsWith_app.
  - intros (p & Hin & Hp). apply toLowerCase_prefix in Hp
      as (head & rest & -> & <-).
    exists head, rest. split; [done|]. by apply list_elem_of_In.
Qed.

(** X21. The address that [setCredentials] stores. The input is
    trimmed and loses the slashes at its end; call the rest the core
    (it is the only string that does not end with a slash and gives the
    trimmed input when followed by slashes). The stored address is
    empty if the core is empty, the core itself if the core starts with
    http://, https://, ws:// or wss:// in any letter case, and http://
    followed by the core otherwise: "  ma.local:8095// " gives
    "http://ma.local:8095", "HTTPS://Ma.local/" stays "HTTPS://Ma.local",
    "ftp://files" gives "http://ftp://files" and " /// " gives the
    empty address. So the stored address is empty exactly when the
    trimmed input holds nothing but slashes, and otherwise starts with
    one of the four schemes and does not end with a slash. The token is
    stored trimmed. With an empty address [connect], when no connection
    attempt is running, throws "Music Assistant URL is not configured."
    and changes nothing. *)
Theorem normalizeBaseUrl_spec input :
  let url := normalizeBaseUrl input in
  (∃ core,
     without_trailing_slashes (JS.trim input) core
     ∧ (core = "" → url = "")
     ∧ (core ≠ "" → has_scheme core → url = core)
     ∧ (core ≠ "" → ¬ has_scheme core → url = "http://" +:+ core))
  ∧ (url = "" ↔ Forall (fun a => is_slash a = true) (chars (JS.trim input)))
  ∧ (url ≠ "" →
     test_prefix_i ["http://"; "https://"; "ws://"; "wss://"] url = true
     ∧ endsWith "/" url = false)
  ∧ (∀ token c,
       let c' := setCredentials input token c in
       Client.baseUrl c' = url ∧ Client.authToken c' = JS.trim token
       ∧ (Client.connectPromise c = false → url = "" →
          Client.connect c'
          = Client.Throw "Music Assistant URL is not configured." c'))
  ∧ normalizeBaseUrl "  ma.local:8095// " = "http://ma.local:8095"
  ∧ normalizeBaseUrl "HTTPS://Ma.local/" = "HTTPS://Ma.local"
  ∧ normalizeBaseUrl "wss://ma.local/ws" = "wss://ma.local/ws"
  ∧ normalizeBaseUrl "ftp://files" = "http://ftp://files"
  ∧ normalizeBaseUrl " /// " = "".
Proof.
  intros url. split_and!.
  5-9: by vm_compute.
  4:{ intros token c c'. subst c'. split_and!; [done..|].
      intros Hpromise Hurl. unfold Client.connect.
      cbn [Client.connectPromise Client.baseUrl setCredentials
             Client.set_authToken].
      fold url. by rewrite Hpromise, Hurl. }
  1:{ exists (dropEnd is_slash (JS.trim input)).
      split; [by apply without_trailing_slashes_iff|].
      subst url. unfold normalizeBaseUrl. cbv zeta.
      set (core := dropEnd is_slash (JS.trim input)).
      split_and!.
      - by intros ->.
      - intros Hne Hscheme. apply truthy_ne in Hne. rewrite Hne.
        apply has_scheme_iff in Hscheme. by rewrite Hscheme.
      - intros Hne Hscheme. apply truthy_ne in Hne. rewrite Hne.
        rewrite has_scheme_iff in Hscheme.
        apply not_true_is_false in Hscheme. by rewrite Hscheme. }
  all: subst url; unfold normalizeBaseUrl; cbv zeta;
    set (trimmed := dropEnd is_slash (JS.trim input));
    assert (trimmed = "" ↔ Forall (fun a => is_slash a = true)
                             (chars (JS.trim input))) as Hempty
      by (subst trimmed; by rewrite <-chars_nil, chars_dropEnd, skip_end_nil);
    assert (clean_end is_slash (chars trimmed)) as Hclean
      by (subst trimmed; rewrite chars_dropEnd; apply skip_end_clean);
    destruct (JS.truthy trimmed) eqn:Htruthy; cbn [negb].
  - apply truthy_ne in Htruthy. rewrite <-Hempty.
    destruct (_ || _); [done|]. split; [done|]. intros Heq. by destruct Htruthy.
  - apply not_true_iff_false in Htruthy. rewrite truthy_ne in Htruthy.
    apply dec_stable in Htruthy. by rewrite <-Hempty.
  - intros _. apply truthy_ne in Htruthy.
    set (kept := test_prefix_i ["http://"; "https://"] trimmed
                 || test_prefix_i ["ws://"; "wss://"] trimmed).
    split.
    + destruct kept eqn:Hkept.
      2:{ unfold test_prefix_i. cbn [existsb].
          rewrite (toLowerCase_app "http://" trimmed).
          change (toLowerCase "http://") with "http://".
          by rewrite startsWith_app. }
      subst kept.
      unfold test_prefix_i in *. cbn [existsb] in *.
      repeat match goal with
             | H : (_ || _) = true |- _ => apply orb_true_iff in H as [H|H]
             end; rewrite Hkept; by rewrite ?orb_true_r.
    + apply clean_end_endsWith. destruct kept; [done|].
      unfold clean_end in *. rewrite chars_app, reverse_app.
      destruct (reverse (chars trimmed)) as [|a l] eqn:Hrev; [|done].
      apply (f_equal reverse) in Hrev. rewrite reverse_involutive in Hrev.
      by apply chars_nil in Hrev.
  - done.
Qed.

(** ** The address of the socket *)

Lemma replace_unfold pattern replacement s :
  replace pattern replacement s
  = if String.prefix pattern s
    then replacement +:+ slice (String.length pattern) s
    else match s with
         | String a s' => String a (replace pattern replacement s')
         | EmptyString => EmptyString
         end.
Proof. by destruct s. Qed.

Lemma slice_app p s : slice (String.length p) (p +:+ s) = s.
Proof. induction p as [|a p IH]; simpl; [by destruct s|done]. Qed.

Lemma prefix_split p s :
  String.prefix p s = true → s = p +:+ slice (String.length p) s.
Proof.
  revert s. induction p as [|a p IH]; intros [|b s]; simpl; try done.
  destruct (Ascii.ascii_dec a b) as [->|]; [|done].
  intros Hp. change (String b s = String b (p +:+ slice (String.length p) s)).
  f_equal. by apply IH.
Qed.

Lemma replace_spec pattern replacement s :
  replace pattern replacement s = s
  ∨ ∃ before after,
      s = before +:+ pattern +:+ after
      ∧ replace pattern replacement s = before +:+ replacement +:+ after.
Proof.
  induction s as [|a s IH]; rewrite replace_unfold.
  - destruct (String.prefix pattern "") eqn:Hp; [|by left].
    right. exists "", (slice (String.length pattern) "").
    split; [by apply prefix_split|done].
  - destruct (String.prefix pattern (String a s)) eqn:Hp.
    + right. exists "", (slice (String.length pattern) (String a s)).
      split; [by apply prefix_split|done].
    + destruct IH as [->|(before & after & -> & ->)]; [by left|].
      right. by exists (String a before), after.
Qed.

Lemma suffix_of_longer {A : Type} (x l m : list A) :
  x `suffix_of` l ++ m → length x ≤ length m → x `suffix_of` m.
Proof.
  intros [k Hk] Hlen.
  apply List.app_eq_app in Hk as (t & [[-> Hx]|[-> ->]]).
  - assert (t = []) as ->.
    { apply (f_equal length) in Hx. rewrite length_app in Hx.
      destruct t; [done|]. simpl in Hx. lia. }
    by rewrite Hx.
  - by exists t.
Qed.

Lemma endsWith_ws_replace s :
  endsWith "/ws" s = true → endsWith "/ws" (replace "//ws" "/ws" s) = true.
Proof.
  intros Hends.
  destruct (replace_spec "//ws" "/ws" s) as [->|(before & after & -> & ->)];
    [done|].
  apply endsWith_chars. apply endsWith_chars in Hends.
  rewrite !chars_app in *.
  change (chars "/ws") with (String.list_ascii_of_string "/ws") in *.
  change (chars "//ws") with (String.list_ascii_of_string "//ws") in *.
  cbn [String.list_ascii_of_string] in *.
  destruct (chars after) as [|x [|y [|z rest]]].
  - apply suffix_app_r. by rewrite app_nil_r.
  - exfalso. apply suffix_prefix_reverse in Hends.
    rewrite !reverse_app in Hends. destruct Hends as [k Hk].
    cbn in Hk. discriminate Hk.
  - exfalso. apply suffix_prefix_reverse in Hends.
    rewrite !reverse_app in Hends. destruct Hends as [k Hk].
    cbn in Hk. discriminate Hk.
  - apply suffix_app_r.
    change (?a :: ?b :: ?c :: x :: y :: z :: rest)
      with ([a; b; c] ++ x :: y :: z :: rest).
    apply suffix_app_r.
    rewrite app_assoc in Hends.
    apply suffix_of_longer in Hends; [done|simpl; lia].
Qed.

Lemma endsWith_app x s : endsWith x (s +:+ x) = true.
Proof. apply endsWith_chars. rewrite chars_app. by apply suffix_app_r. Qed.

(** X22. The address of the socket always ends with "/ws", whatever
    the base address is. *)
Theorem toWebSocketUrl_ends_with_ws baseUrl_ :
  endsWith "/ws" (toWebSocketUrl baseUrl_) = true.
Proof.
  unfold toWebSocketUrl. cbv zeta. apply endsWith_ws_replace.
  match goal with
  | |- endsWith _ (if negb (endsWith _ ?w) then _ else _) = _ =>
      destruct (endsWith "/ws" w) eqn:Hw; cbn [negb]
  end; [done|apply endsWith_app].
Qed.

(** The "/ws" that is appended unless it is there. *)
Definition ws_path (s : string) : string :=
  if endsWith "/ws" s then "" else "/ws".

(** X23. A host name that begins with "ws" loses a slash from its
    scheme: the last step of [toWebSocketUrl] replaces the first "//ws"
    of the address, which is then the "//" of the scheme with the start
    of the host, so that "http://ws..." becomes "ws:/ws..." and
    "https://ws..." becomes "wss:/ws...". *)
Theorem toWebSocketUrl_ws_host rest :
  toWebSocketUrl ("http://ws" +:+ rest)
  = "ws:/ws" +:+ rest +:+ ws_path ("ws://ws" +:+ rest)
  ∧ toWebSocketUrl ("https://ws" +:+ rest)
    = "wss:/ws" +:+ rest +:+ ws_path ("wss://ws" +:+ rest).
Proof.
  assert (∀ s, String.append s "" = s) as Hnil.
  { intros s. induction s as [|a s IH]; [done|].
    change (String a (s +:+ "") = String a s). by rewrite IH. }
  unfold toWebSocketUrl, ws_path, startsWith. split; simpl;
    rewrite ?prefix_empty;
    [change ("ws://" +:+ "ws" +:+ rest) with ("ws://ws" +:+ rest)
    |change ("wss://" +:+ "ws" +:+ rest) with ("wss://ws" +:+ rest)];
    match goal with
    | |- context [endsWith "/ws" ?w] => destruct (endsWith "/ws" w)
    end; cbn [negb String.append]; simpl; rewrite ?prefix_empty;
    cbn [String.append]; rewrite ?Hnil; done.
Qed.

Lemma replace_no_slash host :
  Forall (fun a => is_slash a = false) (chars host) →
  replace "//ws" "/ws" (host +:+ "/ws") = host +:+ "/ws".
Proof.
  unfold chars. induction host as [|a host IH]; [done|].
  intros Hall. inversion Hall as [|? ? Ha Hrest]; subst.
  change (String a host +:+ "/ws") with (String a (host +:+ "/ws")).
  rewrite replace_unfold.
  assert (String.prefix "//ws" (String a (host +:+ "/ws")) = false) as ->.
  { cbn [String.prefix]. destruct (Ascii.ascii_dec _ a) as [<-|]; [|done].
    by vm_compute in Ha. }
  by rewrite IH.
Qed.

(** X24. For a host that is not empty, holds no slash and does not
    begin with "ws", the address of the socket is the one expected:
    "http://host" gives "ws://host/ws" and "https://host" gives
    "wss://host/ws". *)
Theorem toWebSocketUrl_host host :
  host ≠ "" →
  Forall (fun a => is_slash a = false) (chars host) →
  startsWith "ws" host = false →
  toWebSocketUrl ("http://" +:+ host) = "ws://" +:+ host +:+ "/ws"
  ∧ toWebSocketUrl ("https://" +:+ host) = "wss://" +:+ host +:+ "/ws".
Proof.
  intros Hne Hall Hws.
  assert (∀ scheme, scheme = "ws://" ∨ scheme = "wss://" →
            endsWith "/ws" (scheme +:+ host) = false) as Hends.
  { intros scheme Hscheme. apply not_true_iff_false. intros Hends.
    apply endsWith_chars, suffix_prefix_reverse in Hends.
    rewrite chars_app, reverse_app in Hends.
    assert (∀ a, a ∈ reverse (chars host) → is_slash a = false) as Hall'.
    { intros a Ha. rewrite elem_of_reverse in Ha.
      rewrite Forall_forall in Hall. by apply Hall. }
    assert (reverse (chars host) = reverse (chars "ws") → False) as Hnot.
    { intros Heq. apply (inj reverse) in Heq. apply chars_inj in Heq.
      subst host. done. }
    destruct Hends as [k Hk].
    destruct (reverse (chars host)) as [|x [|y [|z rest]]].
    - destruct Hscheme as [-> | ->]; discriminate Hk.
    - destruct Hscheme as [-> | ->]; discriminate Hk.
    - destruct Hscheme as [-> | ->]; cbn in Hk; injection Hk as Hx Hy _;
        apply Hnot; by rewrite Hx, Hy.
    - cbn in Hk. injection Hk as _ _ Hz _.
      specialize (Hall' z ltac:(do 2 right; left)). rewrite Hz in Hall'.
      by vm_compute in Hall'. }
  pose proof (replace_no_slash host Hall) as Hkeep.
  destruct host as [|a host]; [done|].
  inversion Hall as [|? ? Ha _]; subst.
  assert (String.prefix "ws" (String a (host +:+ "/ws")) = false) as Hws'.
  { unfold startsWith in Hws. cbn [String.prefix] in *.
    destruct (Ascii.ascii_dec _ a) as [<-|]; [|done].
    destruct host as [|b host]; [done|].
    change (String b host +:+ "/ws") with (String b (host +:+ "/ws")).
    cbn [String.prefix] in *.
    destruct (Ascii.ascii_dec _ b); [|done]. by destruct host. }
  assert (String.prefix "/ws" (String a (host +:+ "/ws")) = false) as Hslash.
  { cbn [String.prefix]. destruct (Ascii.ascii_dec _ a) as [<-|]; [|done].
    by vm_compute in Ha. }
  change (String a host +:+ "/ws") with (String a (host +:+ "/ws")) in Hkeep.
  pose proof (Hends "ws://" ltac:(by left)) as Hends1.
  pose proof (Hends "wss://" ltac:(by right)) as Hends2.
  clear Hends.
  unfold toWebSocketUrl, startsWith. split; simpl.
  - change ("ws://" +:+ "" +:+ String a host) with ("ws://" +:+ String a host).
    rewrite Hends1. cbn [negb].
    change (("ws://" +:+ String a host) +:+ "/ws")
      with (String.append "ws://" (String a (host +:+ "/ws"))).
    change ("ws://" +:+ String a host +:+ "/ws")
      with (String.append "ws://" (String a (host +:+ "/ws"))).
    revert Hws' Hslash Hkeep. generalize (String a (host +:+ "/ws")).
    intros t Hws' Hslash Hkeep. simpl. change ("" +:+ t) with t.
    by rewrite Hws', Hslash, Hkeep.
  - change ("wss://" +:+ "" +:+ String a host)
      with ("wss://" +:+ String a host).
    rewrite Hends2. cbn [negb].
    change (("wss://" +:+ String a host) +:+ "/ws")
      with (String.append "wss://" (String a (host +:+ "/ws"))).
    change ("wss://" +:+ String a host +:+ "/ws")
      with (String.append "wss://" (String a (host +:+ "/ws"))).
    revert Hws' Hslash Hkeep. generalize (String a (host +:+ "/ws")).
    intros t Hws' Hslash Hkeep. simpl. change ("" +:+ t) with t.
    by rewrite Hws', Hslash, Hkeep.
Qed.

End UrlFacts.

(** * What is playing, and the image cache *)

Section NowPlayingFacts.
Import Reconciler Requests.

(** What the summary shows, said apart from the code. An image object
    holds a picture when its [url] or its [path] is truthy; a summary
    shows an image when its address is the image's [url], or the
    [path] when the [url] is falsy, and its provider is the image's
    [provider], or none when that is falsy. *)
Definition has_picture (image : option JSON) : Prop :=
  truthy_value (member image "url") = true
  ∨ truthy_value (member image "path") = true.

Definition shows (summary : NowPlayingSummary) (image : option JSON) : Prop :=
  (truthy_value (member image "url") = true →
   imageUrl summary = member image "url")
  ∧ (truthy_value (member image "url") = false →
     imageUrl summary = member image "path")
  ∧ (truthy_value (member image "provider") = true →
     imageProvider summary = member image "provider")
  ∧ (truthy_value (member image "provider") = false →
     imageProvider summary = None).

Definition queue_playing (item : option JSON) : MAQueue :=
  {| queue_id := "q1";
     queue_player_id := Some "p1";
     queue_state := Some "playing";
     shuffle_enabled := None;
     repeat_mode := None;
     elapsed_time := None;
     current_item := item |}.

(** An item with a picture of its own (a path, no address), one whose
    own image is empty while its media item has a picture with no
    provider, and one with no picture at all. *)
Definition item_own_cover : JSON :=
  JObj [("name", JStr "Song");
        ("image", JObj [("path", JStr "/covers/1.jpg");
                        ("provider", JStr "library")]);
        ("media_item",
         JObj [("image", JObj [("url", JStr "http://cdn/2.jpg");
                               ("provider", JStr "spotify")])])].

Definition item_media_cover : JSON :=
  JObj [("name", JStr "Song");
        ("image", JObj [("url", JStr ""); ("provider", JStr "library")]);
        ("media_item",
         JObj [("image", JObj [("url", JStr "http://cdn/2.jpg");
                               ("path", JStr "/covers/2.jpg");
                               ("provider", JStr "")])])].

Definition item_no_cover : JSON :=
  JObj [("name", JStr "Song"); ("image", JNull);
        ("media_item", JObj [("name", JStr "Song")])].

Definition picture (item : option JSON)
    : option (option JSON * option JSON) :=
  (fun summary => (imageUrl summary, imageProvider summary))
    <$> extractNowPlaying (Some (queue_playing item)).

(** X25. What [extractNowPlaying] reports of the picture, read from
    the current item itself. A queue has a summary exactly when its
    current item is truthy. An image object holds a picture when its
    [url] or its [path] is truthy. If the item's own [image] holds a
    picture the summary shows it; if not, and the [image] of the item's
    [media_item] holds one, the summary shows that one; otherwise the
    summary has neither an address nor a provider. Showing an image
    means: the address is the image's [url], or its [path] when the
    [url] is falsy, and the provider is the image's [provider], or none
    when that is falsy. So an item whose own image has only the path
    "/covers/1.jpg" and the provider "library" is shown with these two,
    whatever its media item holds; an item whose own image has an empty
    [url] and whose media item's image has the [url] "http://cdn/2.jpg"
    and an empty provider is shown with that address and no provider;
    an item with a null image and no image in its media item has
    neither; a null item gives no summary. *)
Theorem extractNowPlaying_image queue :
  let item := current_item queue in
  let own := member item "image" in
  let media := member (member item "media_item") "image" in
  match extractNowPlaying (Some queue) with
  | None => truthy_value item = false
  | Some summary =>
      truthy_value item = true
      ∧ (has_picture own → shows summary own)
      ∧ (¬ has_picture own → has_picture media → shows summary media)
      ∧ (¬ has_picture own → ¬ has_picture media →
         imageUrl summary = None ∧ imageProvider summary = None)
  end
  ∧ picture (Some item_own_cover)
    = Some (Some (JStr "/covers/1.jpg"), Some (JStr "library"))
  ∧ picture (Some item_media_cover)
    = Some (Some (JStr "http://cdn/2.jpg"), None)
  ∧ picture (Some item_no_cover) = Some (None, None)
  ∧ picture (Some JNull) = None
  ∧ picture None = None.
Proof.
  intros item own media. split; [|by vm_compute].
  unfold extractNowPlaying. fold item.
  destruct (truthy_value item) eqn:Hitem; cbn [negb]; [|done].
  split; [done|]. unfold has_picture, shows. cbn [imageUrl imageProvider].
  unfold extractImageUrl, extractImage. rewrite Hitem. cbn [negb].
  fold own media.
  assert (∀ (image : option JSON) key,
    truthy_value (member image key) = true → truthy_value image = true)
    as Hobj.
  { by intros [[]|] key. }
  destruct (truthy_value (member own "url")) eqn:Hurl;
    [|destruct (truthy_value (member own "path")) eqn:Hpath]; cbn [orb].
  - rewrite (Hobj own "url" Hurl), Hurl. cbn [negb].
    split_and!; [|by intros []; auto|by intros []; auto].
    intros _. split_and!; try done.
    + by intros ->.
    + by intros ->.
  - rewrite (Hobj own "path" Hpath), Hurl, Hpath. cbn [negb].
    split_and!; [|by intros []; auto|by intros []; auto].
    intros _. split_and!; try done.
    + by intros ->.
    + by intros ->.
  - assert (¬ (false = true ∨ false = true)) as Hnone by (by intros [|]).
    destruct (truthy_value (member media "url")) eqn:Hmurl;
      [|destruct (truthy_value (member media "path")) eqn:Hmpath]; cbn [orb].
    + rewrite (Hobj media "url" Hmurl), Hmurl. cbn [negb].
      split_and!; [by intros [|]| |by intros _ []; auto].
      intros _ _. split_and!; try done.
      * by intros ->.
      * by intros ->.
    + rewrite (Hobj media "path" Hmpath), Hmurl, Hmpath. cbn [negb].
      split_and!; [by intros [|]| |by intros _ []; auto].
      intros _ _. split_and!; try done.
      * by intros ->.
      * by intros ->.
    + cbn [truthy_value negb member]. split_and!; [by intros [|]|by intros _ [|]|done].
Qed.

End NowPlayingFacts.

Section ImageCacheFacts.
Import Requests.

Lemma Map_delete_middle {V} (seen rest : list (string * V)) key value :
  key ∉ seen.*1 →
  JS.Map_delete key (seen ++ (key, value) :: rest) = seen ++ rest.
Proof.
  induction seen as [|[k v] seen IH]; intros Hnot.
  - cbn. by rewrite decide_True.
  - rewrite fmap_cons, not_elem_of_cons in Hnot. destruct Hnot as [Hne Hnot].
    cbn in *. rewrite decide_False by done. by rewrite IH.
Qed.

Lemma pruneImageCache_loop_filter now seen entries :
  NoDup (seen ++ entries).*1 →
  Forall (λ e, expired now e.2 = false) seen →
  pruneImageCache_loop entries now (seen ++ entries)
  = seen ++ filter (λ e, expired now e.2 = false) entries.
Proof.
  revert seen. induction entries as [|[key value] entries IH];
    intros seen Hnodup Hseen.
  - done.
  - cbn [pruneImageCache_loop].
    rewrite fmap_app, fmap_cons in Hnodup.
    destruct (expired now value) eqn:Hexp.
    + rewrite filter_cons_False by (cbn; congruence).
      apply NoDup_app in Hnodup as (Hs & Hdisj & Hrest).
      apply NoDup_cons in Hrest as [Hhead Hrest].
      rewrite Map_delete_middle.
      * apply IH; [|done]. rewrite fmap_app. apply NoDup_app.
        split; [done|]. split; [|done].
        intros k Hk Hin. apply (Hdisj k Hk). by right.
      * intros Hin. apply (Hdisj _ Hin). by left.
    + rewrite filter_cons_True by done.
      rewrite (cons_middle _ seen entries), app_assoc.
      rewrite (cons_middle _ seen (filter _ entries)), app_assoc.
      apply IH.
      * by rewrite <-app_assoc, fmap_app.
      * apply Forall_app. split; [done|]. by apply Forall_singleton.
Qed.

Lemma pruneImageCache_filter now imageCache :
  NoDup imageCache.*1 →
  pruneImageCache now imageCache
  = filter (λ e, expired now e.2 = false) imageCache.
Proof.
  intros Hnodup. unfold pruneImageCache.
  by apply (pruneImageCache_loop_filter now [] imageCache).
Qed.

Lemma Map_get_elem_of {V} (m : list (string * V)) key value :
  NoDup m.*1 → JS.Map_get key m = Some value ↔ (key, value) ∈ m.
Proof.
  induction m as [|[k v] m IH]; intros Hnodup.
  - cbn. split; [done|]. by intros ?%elem_of_nil.
  - rewrite fmap_cons in Hnodup. apply NoDup_cons in Hnodup as [Hhead Hm].
    cbn [JS.Map_get]. rewrite elem_of_cons. case_decide as Hk.
    + subst k. split.
      * intros [= ->]. by left.
      * intros [[= ->]|Hin]; [done|].
        destruct Hhead. apply list_elem_of_fmap. by exists (key, value).
    + rewrite IH by done. split; [by right|].
      intros [[= -> ->]|Hin]; done.
Qed.

Lemma expired_false now entry :
  expired now entry = false
  ↔ (now - fetchedAt entry <= IMAGE_CACHE_TTL_MS)%Q.
Proof.
  unfold expired. rewrite negb_false_iff. apply Qle_bool_iff.
Qed.

Lemma fresh_image now entry :
  negb (Qle_bool IMAGE_CACHE_TTL_MS (now - fetchedAt entry)) = true
  ↔ (now - fetchedAt entry < IMAGE_CACHE_TTL_MS)%Q.
Proof.
  rewrite negb_true_iff. split.
  - intros Hle. apply Qnot_le_lt. intros H%Qle_bool_iff. congruence.
  - intros Hlt. destruct (Qle_bool _ _) eqn:Hle; [|done].
    apply Qle_bool_iff in Hle. by apply Qlt_not_le in Hlt.
Qed.

(** X26. [pruneImageCache] and the cache test of ['ma:image']. On a
    map (a list of entries with distinct keys) pruning keeps, in their
    order, exactly the entries whose age is at most the time to live of
    five minutes.  The request then serves a cached image exactly when
    the map had an entry for the key that is strictly younger than the
    time to live: an entry of exactly that age survives the pruning but
    is not served. *)
Theorem pruneImageCache_spec now imageCache :
  NoDup imageCache.*1 →
  let pruned := pruneImageCache now imageCache in
  pruned = filter (λ e, expired now e.2 = false) imageCache
  ∧ NoDup pruned.*1
  ∧ (∀ key entry,
       JS.Map_get key pruned = Some entry
       ↔ JS.Map_get key imageCache = Some entry
         ∧ (now - fetchedAt entry <= 300000)%Q)
  ∧ (∀ key,
       (cachedImage now key imageCache).1 = pruned
       ∧ ∀ uri,
           (cachedImage now key imageCache).2 = Some uri
           ↔ ∃ entry,
               JS.Map_get key imageCache = Some entry
               ∧ dataUri entry = uri
               ∧ (now - fetchedAt entry < 300000)%Q).
Proof.
  intros Hnodup pruned.
  assert (pruned = filter (λ e, expired now e.2 = false) imageCache)
    as Hpruned by by apply pruneImageCache_filter.
  assert (NoDup pruned.*1) as Hnodup'.
  { rewrite Hpruned. eapply sublist_NoDup; [done|].
    apply fmap_sublist, sublist_filter. }
  assert (∀ key entry,
    JS.Map_get key pruned = Some entry
    ↔ JS.Map_get key imageCache = Some entry
      ∧ (now - fetchedAt entry <= 300000)%Q) as Hget.
  { intros key entry. rewrite !Map_get_elem_of by done.
    rewrite Hpruned, list_elem_of_filter. cbn [snd].
    rewrite expired_false. change IMAGE_CACHE_TTL_MS with (300000%Q) at 1.
    tauto. }
  split; [done|]. split; [done|]. split; [done|].
  intros key. unfold cachedImage. fold pruned.
  destruct (JS.Map_get key pruned) as [entry|] eqn:Hentry.
  - apply Hget in Hentry as [Hentry Hage].
    destruct (negb (Qle_bool _ _)) eqn:Hfresh; (split; [done|]); intros uri;
      cbn [snd].
    + apply fresh_image in Hfresh. split.
      * intros [= <-]. by exists entry.
      * intros (entry' & Hentry' & <- & _). congruence.
    + split; [done|]. intros (entry' & Hentry' & _ & Hlt).
      assert (entry' = entry) as -> by congruence.
      apply fresh_image in Hlt. congruence.
  - split; [done|]. intros uri. cbn [snd]. split; [done|].
    intros (entry & Hentry' & _ & Hlt).
    assert (JS.Map_get key pruned = Some entry) as Hin; [|congruence].
    apply Hget. split; [done|]. by apply Qlt_le_weak.
Qed.

End ImageCacheFacts.

(** * Polling while the client is off line *)

Section OfflineFacts.
Import Reconciler Requests.

(** The event happens while the client is not connected, or not
    authenticated. *)
Definition offline (ev : Event) : bool :=
  match ev with
  | Trigger env | ScheduledPollFired env
  | ListsSettled env _ | ItemsSettled env _ => negb (up env)
  | SchedulePollSoon _ => true
  end.

(** Nothing is in flight, and [s'] differs from [s] by effects that are
    no commands. *)
Record at_rest (s s' : Reconciler.t) : Prop := {
  rest_flight : pollInFlight s' = false;
  rest_phase : phase s' = Idle;
  rest_trace : ∃ effects, trace s' = trace s ++ effects ∧ sends effects = [];
  rest_started : cycles_started s' = cycles_started s;
  rest_players : playersCache s' = playersCache s;
  rest_queues : queuesCache s' = queuesCache s;
  rest_items : queueItemsCache s' = queueItemsCache s;
  rest_selected : selectedPlayerId s' = selectedPlayerId s
}.

Lemma at_rest_refl s :
  pollInFlight s = false → phase s = Idle → at_rest s s.
Proof.
  intros Hflight Hphase. split; try done. exists []. by rewrite app_nil_r.
Qed.

Lemma sends_app effects effects' :
  sends (effects ++ effects') = sends effects ++ sends effects'.
Proof. unfold sends. apply omap_app. Qed.

Lemma at_rest_trans s s' s'' : at_rest s s' → at_rest s' s'' → at_rest s s''.
Proof.
  intros [? ? (effects & Htrace & Hsends) ? ? ? ? ?]
         [? ? (effects' & Htrace' & Hsends') ? ? ? ? ?].
  split; try congruence.
  exists (effects ++ effects'). split.
  - by rewrite Htrace', Htrace, <-app_assoc.
  - by rewrite sends_app, Hsends, Hsends'.
Qed.

Lemma at_rest_pollState env s :
  up env = false → pollInFlight s = false → phase s = Idle →
  at_rest s (pollState env s).
Proof.
  intros Hup Hflight Hphase. unfold pollState, up in *. rewrite Hflight.
  destruct (isConnected env); cbn [negb].
  - cbn [andb] in Hup. rewrite Hup. cbn [negb].
    split; try done. by exists [EmitStatus].
  - split; try done. by exists [EmitStatus].
Qed.

Lemma at_rest_step s ev :
  offline ev = true → pollInFlight s = false → phase s = Idle →
  at_rest s (step s ev).
Proof.
  intros Hoff Hflight Hphase.
  destruct ev as [env|env|delayMs|env r|env r]; cbn [step offline] in *.
  - apply at_rest_pollState; [by apply negb_true_iff|done..].
  - unfold onScheduledPoll. destruct (scheduledPoll s) eqn:Hsched.
    + eapply at_rest_trans; [|apply at_rest_pollState];
        [|by apply negb_true_iff|done..].
      split; try done. exists []. by rewrite app_nil_r.
    + by apply at_rest_refl.
  - unfold schedulePollSoon. destruct (scheduledPoll s).
    + split; try done. exists [ClearTimeout; SetTimeout delayMs]. split; [|done].
      cbn. by rewrite <-app_assoc.
    + split; try done. by exists [SetTimeout delayMs].
  - unfold onListsSettled. rewrite Hphase. by apply at_rest_refl.
  - unfold onItemsSettled. rewrite Hphase. by apply at_rest_refl.
Qed.

Lemma at_rest_run s evs :
  Forall (fun ev => offline ev = true) evs →
  pollInFlight s = false → phase s = Idle →
  at_rest s (run s evs).
Proof.
  intros Hoff. revert s.
  induction Hoff as [|ev evs Hev _ IH]; intros s Hflight Hphase.
  - by apply at_rest_refl.
  - pose proof (at_rest_step s ev Hev Hflight Hphase) as Hstep.
    eapply at_rest_trans; [exact Hstep|].
    apply IH; [apply (rest_flight _ _ Hstep)|apply (rest_phase _ _ Hstep)].
Qed.

Lemma poll_ok_init : poll_ok init.
Proof. done. Qed.

(** X27. While the client is not connected, or not authenticated, the
    reconciler sends nothing. From any state it has reached in which no
    poll is in flight, whatever triggers, timers and late replies come
    while the client is off line, no command goes to the server, no
    cycle starts, and the caches and the selection stay as they are. *)
Theorem offline_polls_send_nothing evs0 evs :
  let s0 := run init evs0 in
  pollInFlight s0 = false →
  Forall (fun ev => offline ev = true) evs →
  let s := run s0 evs in
  sends (added s0 s) = []
  ∧ pollInFlight s = false
  ∧ cycles_started s = cycles_started s0
  ∧ playersCache s = playersCache s0
  ∧ queuesCache s = queuesCache s0
  ∧ queueItemsCache s = queueItemsCache s0
  ∧ selectedPlayerId s = selectedPlayerId s0.
Proof.
  intros s0 Hflight Hoff s.
  assert (phase s0 = Idle) as Hphase.
  { pose proof (run_poll_ok evs0 init poll_ok_init) as Hok.
    fold s0 in Hok. unfold poll_ok in Hok. rewrite Hflight in Hok.
    by destruct Hok. }
  destruct (at_rest_run s0 evs Hoff Hflight Hphase)
    as [? ? (effects & Htrace & Hsends) ? ? ? ? ?].
  fold s in Htrace. split_and!; try done.
  by rewrite (added_app _ _ _ Htrace).
Qed.

End OfflineFacts.

(** * Examples *)

Section RequestExamples.
Import Reconciler Requests.

(** The lists of a poll arrive while "p2" is selected: the selection
    stays. *)
Lemma lists_settled_selection_witness :
  let s := pollState connected_env (grouped "p2") in
  let s' :=
    onListsSettled connected_env (Fulfilled (Some [p1; p2], Some [q1])) s in
  playersCache s' = [p1; p2]
  ∧ queuesCache s' = [q1]
  ∧ selectedPlayerId s'
    = pickSelectedPlayerId [p1; p2] (selectedPlayerId s) ""
  ∧ (selectedPlayerId s' = None ↔ playersCache s' = [])
  ∧ (∀ id, selectedPlayerId s' = Some id → id ∈ player_id <$> playersCache s')
  ∧ (∀ id, selectedPlayerId s = Some id → id ≠ "" →
       id ∈ player_id <$> [p1; p2] →
       selectedPlayerId s' = Some id).
Proof.
  apply (lists_settled_selection connected_env "" (Some [p1; p2]) (Some [q1])
           (pollState connected_env (grouped "p2"))).
  vm_compute. reflexivity.
Defined.

(** The cache holds no queue of "p1"; the server names "q1". *)
Lemma resolveQueueIdForPlayer_round_trip_witness :
  ∃ s',
    resolveQueueIdForPlayer_reply "p1" (Some q1) (fun key => true)
      (grouped "p1")
    = Normal (queue_id q1, s')
    ∧ resolveQueueIdForPlayer "p1" s' = Known (queue_id q1)
    ∧ playersCache s' = playersCache (grouped "p1")
    ∧ selectedPlayerId s' = selectedPlayerId (grouped "p1").
Proof.
  apply (resolveQueueIdForPlayer_round_trip "p1" q1 (fun key => true)
           (grouped "p1")).
  - vm_compute. discriminate.
  - vm_compute. discriminate.
  - right. right. reflexivity.
  - vm_compute. reflexivity.
Defined.

Definition play : option JSON := Some (JObj [("command", JStr "play")]).

(** "play" while "p2", a member of the group of "p1", is selected, and
    the server accepts the command. *)
Lemma handleSet_outcome_witness :
  let s := grouped "p2" in
  let replies := [Fulfilled None] in
  ∃ h,
    handleSet "ma:transport" play s = Some h
    ∧ ∃ cmds tail,
        trace (finish replies h) = trace s ++ (Send <$> cmds) ++ tail
        ∧ if waiting replies h then tail = [] ∧ cmds ≠ []
          else reported "ma:transport" tail ∨ polled s tail
               ∨ (tail = [] ∧ cmds = []
                  ∧ "ma:transport"
                    ∉ ["ma:selectPlayer"; "ma:transport"; "ma:setVolume";
                       "ma:refresh"; "ma:playMedia"; "ma:setShuffle";
                       "ma:setRepeat"; "ma:groupPlayer";
                       "ma:ungroupPlayer"; "ma:ungroupAll"]).
Proof.
  apply (handleSet_outcome "ma:transport" play (grouped "p2")
           [Fulfilled None]).
  apply (bool_decide_unpack _). vm_compute. exact I.
Defined.

Example play_example :
  trace (finish [Fulfilled None] (transport play (grouped "p2")))
  = [Send {| command := "players/cmd/play";
             args := [("player_id", JStr "p1")] |};
     SetTimeout 0].
Proof. vm_compute. reflexivity. Qed.

Definition join_p2 : option JSON :=
  Some (JObj [("targetPlayerId", JStr "p2")]).

(** "p2" leaves the group of "p1" for that of "p3", which is selected. *)
Lemma handleSet_selection_cached_witness :
  let s := set_caches (Some "p3") [p1; p2; player "p3" None] [] init in
  let replies := [Fulfilled None; Fulfilled None] in
  ∃ h,
    handleSet "ma:groupPlayer" join_p2 s = Some h
    ∧ playersCache (finish replies h) = playersCache s
    ∧ selection_cached (finish replies h).
Proof.
  apply (handleSet_selection_cached "ma:groupPlayer" join_p2
           (set_caches (Some "p3") [p1; p2; player "p3" None] [] init)
           [Fulfilled None; Fulfilled None]).
  - apply (bool_decide_unpack _). vm_compute. exact I.
  - intros id Hid. injection Hid as <-. vm_compute. repeat constructor.
Defined.

Example join_example :
  let s := set_caches (Some "p3") [p1; p2; player "p3" None] [] init in
  trace (finish [Fulfilled None; Fulfilled None] (groupPlayer join_p2 s))
  = [Send {| command := "players/cmd/ungroup";
             args := [("player_id", JStr "p2")] |};
     Send {| command := "players/cmd/set_members";
             args := [("target_player", JStr "p3");
                      ("player_ids_to_add", JArr [JStr "p2"])] |};
     EmitPlayersAndState; SetTimeout 0].
Proof. vm_compute. reflexivity. Qed.

(** One poll cycle while the client is connected; then the connection
    is lost, and a trigger, a scheduled poll and a late reply follow. *)
Lemma offline_polls_send_nothing_witness :
  let s0 :=
    run init
      [Trigger connected_env;
       ListsSettled connected_env (Fulfilled (Some [p1; p2], Some [q1]));
       ItemsSettled connected_env (Fulfilled (Some []))] in
  let s :=
    run s0
      [Trigger offline_env; SchedulePollSoon 0;
       ScheduledPollFired offline_env;
       ListsSettled offline_env (Rejected "Socket closed.")] in
  sends (added s0 s) = []
  ∧ pollInFlight s = false
  ∧ cycles_started s = cycles_started s0
  ∧ playersCache s = playersCache s0
  ∧ queuesCache s = queuesCache s0
  ∧ queueItemsCache s = queueItemsCache s0
  ∧ selectedPlayerId s = selectedPlayerId s0.
Proof.
  apply (offline_polls_send_nothing
           [Trigger connected_env;
            ListsSettled connected_env (Fulfilled (Some [p1; p2], Some [q1]));
            ItemsSettled connected_env (Fulfilled (Some []))]
           [Trigger offline_env; SchedulePollSoon 0;
            ScheduledPollFired offline_env;
            ListsSettled offline_env (Rejected "Socket closed.")]).
  - vm_compute. reflexivity.
  - repeat constructor.
Defined.

Example offline_example :
  trace
    (run (grouped "p1")
       [Trigger offline_env; SchedulePollSoon 0;
        ScheduledPollFired offline_env])
  = [EmitStatus; SetTimeout 0; EmitStatus].
Proof. vm_compute. reflexivity. Qed.

(** Three images, fetched 400, 300 and 200 seconds ago. *)
Definition sample_images : list (string * CachedImage) :=
  [("a", {| dataUri := "data:a"; fetchedAt := 0 |});
   ("b", {| dataUri := "data:b"; fetchedAt := 100000 |});
   ("c", {| dataUri := "data:c"; fetchedAt := 200000 |})].

Lemma pruneImageCache_spec_witness :
  let now := 400000%Q in
  let pruned := pruneImageCache now sample_images in
  pruned = filter (λ e, expired now e.2 = false) sample_images
  ∧ NoDup pruned.*1
  ∧ (∀ key entry,
       JS.Map_get key pruned = Some entry
       ↔ JS.Map_get key sample_images = Some entry
         ∧ (now - fetchedAt entry <= 300000)%Q)
  ∧ (∀ key,
       (cachedImage now key sample_images).1 = pruned
       ∧ ∀ uri,
           (cachedImage now key sample_images).2 = Some uri
           ↔ ∃ entry,
               JS.Map_get key sample_images = Some entry
               ∧ dataUri entry = uri
               ∧ (now - fetchedAt entry < 300000)%Q).
Proof.
  apply (pruneImageCache_spec 400000%Q sample_images).
  apply (bool_decide_unpack _). vm_compute. exact I.
Defined.

Example sample_images_example :
  pruneImageCache 400000 sample_images = List.tl sample_images
  ∧ (cachedImage 400000 "b" sample_images).2 = None
  ∧ (cachedImage 400000 "c" sample_images).2 = Some "data:c".
Proof. vm_compute. repeat split. Qed.

End RequestExamples.

Section ClientSessionExamples.
Import Client.

Definition token_client : Client.t := new "http://ma.local:8095" "secret".

(** The socket is open and the server has announced schema 28: the
    client has sent [auth] and waits for the reply. *)
Definition handshake_events : list Event :=
  [CallConnect; SocketOpened; SocketMessage 0 "server-info-28" "u0"].


Example handshake_example :
  handshaking (run sample_parse token_client handshake_events) = true.
Proof. vm_compute. reflexivity. Qed.

Lemma close_keeps_server_info_witness :
  let c := run sample_parse token_client handshake_events in
  let c' := step sample_parse c (SocketClosed 0) in
  ws c' = None ∧ authenticated c' = false ∧ pending c' = []
  ∧ serverInfo c' = serverInfo c
  ∧ MAStatusSnapshot.authRequired (getStatus c')
    = match serverInfo c with
      | Some info => Qle_bool 28 (schema_version info)
      | None => false
      end
  ∧ if handshaking c
    then state c' = Error
         ∧ message c' = "Authentication failed: Socket closed."
    else state c' = Disconnected
         ∧ message c' = "Disconnected from Music Assistant.".
Proof.
  apply (close_keeps_server_info sample_parse "http://ma.local:8095"
           "secret" handshake_events 0).
  - vm_compute. repeat split.
  - vm_compute. reflexivity.
Defined.

(** Connected, no token: a first command is sent under the id "m1". *)
Definition open_session : Client.t :=
  run sample_parse sample_client [CallConnect; SocketOpened].

Definition completed (r : Completion) : Client.t :=
  match r with Normal c => c | Throw _ c => c end.

(** Error frames for the command "m1", the second with an [event]. *)
Definition failure_frames : list (string * JSON) :=
  [("m1-error",
    JObj [("message_id", JStr "m1"); ("error_code", JStr "unavailable");
          ("details", JStr "Player p9 is not available.")]);
   ("m1-error-bare",
    JObj [("message_id", JStr "m1"); ("error_code", JStr "unavailable");
          ("details", JStr "")]);
   ("m1-error-event",
    JObj [("event", JStr "error"); ("message_id", JStr "m1");
          ("error_code", JStr "unavailable")])].

Definition failure_parse (rawText : string) : option JSON :=
  JS.Map_get rawText failure_frames.

Lemma command_failures_witness :
  let uuid := "m1" in
  let command_ := "players/all" in
  let c := open_session in
  let c1 := completed (sendCommand uuid Caller command_ None c) in
  let h := next_handle c in
  (∀ rawText fields code u,
     failure_parse rawText = Some (JObj fields) →
     server_info_shape (RObj fields) = false →
     assoc "message_id" fields = Some (JStr uuid) →
     assoc "error_code" fields = Some (JStr code) →
     let c2 := handleMessage failure_parse rawText u c1 in
     match assoc "event" fields with
     | Some (JStr name) =>
         pending c2 = pending c1 ∧ timers c2 = timers c1
         ∧ ∃ ev, event ev = name ∧ trace c2 = trace c1 ++ [EventDelivered ev]
     | _ =>
         trace c2
         = trace c1
           ++ [ClearTimeout h;
               Reject h match assoc "details" fields with
                        | Some (JStr (String a d)) => String a d
                        | _ => code
                        end]
         ∧ pending c2 = pending c
         ∧ timers c2 !! h = None
     end)
  ∧ let c2 := handle failure_parse (TimerFired h) c1 in
    trace c2
    = trace c1
      ++ [Reject h ("Music Assistant command timeout: " ++ command_)%string]
    ∧ pending c2 = pending c
    ∧ timers c2 !! h = None
    ∧ ∀ msg, message_id_of msg = uuid → handleResultMessage msg c2 = c2.
Proof.
  apply (command_failures failure_parse "m1" Caller "players/all" None
           open_session
           (completed (sendCommand "m1" Caller "players/all" None
                         open_session))).
  - vm_compute. reflexivity.
  - vm_compute. reflexivity.
Defined.

Example command_failures_example :
  let c1 :=
    completed (sendCommand "m1" Caller "players/all" None open_session) in
  let rejected (c : Client.t) := List.filter is_settlement (trace c) in
  rejected (handleMessage failure_parse "m1-error" "u1" c1)
  = [Reject 0 "Player p9 is not available."]
  ∧ rejected (handleMessage failure_parse "m1-error-bare" "u1" c1)
    = [Reject 0 "unavailable"]
  ∧ rejected (handleMessage failure_parse "m1-error-event" "u1" c1) = []
  ∧ pending (handleMessage failure_parse "m1-error-event" "u1" c1)
    = pending c1
  ∧ rejected (handle failure_parse (TimerFired 0) c1)
    = [Reject 0 "Music Assistant command timeout: players/all"].
Proof. vm_compute. repeat split. Qed.

(** The status published when the socket of the session closes says
    that the client is not connected. *)
Example close_status_example :
  trace (step sample_parse open_session (SocketClosed 0))
  = trace open_session
    ++ [StatusChange
          {| MAStatusSnapshot.state := Disconnected;
             MAStatusSnapshot.message := "Disconnected from Music Assistant.";
             MAStatusSnapshot.connected := false;
             MAStatusSnapshot.authenticated := false;
             MAStatusSnapshot.authRequired := false;
             MAStatusSnapshot.serverInfo := None |}].
Proof. by vm_compute. Qed.

Definition schema_28 : MAServerInfoMessage :=
  {| server_id := "ma"; server_version := "2.6.0"; schema_version := 28;
     min_supported_schema_version := None |}.

Lemma token_handshake_witness :
  let uuid := "u0" in
  let c := run sample_parse token_client [CallConnect; SocketOpened] in
  let h := next_handle c in
  let tok := JS.trim (authToken c) in
  let c1 := drain (handleServerInfo schema_28 uuid c) in
  (state c1 = Authenticating ∧ authenticated c1 = false
   ∧ serverInfo c1 = Some schema_28
   ∧ JS.Map_get uuid (pending c1)
     = Some {| settle := {| p_id := h; p_waiter := Auth FromServerInfo tok |};
               timeout := h; partialResults := [] |}
   ∧ ∃ socket status fields,
       ws c = Some socket
       ∧ trace c1
         = trace c
           ++ [StatusChange status; SetTimeout h COMMAND_TIMEOUT_MS;
               SocketSend (sock socket) (JObj fields)]
       ∧ assoc "command" fields = Some (JStr "auth")
       ∧ assoc "message_id" fields = Some (JStr uuid)
       ∧ assoc "args" fields = Some (JObj [("token", JStr tok)]))
  ∧ (∀ result,
       let c2 :=
         drain (handleResultMessage
                  (MAResultSuccessMessage uuid result false) c1) in
       state c2 = Authenticated ∧ authenticated c2 = true
       ∧ authToken c2 = tok
       ∧ message c2 = "Connected and authenticated.")
  ∧ (∀ code details,
       let c3 :=
         drain (handleResultMessage
                  (MAResultErrorMessage uuid code details) c1) in
       state c3 = Error ∧ authenticated c3 = false
       ∧ message c3
         = ("Authentication failed: " ++ error_reason code details)%string
       ∧ authToken c3 = authToken c)
  ∧ let c4 := step sample_parse c1 (TimerFired h) in
    state c4 = Error ∧ authenticated c4 = false
    ∧ message c4
      = "Authentication failed: Music Assistant command timeout: auth".
Proof.
  apply (token_handshake sample_parse "http://ma.local:8095" "secret"
           [CallConnect; SocketOpened] schema_28 "u0").
  - vm_compute. repeat split.
  - vm_compute. reflexivity.
  - vm_compute. discriminate.
  - vm_compute. discriminate.
  - vm_compute. reflexivity.
Defined.

End ClientSessionExamples.

Section UrlExamples.
Import Text Url.

Lemma toWebSocketUrl_host_witness :
  toWebSocketUrl "http://ma.local:8095" = "ws://ma.local:8095/ws"
  ∧ toWebSocketUrl "https://ma.local:8095" = "wss://ma.local:8095/ws".
Proof.
  apply (toWebSocketUrl_host "ma.local:8095").
  - discriminate.
  - vm_compute. repeat constructor.
  - reflexivity.
Defined.

End UrlExamples.
